(** * Watermark Genie: batch watermarking pipeline

    A shallow embedding of [watermark_gienie.py]: the resize and sizing
    arithmetic of [ImageProcessor], the in-place image operations of
    [apply_watermark] over a store of image objects, the discovery and path
    validation of [FileManager], the conflict handling of
    [process_single_file] and the result collection loop of
    [_process_images].

    Python integers are [Z].  Python floats are binary64 values, kept as the
    rational they denote; every float operation is the exact operation
    followed by rounding to nearest, ties to even ([PyFloat.fl]). *)

From Stdlib Require Import ZArith QArith Qround Qabs Qpower Qreduction.
From Stdlib Require Import Lia Lqa Bool List Ascii String.
From Stdlib Require Import Uint63 PrimFloat FloatOps SpecFloat.
From stdpp Require Import base option list strings gmap pretty.

#[local] Open Scope Z_scope.

(* ===================================================================== *)
(** * Python numbers *)
(* ===================================================================== *)

Module PyFloat.

(** [int(x)] on a float: truncation toward zero. *)
Definition py_int (x : Q) : Z :=
  if Qle_bool 0 x then Qfloor x else Qceiling x.

(** [round(x)] on a float, one argument: nearest integer, ties to even. *)
Definition py_round (x : Q) : Z :=
  let f := Qfloor x in
  match Qcompare (x - inject_Z f) (1 # 2) with
  | Lt => f
  | Gt => f + 1
  | Eq => if Z.even f then f else f + 1
  end.

(** The binade of a positive rational: the [e] with [2^e <= x < 2^(e+1)]. *)
Definition binade (x : Q) : Z :=
  let e := Z.log2 (Qnum x) - Z.log2 (Zpos (Qden x)) in
  if Qle_bool (2 ^ e) x then e else e - 1.

(** Rounding of a positive rational to 53 significant bits. *)
Definition round_pos (x : Q) : Q :=
  let e := binade x - 52 in
  inject_Z (py_round (x / 2 ^ e)) * 2 ^ e.

(** Rounding to binary64 (exponent range not bounded: the values met here
    are far from overflow and from the subnormal range). *)
Definition fl (x : Q) : Q :=
  let r := Qred x in
  match Qcompare r 0 with
  | Eq => 0%Q
  | Gt => round_pos r
  | Lt => (- round_pos (- r))%Q
  end.

(** [float(n)], the conversion applied to an int operand of a float
    operation. *)
Definition float_of_int (n : Z) : Q := fl (inject_Z n).

(** [a / b] on two ints: true division, correctly rounded. *)
Definition truediv_int (a b : Z) : Q := fl (inject_Z a / inject_Z b).

(** [x * y] on two floats. *)
Definition fmul (x y : Q) : Q := fl (x * y).

(** Unit roundoff of binary64. *)
Definition u : Q := 1 # (2 ^ 53).

End PyFloat.

Import PyFloat.

(* ===================================================================== *)
(** * Images and the store of image objects *)
(* ===================================================================== *)

(** A PIL image: its mode, its size, one list of 8-bit samples per band
    (row-major) and the [exif] entry of its [info] dictionary. *)
Record Image := mkImage {
  mode : string;
  size : Z * Z;
  bands : list (list Z);
  exif : option (list Z)
}.

Definition width (im : Image) : Z := fst (size im).
Definition height (im : Image) : Z := snd (size im).

(** The pixel work that PIL does in C and that the Python source only
    calls: mode conversion, Lanczos resampling and masked paste.  Their
    results are not fixed by the source; the model is parametric in them.
    What is fixed is the number of bands: an RGBA image has four, and
    resampling keeps the bands of its argument. *)
Class Pixels := {
  (** [Image.convert(mode)]: the bands of the converted image. *)
  pil_convert : string -> Image -> list (list Z);
  (** [Image.resize(size, Image.LANCZOS)]: the bands of the resized image. *)
  pil_lanczos : Z * Z -> Image -> list (list Z);
  (** [Image.paste(im, box, mask)]: the bands of the target afterwards. *)
  pil_paste : Image -> Image -> Z * Z -> Image -> list (list Z);
  pil_convert_rgba : forall im, length (pil_convert "RGBA" im) = 4%nat;
  pil_lanczos_bands :
    forall new_size im, length (pil_lanczos new_size im) = length (bands im)
}.

(** An image whose mode is RGBA carries its four bands. *)
Definition well_formed (im : Image) : Prop :=
  mode im = "RGBA" -> length (bands im) = 4%nat.

(** Image objects live in a store; a Python variable holds a reference. *)
Abbreviation ref := nat.
Abbreviation store := (list Image).

(** Computations over the store; [None] is a raised exception. *)
Definition M (A : Type) : Type := store -> option (A * store).

Definition ret {A} (a : A) : M A := fun st => Some (a, st).

Definition bind {A B} (m : M A) (k : A -> M B) : M B :=
  fun st => match m st with
            | Some (a, st') => k a st'
            | None => None
            end.

Definition raise {A} : M A := fun _ => None.

Notation "'let*' x ':=' m 'in' k" := (bind m (fun x => k))
  (at level 10, x binder, m at level 100, k at level 200).

(** A new image object. *)
Definition new_image (im : Image) : M ref :=
  fun st => Some (length st, st ++ [im]).

(** Reading through a reference. *)
Definition deref (r : ref) : M Image :=
  fun st => match st !! r with
            | Some im => Some (im, st)
            | None => None
            end.

(** In-place update of the object behind a reference. *)
Definition assign (r : ref) (im : Image) : M unit :=
  fun st => match st !! r with
            | Some _ => Some (tt, <[r := im]> st)
            | None => None
            end.

Section PIL.
Context `{Pixels}.

(** [image.copy()] *)
Definition copy (r : ref) : M ref :=
  let* im := deref r in new_image im.

(** [image.convert(m)]: a new image. *)
Definition convert (r : ref) (m : string) : M ref :=
  let* im := deref r in
  new_image (mkImage m (size im) (pil_convert m im) (exif im)).

(** The sizes that [Image.resize] accepts: PIL raises [ValueError]
    (height and width must be > 0) when a side is below 1. *)
Definition resizable (new_size : Z * Z) : bool :=
  (1 <=? fst new_size) && (1 <=? snd new_size).

(** [image.resize(new_size, Image.LANCZOS)]: a new image of the requested
    size, or the [ValueError].  (PIL's shortcut for an unchanged size is
    not reached: both callers ask for a smaller side.) *)
Definition resize (r : ref) (new_size : Z * Z) : M ref :=
  let* im := deref r in
  if resizable new_size then
    new_image (mkImage (mode im) new_size (pil_lanczos new_size im) (exif im))
  else raise.

(** [image.split()[i]]: band [i] as a new single-band image. *)
Definition split_band (r : ref) (i : nat) : M ref :=
  let* im := deref r in
  match bands im !! i with
  | Some b => new_image (mkImage "L" (size im) [b] (exif im))
  | None => raise
  end.

(** [image.point(f)] on an 8-bit image: [f] is tabulated on [0..255] and
    the table is applied to every sample; a new image. *)
Definition clip8 (v : Z) : Z := Z.max 0 (Z.min 255 v).

Definition lookup_table (f : Z -> Z) : list Z :=
  map (fun i => clip8 (f (Z.of_nat i))) (seq 0 256).

Definition apply_table (lut : list Z) (v : Z) : Z :=
  nth (Z.to_nat v) lut 0.

Definition point (r : ref) (f : Z -> Z) : M ref :=
  let* im := deref r in
  let lut := lookup_table f in
  new_image (mkImage (mode im) (size im)
               (map (map (apply_table lut)) (bands im)) (exif im)).

(** [image.putalpha(alpha)] on an RGBA image: the alpha band of the object
    itself is replaced.  No new image. *)
Definition putalpha (r : ref) (alpha : ref) : M unit :=
  let* im := deref r in
  let* a := deref alpha in
  match bands a !! 0%nat with
  | Some b => assign r (mkImage (mode im) (size im) (<[3%nat := b]> (bands im)) (exif im))
  | None => raise
  end.

(** [target.paste(im, box, mask)]: the target object itself is updated. *)
Definition paste (target : ref) (im : ref) (box : Z * Z) (mask : ref) : M unit :=
  let* t := deref target in
  let* i := deref im in
  let* m := deref mask in
  assign target (mkImage (mode t) (size t) (pil_paste t i box m) (exif t)).

(* ===================================================================== *)
(** * ImageProcessor *)
(* ===================================================================== *)

(** The size asked of [image.resize] in [resize_maintain_aspect]. *)
Definition fitted_size (w h max_dimension : Z) : Z * Z :=
  if w >=? h then
    (max_dimension, py_int (truediv_int (max_dimension * h) w))
  else
    (py_int (truediv_int (max_dimension * w) h), max_dimension).

(** [ImageProcessor.resize_maintain_aspect(image, max_dimension)] *)
Definition resize_maintain_aspect (image : ref) (max_dimension : Z) : M ref :=
  let* im := deref image in
  let (w, h) := size im in
  if Z.max w h <=? max_dimension then copy image
  else resize image (fitted_size w h max_dimension).

(** [c in position] for a one-character string [c]. *)
Fixpoint contains (c : ascii) (s : string) : bool :=
  match s with
  | EmptyString => false
  | String a s' => if Ascii.eqb a c then true else contains c s'
  end.

(** Step 1 of [apply_watermark]: the watermark gets an alpha channel. *)
Definition ensure_rgba (watermark : ref) : M ref :=
  let* wm := deref watermark in
  if String.eqb (mode wm) "RGBA" then ret watermark
  else convert watermark "RGBA".

(** [target_width = max(target_width, 30)] *)
Definition effective_target_width (target_width : Z) : Z :=
  Z.max target_width 30.

(** The size asked of [watermark.resize] in [apply_watermark]. *)
Definition scaled_size (w h target_width : Z) : Z * Z :=
  let scale_factor := truediv_int target_width w in
  (py_int (fmul (float_of_int w) scale_factor),
   py_int (fmul (float_of_int h) scale_factor)).

(** Step 2: the watermark is scaled down when it is wider than the
    target width; [target_width] is the effective one. *)
Definition scale_watermark (watermark : ref) (target_width : Z) : M ref :=
  let* wm := deref watermark in
  if width wm >? target_width then
    resize watermark (scaled_size (width wm) (height wm) target_width)
  else ret watermark.

(** Whether step 2 goes through: the watermark is narrow enough to stay
    as it is, or [resize] accepts the scaled size. *)
Definition scale_accepts (wm : Image) (target_width : Z) : bool :=
  (width wm <=? target_width)
  || resizable (scaled_size (width wm) (height wm) target_width).

(** Step 3: [alpha.point(lambda p: int(p * opacity / 100))] and
    [watermark.putalpha(alpha)] when [opacity < 100]. *)
Definition fade (opacity : Z) (p : Z) : Z :=
  py_int (truediv_int (p * opacity) 100).

Definition apply_opacity (watermark : ref) (opacity : Z) : M unit :=
  if opacity <? 100 then
    let* alpha := split_band watermark 3 in
    let* alpha := point alpha (fade opacity) in
    putalpha watermark alpha
  else ret tt.

(** The top-left corner of the watermark. *)
Definition anchor_offset (position : string) (margin : Z)
    (base_size wm_size : Z * Z) : Z * Z :=
  let (base_width, base_height) := base_size in
  let (wm_width, wm_height) := wm_size in
  let x := if contains "L" position then margin
           else if contains "R" position then base_width - wm_width - margin
           else (base_width - wm_width) / 2 in
  let y := if contains "T" position then margin
           else if contains "B" position then base_height - wm_height - margin
           else (base_height - wm_height) / 2 in
  (x, y).

(** The watermark as it is pasted: steps 1 to 3. *)
Definition prepare_watermark (watermark : ref) (opacity target_width : Z) : M ref :=
  let* watermark := ensure_rgba watermark in
  let target_width := effective_target_width target_width in
  let* watermark := scale_watermark watermark target_width in
  let* _ := apply_opacity watermark opacity in
  ret watermark.

(** [ImageProcessor.apply_watermark(base_image, watermark, position,
    opacity, margin, target_width)] *)
Definition apply_watermark (base_image watermark : ref) (position : string)
    (opacity margin target_width : Z) : M ref :=
  let* watermark := prepare_watermark watermark opacity target_width in
  let* base := deref base_image in
  let* wm := deref watermark in
  let xy := anchor_offset position margin (size base) (size wm) in
  let* result := copy base_image in
  let* _ := paste result watermark xy watermark in
  ret result.

End PIL.

(** The image left behind [watermark] by the opacity step. *)
Definition faded (opacity : Z) (wm : Image) : Image :=
  mkImage (mode wm) (size wm)
    (<[3%nat := map (apply_table (lookup_table (fade opacity)))
                    (default [] (bands wm !! 3%nat))]> (bands wm))
    (exif wm).

(** What a step leaves in place: every object of [st] is still there in
    [st'], unchanged unless it is [touched]. *)
Definition preserves (touched : option ref) (st st' : store) : Prop :=
  forall q im, st !! q = Some im ->
    if decide (touched = Some q) then is_Some (st' !! q) else st' !! q = Some im.

(* ===================================================================== *)
(** * Target watermark width: the three call sites *)
(* ===================================================================== *)

(** [WatermarkGenieGUI._update_single_preview]: the sizing block on the
    preview image. *)
Definition preview_target_width (base_width base_height scale : Z)
    (auto_scale : bool) : Z :=
  let is_portrait := base_height >? base_width in
  if auto_scale then
    if is_portrait then
      Z.max 40 (py_int (fmul (float_of_int base_width) (1 # 2)))
    else
      Z.max 40 (py_int (truediv_int (Z.min base_width base_height * scale) 100))
  else
    if is_portrait then
      Z.max 40 (py_int (fmul (truediv_int (base_width * scale) 100) (3 # 2)))
    else
      Z.max 40 (py_int (truediv_int (base_width * scale) 100)).

(** [min(image.size)]: the least element of the size tuple. *)
Definition min_size (sz : Z * Z) : Z :=
  let (w, h) := sz in if h <? w then h else w.

(** [process_single_file] in [WatermarkGenieGUI._process_images]: the
    sizing block on the image about to be watermarked. *)
Definition batch_target_width (image_size : Z * Z) (scale : Z)
    (auto_scale : bool) : Z :=
  let (image_width, image_height) := image_size in
  let is_portrait := image_height >? image_width in
  if auto_scale then
    if is_portrait then
      Z.max 40 (py_int (fmul (float_of_int image_width) (1 # 2)))
    else
      Z.max 40 (py_int (truediv_int (min_size image_size * scale) 100))
  else
    if is_portrait then
      Z.max 40 (py_int (fmul (truediv_int (image_width * scale) 100) (3 # 2)))
    else
      Z.max 40 (py_int (truediv_int (image_width * scale) 100)).

(** [WatermarkGenieCLI.run]: the sizing block of the command-line loop,
    with [args.auto] and [args.scale]. *)
Definition cli_target_width (image_size : Z * Z) (args_scale : Z)
    (args_auto : bool) : Z :=
  let (image_width, image_height) := image_size in
  let is_portrait := image_height >? image_width in
  if args_auto then
    if is_portrait then
      Z.max 40 (py_int (fmul (float_of_int image_width) (1 # 2)))
    else
      Z.max 40 (py_int (truediv_int (min_size image_size * args_scale) 100))
  else
    if is_portrait then
      Z.max 40 (py_int (fmul (truediv_int (image_width * args_scale) 100) (3 # 2)))
    else
      Z.max 40 (py_int (truediv_int (image_width * args_scale) 100)).

(** The sizing table as the specification words it, with [round] where the
    source has [int]. *)
Definition spec_target_width (base_width base_height scale_percent : Z)
    (auto_scale : bool) : Z :=
  if auto_scale then
    if base_height >? base_width then
      Z.max 40 (py_round (fmul (float_of_int base_width) (1 # 2)))
    else
      Z.max 40 (py_round (truediv_int (Z.min base_width base_height * scale_percent) 100))
  else
    if base_height >? base_width then
      Z.max 40 (py_round (fmul (truediv_int (base_width * scale_percent) 100) (3 # 2)))
    else
      Z.max 40 (py_round (truediv_int (base_width * scale_percent) 100)).

(** The sizing table with truncation: what the three call sites compute,
    in exact integer arithmetic. *)
Definition truncated_target_width (base_width base_height scale_percent : Z)
    (auto_scale : bool) : Z :=
  if auto_scale then
    if base_height >? base_width then Z.max 40 (base_width / 2)
    else Z.max 40 (Z.min base_width base_height * scale_percent / 100)
  else
    if base_height >? base_width then Z.max 40 (3 * (base_width * scale_percent) / 200)
    else Z.max 40 (base_width * scale_percent / 100).

(** ** The same arithmetic on hardware binary64

    The sizing and resizing expressions on Rocq's primitive floats, to
    compare [PyFloat.fl] with the machine's rounding. *)
Module Binary64.

Definition of_int (n : Z) : float := PrimFloat.of_uint63 (Uint63.of_Z n).

(** [int(x)] for a finite float. *)
Definition to_int (x : float) : Z :=
  match Prim2SF x with
  | S754_finite s m e =>
      let a := match e with
               | Z0 => Zpos m
               | Zpos p => Z.shiftl (Zpos m) (Zpos p)
               | Zneg p => Z.shiftr (Zpos m) (Zpos p)
               end in
      if s then - a else a
  | _ => 0
  end.

Definition half (w : Z) : Z := to_int (PrimFloat.mul (of_int w) 0.5%float).

Definition percent (n : Z) : Z :=
  to_int (PrimFloat.div (of_int n) (of_int 100)).

Definition percent_boost (n : Z) : Z :=
  to_int (PrimFloat.mul (PrimFloat.div (of_int n) (of_int 100)) 1.5%float).

Definition rescale (w t : Z) : Z :=
  to_int (PrimFloat.mul (of_int w) (PrimFloat.div (of_int t) (of_int w))).

Definition agree_on (w s : Z) : bool :=
  (half w =? py_int (fmul (float_of_int w) (1 # 2)))
  && (percent (w * s) =? py_int (truediv_int (w * s) 100))
  && (percent_boost (w * s) =? py_int (fmul (truediv_int (w * s) 100) (3 # 2)))
  && (let t := s + 29 in
      let wm := w + t in
      rescale wm t =? py_int (fmul (float_of_int wm) (truediv_int t wm))).

(** [lo], [lo + step], ... ([n] values). *)
Definition range (lo step : Z) (n : nat) : list Z :=
  map (fun i => lo + step * Z.of_nat i) (seq 0 n).

End Binary64.

(* ===================================================================== *)
(** * Strings and paths *)
(* ===================================================================== *)

(** [str.lower()] and [str.upper()] on ASCII text. *)
Definition lower_ascii (c : ascii) : ascii :=
  let n := nat_of_ascii c in
  if (65 <=? n)%nat && (n <=? 90)%nat then ascii_of_nat (n + 32) else c.

Definition upper_ascii (c : ascii) : ascii :=
  let n := nat_of_ascii c in
  if (97 <=? n)%nat && (n <=? 122)%nat then ascii_of_nat (n - 32) else c.

Fixpoint lower (s : string) : string :=
  match s with
  | EmptyString => EmptyString
  | String c s' => String (lower_ascii c) (lower s')
  end.

Fixpoint upper (s : string) : string :=
  match s with
  | EmptyString => EmptyString
  | String c s' => String (upper_ascii c) (upper s')
  end.

(** [s.rfind(c)]: index of the last occurrence. *)
Fixpoint rfind (c : ascii) (s : string) : option nat :=
  match s with
  | EmptyString => None
  | String a s' =>
      match rfind c s' with
      | Some i => Some (S i)
      | None => if Ascii.eqb a c then Some 0%nat else None
      end
  end.

(** [sep.join(l)] *)
Fixpoint join (sep : string) (l : list string) : string :=
  match l with
  | [] => ""
  | [x] => x
  | x :: rest => x ++ sep ++ join sep rest
  end.

(** [s[1:]] *)
Definition drop_first (s : string) : string :=
  match s with
  | EmptyString => EmptyString
  | String _ s' => s'
  end.

(** A [pathlib] path: the anchor (drive and root, empty for a relative
    path) and the components below it. *)
Record Path := mkPath {
  anchor : string;
  names : list string
}.

#[global] Instance Path_eq_dec : EqDecision Path.
Proof. solve_decision. Defined.

#[global] Instance Path_countable : Countable Path.
Proof.
  refine (inj_countable' (fun p => (anchor p, names p))
                         (fun t => mkPath (fst t) (snd t)) _).
  now intros [a n].
Defined.

(** [path.name] *)
Definition name (p : Path) : string := List.last (names p) "".

(** [path.suffix]: the last dot of the name and what follows, unless the
    dot starts or ends the name. *)
Definition suffix_of (n : string) : string :=
  match rfind "." n with
  | Some i =>
      if (0 <? i)%nat && (i <? String.length n - 1)%nat
      then substring i (String.length n - i) n
      else ""
  | None => ""
  end.

Definition suffix (p : Path) : string := suffix_of (name p).

(** [path.parent] *)
Definition parent (p : Path) : Path :=
  mkPath (anchor p) (removelast (names p)).

(** [path / child] for one relative component. *)
Definition child (p : Path) (c : string) : Path :=
  mkPath (anchor p) (names p ++ [c]).

(** What [pathlib] keeps of the components of an argument it parses:
    empty components and [.] are dropped. *)
Definition parse_parts (l : list string) : list string :=
  List.filter (fun x => negb (String.eqb x "") && negb (String.eqb x ".")) l.

(** [path / other]: the components of [other] are parsed again, those of
    [path] are kept as they are. *)
Definition joinpath (p other : Path) : Path :=
  if String.eqb (anchor other) ""
  then mkPath (anchor p) (names p ++ parse_parts (names other))
  else mkPath (anchor other) (parse_parts (names other)).

(** [path.with_suffix(sfx)]; [None] is the [ValueError] for an empty name. *)
Definition with_suffix (p : Path) (sfx : string) : option Path :=
  let n := name p in
  if String.eqb n "" then None
  else
    let old := suffix_of n in
    let n' := if String.eqb old "" then (n ++ sfx)%string
              else (substring 0 (String.length n - String.length old) n ++ sfx)%string in
    Some (mkPath (anchor p) (removelast (names p) ++ [n'])).

(** [str(path)] *)
Definition str (p : Path) : string :=
  match anchor p, names p with
  | EmptyString, [] => "."
  | a, ns => (a ++ join "/" ns)%string
  end.

(** Components of [l] below the prefix [pre]. *)
Fixpoint strip_prefix (pre l : list string) : option (list string) :=
  match pre, l with
  | [], _ => Some l
  | p :: pre', x :: l' => if String.eqb p x then strip_prefix pre' l' else None
  | _ :: _, [] => None
  end.

(** [self.relative_to(other)]: purely lexical; [None] is [ValueError]. *)
Definition relative_to (self other : Path) : option Path :=
  if String.eqb (anchor self) (anchor other) then
    match strip_prefix (names other) (names self) with
    | Some rest => Some (mkPath "" rest)
    | None => None
    end
  else None.

(** [output_dir] is [input_dir] or lies below it, component by component. *)
Definition inside (output_dir input_dir : Path) : Prop :=
  anchor output_dir = anchor input_dir /\
  exists rest, names output_dir = names input_dir ++ rest.


(** [file_path.relative_to(input_dir).with_suffix('')] *)
Definition relative_stem (file_path input_dir : Path) : option Path :=
  match relative_to file_path input_dir with
  | Some relative_path => with_suffix relative_path ""
  | None => None
  end.

(* ===================================================================== *)
(** * The file system *)
(* ===================================================================== *)

(** What a file holds: bytes that were there before the run, or an image
    written by [save_image] in a given format. *)
Inductive FileData :=
  | Bytes (b : list Z)
  | Saved (format : string) (im : Image) (exif_data : option (list Z)).

Inductive Node :=
  | Directory
  | RegularFile (data : FileData).

Definition is_dir (fs : gmap Path Node) (p : Path) : bool :=
  match fs !! p with Some Directory => true | _ => false end.

Definition is_file (fs : gmap Path Node) (p : Path) : bool :=
  match fs !! p with Some (RegularFile _) => true | _ => false end.

Definition path_exists (fs : gmap Path Node) (p : Path) : bool :=
  match fs !! p with Some _ => true | None => false end.

(* ===================================================================== *)
(** * FileManager.validate_paths and the two entry points *)
(* ===================================================================== *)

(** [FileManager.validate_paths(input_dir, output_dir, watermark_file)] *)
Definition validate_paths (fs : gmap Path Node)
    (input_dir output_dir watermark_file : Path) : bool * string :=
  if negb (is_dir fs input_dir) then
    (false, "Input directory does not exist")
  else if negb (is_file fs watermark_file) then
    (false, "Watermark file does not exist")
  else if negb (String.eqb (lower (suffix watermark_file)) ".png") then
    (false, "Watermark must be a PNG file")
  else
    match relative_to output_dir input_dir with
    | Some _ => (false, "Output directory cannot be inside input directory")
    | None => (true, "Paths are valid")
    end.


(** What a run can do to its surroundings: the file system, the files it
    has opened, and the messages it has shown or printed. *)
Record World := mkWorld {
  files : gmap Path Node;
  opened : list Path;
  messages : list string
}.

Inductive Outcome :=
  | Returned
  | Exited (code : Z).

Section EntryPoints.

(** Everything an entry point does after validation has passed: discovery,
    confirmation, the batch itself, the log and the archive. *)
Variable run_batch : Path -> Path -> Path -> World -> Outcome * World.

(** [WatermarkGenieGUI.start_processing]: validation, then the rest. *)
Definition start_processing (input_dir output_dir watermark_file : Path)
    (w : World) : Outcome * World :=
  let (is_valid, error_msg) :=
    validate_paths (files w) input_dir output_dir watermark_file in
  if negb is_valid then
    (Returned, mkWorld (files w) (opened w) (messages w ++ [error_msg]))
  else run_batch input_dir output_dir watermark_file w.

(** [WatermarkGenieCLI.run]: validation, then the rest. *)
Definition cli_run (input_dir output_dir watermark_file : Path)
    (w : World) : Outcome * World :=
  let (is_valid, error_msg) :=
    validate_paths (files w) input_dir output_dir watermark_file in
  if negb is_valid then
    (Exited 1, mkWorld (files w) (opened w)
                       (messages w ++ [("Error: " ++ error_msg)%string]))
  else run_batch input_dir output_dir watermark_file w.

End EntryPoints.

(* ===================================================================== *)
(** * FileManager.find_supported_images *)
(* ===================================================================== *)

Definition SUPPORTED_FORMATS : list string :=
  [".jpg"; ".jpeg"; ".png"; ".webp"; ".tif"; ".tiff"; ".bmp"].

(** The extensions counted as ignored without being opened. *)
Definition KNOWN_UNSUPPORTED : list string :=
  [".avif"; ".heic"; ".gif"; ".tga"; ".pcx"].

Definition MAX_BATCH_SIZE : nat := 5000.
Definition MAX_DIRECTORY_DEPTH : Z := 50.

(** [s in formats] *)
Definition mem (s : string) (formats : list string) : bool :=
  existsb (String.eqb s) formats.

(** One path yielded by [rglob('*')] or [iterdir()], with what the scan
    asks of it: [is_file()] and whether [Image.open] succeeds. *)
Record DirEntry := mkEntry {
  entry_path : Path;
  entry_is_file : bool;
  entry_opens : bool
}.

(** A directory as the scan sees it.  The listings are complete: an error
    raised by the traversal itself, which the source logs before returning
    what it has, is left out. *)
Record DirectoryView := mkDirectory {
  dir_path : Path;
  dir_is_dir : bool;
  dir_iterdir : list DirEntry;   (** direct children, in traversal order *)
  dir_rglob : list DirEntry      (** all descendants, in traversal order *)
}.

(** [len(path.parts)] *)
Definition parts_len (p : Path) : Z :=
  (if String.eqb (anchor p) "" then 0 else 1) + Z.of_nat (length (names p)).

(** The body of the loop on a file: open it if its extension is supported,
    count it if it cannot be opened or has a known unsupported extension. *)
Definition classify (e : DirEntry) (acc : list Path * nat) : list Path * nat :=
  let (images, ignored_count) := acc in
  let ext := lower (suffix (entry_path e)) in
  if mem ext SUPPORTED_FORMATS then
    if entry_opens e then (images ++ [entry_path e], ignored_count)
    else (images, S ignored_count)
  else if mem ext KNOWN_UNSUPPORTED then (images, S ignored_count)
  else acc.

(** The condition that guards the body in each mode. *)
Definition visited (directory : Path) (max_depth : Z) (include_subfolders : bool)
    (e : DirEntry) : bool :=
  if include_subfolders then
    (parts_len (entry_path e) - parts_len directory <=? max_depth)
    && entry_is_file e
  else entry_is_file e.

(** The [for] loop with its [break] once [MAX_BATCH_SIZE] images are held. *)
Fixpoint scan (guard : DirEntry -> bool) (entries : list DirEntry)
    (acc : list Path * nat) : list Path * nat :=
  match entries with
  | [] => acc
  | e :: rest =>
      let acc' := if guard e then classify e acc else acc in
      if (MAX_BATCH_SIZE <=? length (fst acc'))%nat then acc'
      else scan guard rest acc'
  end.

(** [FileManager.find_supported_images(directory, max_depth,
    include_subfolders)] *)
Definition find_supported_images (d : DirectoryView) (max_depth : Z)
    (include_subfolders : bool) : list Path * nat :=
  if negb (dir_is_dir d) then ([], 0%nat)
  else
    scan (visited (dir_path d) max_depth include_subfolders)
         (if include_subfolders then dir_rglob d else dir_iterdir d)
         ([], 0%nat).

(** The files the scan opens: visited files
    with a supported extension. *)
Definition supported (guard : DirEntry -> bool) (e : DirEntry) : bool :=
  guard e && mem (lower (suffix (entry_path e))) SUPPORTED_FORMATS.

Definition decodable (guard : DirEntry -> bool) (e : DirEntry) : bool :=
  supported guard e && entry_opens e.

Definition undecodable (guard : DirEntry -> bool) (e : DirEntry) : bool :=
  supported guard e && negb (entry_opens e).

Definition known_unsupported (guard : DirEntry -> bool) (e : DirEntry) : bool :=
  guard e && negb (mem (lower (suffix (entry_path e))) SUPPORTED_FORMATS)
  && mem (lower (suffix (entry_path e))) KNOWN_UNSUPPORTED.

(* ===================================================================== *)
(** * process_single_file: conflict handling and saving *)
(* ===================================================================== *)

(** [Image.open] on the content of a file; [None] when PIL cannot decode
    it. *)
Class Codec := {
  pil_open : FileData -> option Image
}.

(** The state a file task works on: the file system and the image
    objects. *)
Record PState := mkPState {
  fs : gmap Path Node;
  objs : store
}.

(** Computations that may raise: the message of the exception, or a
    value; the state is kept either way.  The messages of library
    exceptions are stand-ins for the library's own text. *)
Definition E (A : Type) : Type := PState -> (string + A) * PState.

Definition eret {A} (a : A) : E A := fun s => (inr a, s).

Definition ebind {A B} (m : E A) (k : A -> E B) : E B :=
  fun s => match m s with
           | (inr a, s') => k a s'
           | (inl e, s') => (inl e, s')
           end.

Definition throw {A} (msg : string) : E A := fun s => (inl msg, s).

Notation "'let!' x ':=' m 'in' k" := (ebind m (fun x => k))
  (at level 10, x binder, m at level 100, k at level 200).

(** An image operation run on the objects of the task. *)
Definition lift {A} (m : M A) : E A :=
  fun s => match m (objs s) with
           | Some (a, st) => (inr a, mkPState (fs s) st)
           | None => (inl "image operation failed", s)
           end.

Definition of_option {A} (o : option A) (msg : string) : E A :=
  match o with
  | Some a => eret a
  | None => throw msg
  end.

(** Python truthiness of an optional format name. *)
Definition truthy (fmt : option string) : bool :=
  match fmt with
  | Some s => negb (String.eqb s "")
  | None => false
  end.

Definition fmt_lower (fmt : option string) : string :=
  match fmt with
  | Some s => lower s
  | None => ""
  end.

(** [WatermarkGenieGUI._check_file_exists(output_path, main_format,
    extra_format)] *)
Definition _check_file_exists (files : gmap Path Node) (output_path : Path)
    (main_format extra_format : option string) : bool :=
  let sibling (tail : string) :=
    child (parent output_path) (name output_path ++ tail)%string in
  if (if truthy main_format
      then path_exists files (sibling ("." ++ fmt_lower main_format)%string)
      else existsb (fun ext => path_exists files (sibling ext))
                   [".jpg"; ".jpeg"; ".png"; ".webp"])
  then true
  else if truthy extra_format
          && path_exists files (sibling ("." ++ fmt_lower extra_format)%string)
  then true
  else false.

Section Processing.
Context `{Pixels} `{Codec}.

(** [Image.open(file_path)]: a new image object decoded from the file. *)
Definition open_image (file_path : Path) : E ref :=
  fun s =>
    match fs s !! file_path with
    | Some (RegularFile data) =>
        match pil_open data with
        | Some im => lift (new_image im) s
        | None => (inl "cannot identify image file", s)
        end
    | _ => (inl "No such file or directory", s)
    end.

(** Writing a file: the node at [p] is replaced. *)
Definition write_file (p : Path) (data : FileData) : E unit :=
  fun s => (inr tt, mkPState (<[p := RegularFile data]> (fs s)) (objs s)).

(** [image.save(save_path, 'JPEG', ..., exif=None)]: the JPEG writer of PIL
    takes the length of [exif] and raises [TypeError] on [None].  By then
    [save] has opened the file for writing: a file that was there is left
    empty, a file that was not is removed again. *)
Definition save_without_exif (p : Path) : E unit :=
  fun s =>
    (inl "object of type 'NoneType' has no len()",
     mkPState (match fs s !! p with
               | Some (RegularFile _) => <[p := RegularFile (Bytes [])]> (fs s)
               | _ => fs s
               end) (objs s)).

(** [ImageProcessor.save_image(image, output_path, format_type,
    exif_data)] *)
Definition save_image (image : ref) (output_path : Path) (format_type : string)
    (exif_data : option (list Z)) : E unit :=
  if String.eqb format_type "JPEG" then
    let! rgb_image := lift (convert image "RGB") in
    let! save_path := of_option (with_suffix output_path ".jpg") "empty name" in
    let! rgb := lift (deref rgb_image) in
    match exif_data with
    | Some _ => write_file save_path (Saved "JPEG" rgb exif_data)
    | None => save_without_exif save_path
    end
  else if String.eqb format_type "WEBP" then
    let! save_path := of_option (with_suffix output_path ".webp") "empty name" in
    let! im := lift (deref image) in
    write_file save_path (Saved "WEBP" im None)
  else
    let! save_path := of_option (with_suffix output_path ".png") "empty name" in
    let! im := lift (deref image) in
    write_file save_path (Saved "PNG" im None).

(** [path.mkdir(parents=True, exist_ok=True)]: the directory and its
    missing ancestors; a file in the way is an error. *)
Fixpoint mkdir_from (a : string) (done todo : list string)
    (files : gmap Path Node) : option (gmap Path Node) :=
  match todo with
  | [] => Some files
  | n :: rest =>
      let p := mkPath a (done ++ [n]) in
      match files !! p with
      | Some (RegularFile _) => None
      | Some Directory => mkdir_from a (done ++ [n]) rest files
      | None => mkdir_from a (done ++ [n]) rest (<[p := Directory]> files)
      end
  end.

Definition mkdir_parents (p : Path) : E unit :=
  fun s => match mkdir_from (anchor p) [] (names p) (fs s) with
           | Some files' => (inr tt, mkPState files' (objs s))
           | None => (inl "File exists", s)
           end.

(** The settings dictionary of a batch, with the two format names already
    looked up in [FORMAT_OPTIONS] and [EXTRA_FORMAT_OPTIONS]. *)
Record Settings := mkSettings {
  s_anchor : string;
  s_opacity : Z;
  s_margin : Z;
  s_scale : Z;
  s_max_size : Z;
  s_auto_scale : bool;
  s_dry_run : bool;
  s_overwrite_mode : string;
  main_format : option string;
  extra_format : option string
}.

(** One row of the processing log. *)
Record ProcessingResult := mkResult {
  timestamp : string;
  source_file : string;
  output_file : string;
  status : string;
  error : string
}.

(** The block under [if not settings['dry_run']]: conflict check, then
    the saves or the placeholder.  Returns [saved_files]. *)
Definition save_outputs (settings : Settings) (file_path output_path : Path)
    (watermarked : ref) (exif_data : option (list Z)) : E (list string) :=
  let! _ := mkdir_parents (parent output_path) in
  let! exists_ :=
    (fun s => (inr (_check_file_exists (fs s) output_path
                      (main_format settings) (extra_format settings)), s)) in
  let should_process :=
    negb (exists_ && String.eqb (s_overwrite_mode settings) "skip") in
  if should_process then
    let! saved_files :=
      (if truthy (main_format settings) then
         let! _ := save_image watermarked output_path
                     (default "" (main_format settings)) exif_data in
         eret [(str output_path ++ "." ++ fmt_lower (main_format settings))%string]
       else
         let original_format := drop_first (upper (suffix file_path)) in
         let original_format :=
           if String.eqb original_format "JPG" then "JPEG" else original_format in
         let! _ := save_image watermarked output_path original_format exif_data in
         let! p := of_option (with_suffix output_path (suffix file_path))
                             "invalid suffix" in
         eret [str p]) in
    if truthy (extra_format settings)
       && negb (bool_decide (extra_format settings = main_format settings))
    then
      let! _ := save_image watermarked output_path
                  (default "" (extra_format settings)) exif_data in
      eret (saved_files ++
            [(str output_path ++ "." ++ fmt_lower (extra_format settings))%string])
    else eret saved_files
  else eret ["SKIPPED - File exists"].

(** The [try] block of [process_single_file].  Returns [saved_files]. *)
Definition process_body (settings : Settings) (input_dir output_dir : Path)
    (watermark : ref) (file_path : Path) : E (list string) :=
  let! image := open_image file_path in
  let! im := lift (deref image) in
  let exif_data := exif im in
  let! image :=
    (if (width im >? s_max_size settings) || (height im >? s_max_size settings)
     then lift (resize_maintain_aspect image (s_max_size settings))
     else eret image) in
  let! im := lift (deref image) in
  let target_width :=
    batch_target_width (size im) (s_scale settings) (s_auto_scale settings) in
  let! watermarked :=
    lift (apply_watermark image watermark (s_anchor settings)
            (s_opacity settings) (s_margin settings) target_width) in
  let! relative_path := of_option (relative_to file_path input_dir)
                                  "path is not in the subpath" in
  let! stem := of_option (with_suffix relative_path "") "empty name" in
  let output_path := joinpath output_dir stem in
  if negb (s_dry_run settings) then
    save_outputs settings file_path output_path watermarked exif_data
  else eret [].

(** [process_single_file(file_path)]: the result row, [now] being the
    time stamp taken when the row is built. *)
Definition process_single_file (settings : Settings)
    (input_dir output_dir : Path) (watermark : ref) (now : string)
    (file_path : Path) (s : PState) : ProcessingResult * PState :=
  match process_body settings input_dir output_dir watermark file_path s with
  | (inr saved_files, s') =>
      (mkResult now (str file_path)
         (match saved_files with [] => "DRY RUN" | _ => join "; " saved_files end)
         "SUCCESS" "", s')
  | (inl error_msg, s') =>
      (mkResult now (str file_path) "" "ERROR" error_msg, s')
  end.

End Processing.

(* ===================================================================== *)
(** * _process_images: submission and collection of results *)
(* ===================================================================== *)

Section Scheduler.

(** The row a task returns for a file.  [process_single_file] catches every
    exception, so [future.result()] always yields a row. *)
Variable task : Path -> ProcessingResult.

(** [future_to_file]: every file is submitted to the pool before the first
    result is looked at; future [i] belongs to file [i]. *)
Definition submit_all (files : list Path) : list (nat * Path) :=
  imap (fun i file => (i, file)) files.

(** [cf.as_completed(future_to_file)]: the submitted futures in the order
    in which they finish, [completion] being that order. *)
Definition as_completed (future_to_file : list (nat * Path))
    (completion : list nat) : list Path :=
  omap (fun i => snd <$> future_to_file !! i) completion.

(** The collection loop.  [stop_set i] is what [stop_event.is_set()]
    answers at iteration [i]. *)
Fixpoint collect (stop_set : nat -> bool) (i : nat) (finished : list Path)
    (results : list ProcessingResult) (processed_count : nat)
    : list ProcessingResult * nat :=
  match finished with
  | [] => (results, processed_count)
  | file :: rest =>
      if stop_set i then (results, processed_count)
      else collect stop_set (S i) rest (results ++ [task file])
                   (S processed_count)
  end.

(** The pool part of [_process_images]: the files handed to the pool and
    the rows collected. *)
Definition run_pool (files : list Path) (completion : list nat)
    (stop_set : nat -> bool) : list Path * (list ProcessingResult * nat) :=
  let future_to_file := submit_all files in
  (map snd future_to_file,
   collect stop_set 0 (as_completed future_to_file completion) [] 0%nat).

End Scheduler.

(** The first iteration at which the stop flag is seen set, if any, among
    the first [n]. *)
Fixpoint first_stop (stop_set : nat -> bool) (i n : nat) : nat :=
  match n with
  | O => O
  | S n' => if stop_set i then O else S (first_stop stop_set (S i) n')
  end.

(* ===================================================================== *)
(** * The position grid of the window *)
(* ===================================================================== *)

(** [ANCHOR_POSITIONS]: the code of each cell (row, column) of the 3x3
    position grid. *)
Definition ANCHOR_POSITIONS : list ((nat * nat) * string) :=
  [((0, 0), "TL"); ((0, 1), "TC"); ((0, 2), "TR");
   ((1, 0), "CL"); ((1, 1), "CC"); ((1, 2), "CR");
   ((2, 0), "BL"); ((2, 1), "BC"); ((2, 2), "BR")]%nat.

(** Where a grid cell puts the watermark along one axis: at the margin
    from the near edge, centred, or at the margin from the far edge. *)
Definition cell_offset (index : nat) (margin base_len wm_len : Z) : Z :=
  match index with
  | 0%nat => margin
  | 1%nat => (base_len - wm_len) / 2
  | _ => base_len - wm_len - margin
  end.

(* ===================================================================== *)
(** * What a file task may touch *)
(* ===================================================================== *)

(** [files'] differs from [files] only at paths of [zone], apart from
    directories that were missing and have been made. *)
Definition confined (zone : Path -> Prop) (files files' : gmap Path Node) : Prop :=
  forall p, ~ zone p ->
    (forall n, files !! p = Some n -> files' !! p = Some n)
    /\ (forall d, files' !! p = Some (RegularFile d) ->
                  files !! p = Some (RegularFile d)).

Definition frames {A} (zone : Path -> Prop) (m : E A) : Prop :=
  forall s, confined zone (fs s) (fs (snd (m s))).

(** A computation that leaves the file system as it is. *)
Definition reads_only {A} (m : E A) : Prop :=
  forall s, fs (snd (m s)) = fs s.

(* ===================================================================== *)
(** * WatermarkGenieCLI.run: one turn of the loop *)
(* ===================================================================== *)

(** The parsed command line, with [args.fmt] and [args.extra] already
    looked up in [FORMAT_OPTIONS] and [EXTRA_FORMAT_OPTIONS]. *)
Record Args := mkArgs {
  a_anchor : string;
  a_opacity : Z;
  a_margin : Z;
  a_scale : Z;
  a_size : Z;
  a_auto : bool;
  a_dry : bool;
  a_main_format : option string;
  a_extra_format : option string
}.

Section CommandLine.
Context `{Pixels} `{Codec}.

(** The saves under [if not args.dry] in the loop of
    [WatermarkGenieCLI.run]. *)
Definition cli_save (args : Args) (file_path output_path : Path)
    (watermarked : ref) (exif_data : option (list Z)) : E unit :=
  let! _ :=
    (if truthy (a_main_format args) then
       save_image watermarked output_path
         (default "" (a_main_format args)) exif_data
     else
       let original_format := drop_first (upper (suffix file_path)) in
       let original_format :=
         if String.eqb original_format "JPG" then "JPEG" else original_format in
       save_image watermarked output_path original_format exif_data) in
  if truthy (a_extra_format args)
     && negb (bool_decide (a_extra_format args = a_main_format args))
  then save_image watermarked output_path
         (default "" (a_extra_format args)) exif_data
  else eret tt.

(** The [try] block of the loop in [WatermarkGenieCLI.run], up to the
    row.  Returns [output_path]. *)
Definition cli_body (args : Args) (input_dir output_dir : Path)
    (watermark : ref) (file_path : Path) : E Path :=
  let! image := open_image file_path in
  let! im := lift (deref image) in
  let exif_data := exif im in
  let! image :=
    (if (width im >? a_size args) || (height im >? a_size args)
     then lift (resize_maintain_aspect image (a_size args))
     else eret image) in
  let! im := lift (deref image) in
  let target_width :=
    cli_target_width (size im) (a_scale args) (a_auto args) in
  let! watermarked :=
    lift (apply_watermark image watermark (a_anchor args)
            (a_opacity args) (a_margin args) target_width) in
  let! relative_path := of_option (relative_to file_path input_dir)
                                  "path is not in the subpath" in
  let! stem := of_option (with_suffix relative_path "") "empty name" in
  let output_path := joinpath output_dir stem in
  let! _ := mkdir_parents (parent output_path) in
  let! _ :=
    (if negb (a_dry args)
     then cli_save args file_path output_path watermarked exif_data
     else eret tt) in
  eret output_path.

(** One turn of the loop: the row appended to [results]. *)
Definition cli_process_file (args : Args) (input_dir output_dir : Path)
    (watermark : ref) (now : string) (file_path : Path) (s : PState)
    : ProcessingResult * PState :=
  match cli_body args input_dir output_dir watermark file_path s with
  | (inr output_path, s') =>
      (mkResult now (str file_path)
         (if negb (a_dry args) then str output_path else "DRY RUN")
         "SUCCESS" "", s')
  | (inl e, s') =>
      (mkResult now (str file_path) "" "ERROR" e, s')
  end.

End CommandLine.

(** The settings dictionary that carries the choices of a command line,
    for a given conflict mode. *)
Definition as_settings (args : Args) (overwrite_mode : string) : Settings :=
  mkSettings (a_anchor args) (a_opacity args) (a_margin args) (a_scale args)
             (a_size args) (a_auto args) (a_dry args) overwrite_mode
             (a_main_format args) (a_extra_format args).

(** Two computations that fail together, with the same message, and leave
    the same state. *)
Definition same_effect {A B} (m1 : E A) (m2 : E B) : Prop :=
  forall s,
    match m1 s, m2 s with
    | (inl e1, s1), (inl e2, s2) => e1 = e2 /\ s1 = s2
    | (inr _, s1), (inr _, s2) => s1 = s2
    | _, _ => False
    end.

(* ===================================================================== *)
(** * The preview: selection and navigation *)
(* ===================================================================== *)

(** The loop of [_update_preview] over the first images: [sizes] is what
    [Image.open] reports for a file, [None] when it raises.  Returns
    [(portrait_images, landscape_images)]. *)
Fixpoint categorize (sizes : Path -> option (Z * Z)) (l : list Path)
    (portrait_images landscape_images : list Path) : list Path * list Path :=
  match l with
  | [] => (portrait_images, landscape_images)
  | img_path :: rest =>
      match sizes img_path with
      | Some (w, h) =>
          let portrait' :=
            if h >? w then portrait_images ++ [img_path] else portrait_images in
          let landscape' :=
            if h >? w then landscape_images else landscape_images ++ [img_path] in
          if (3 <=? length portrait')%nat && (3 <=? length landscape')%nat
          then (portrait', landscape')
          else categorize sizes rest portrait' landscape'
      | None => categorize sizes rest portrait_images landscape_images
      end
  end.

(** The selection before the last fallback of [_update_preview]. *)
Definition balanced_selection (sizes : Path -> option (Z * Z))
    (images : list Path) : list Path :=
  let (portrait_images, landscape_images) :=
    categorize sizes (take 12 images) [] [] in
  let selected_images := take 3 landscape_images ++ take 3 portrait_images in
  if (length selected_images <? 6)%nat then
    let remaining_images :=
      filter (fun img => img ∉ selected_images) (take 12 images) in
    selected_images ++ take (6 - length selected_images) remaining_images
  else selected_images.

(** [selected_images] at the end of [_update_preview]. *)
Definition select_preview (sizes : Path -> option (Z * Z))
    (images : list Path) : list Path :=
  match balanced_selection sizes images with
  | [] => take 6 images
  | selected_images => selected_images
  end.

(** The preview state of the window. *)
Record Preview := mkPreview {
  preview_images : list Path;
  current_preview_index : Z
}.

(** [_update_preview] once the paths are accepted and the images found:
    with no image the preview is cleared and the state is kept. *)
Definition show_selection (sizes : Path -> option (Z * Z))
    (images : list Path) (st : Preview) : Preview :=
  match images with
  | [] => st
  | _ => mkPreview (select_preview sizes images) 0
  end.

(** [_prev_preview] *)
Definition _prev_preview (st : Preview) : Preview :=
  if current_preview_index st >? 0
  then mkPreview (preview_images st) (current_preview_index st - 1)
  else st.

(** [_next_preview] *)
Definition _next_preview (st : Preview) : Preview :=
  if current_preview_index st <? Z.of_nat (length (preview_images st)) - 1
  then mkPreview (preview_images st) (current_preview_index st + 1)
  else st.

(** What the user does to the preview. *)
Inductive PreviewEvent :=
  | Refresh (sizes : Path -> option (Z * Z)) (images : list Path)
  | Prev
  | Next.

Definition handle (st : Preview) (ev : PreviewEvent) : Preview :=
  match ev with
  | Refresh sizes images => show_selection sizes images st
  | Prev => _prev_preview st
  | Next => _next_preview st
  end.

(** The state set in [WatermarkGenieGUI.__init__]. *)
Definition initial_preview : Preview := mkPreview [] 0.

(** The index names an image of the list whenever there is one. *)
Definition in_range (st : Preview) : Prop :=
  0 <= current_preview_index st
  /\ (preview_images st <> [] ->
      current_preview_index st < Z.of_nat (length (preview_images st))).

(* ===================================================================== *)
(** * Settings and the variables of the window *)
(* ===================================================================== *)

(** What a control of the window holds. *)
Inductive Value :=
  | VStr (s : string)
  | VInt (n : Z)
  | VBool (b : bool).

(** [DEFAULT_SETTINGS], in the order of the dictionary. *)
Definition DEFAULT_SETTINGS : list (string * Value) :=
  [("anchor", VStr "BR"); ("opacity", VInt 80); ("margin", VInt 25);
   ("scale", VInt 30); ("max_size", VInt 1000);
   ("format", VStr "Same as source"); ("extra_format", VStr "None");
   ("auto_scale", VBool false); ("dry_run", VBool false);
   ("create_zip", VBool false)].

(** [self.vars]: the variable behind each control, as the value it
    holds. *)
Abbreviation Vars := (gmap string Value).

(** [self.vars[name].set(value)]; [None] is the [KeyError]. *)
Definition set_var (name : string) (value : Value) (vars : Vars) : option Vars :=
  match vars !! name with
  | Some _ => Some (<[name := value]> vars)
  | None => None
  end.

(** [_get_current_settings]; [None] is the [KeyError]. *)
Definition _get_current_settings (vars : Vars) : option (list (string * Value)) :=
  anchor ← vars !! "anchor";
  opacity ← vars !! "opacity";
  margin ← vars !! "margin";
  scale ← vars !! "scale";
  max_size ← vars !! "max_size";
  format ← vars !! "format";
  extra_format ← vars !! "extra_format";
  auto_scale ← vars !! "auto_scale";
  dry_run ← vars !! "dry_run";
  create_zip ← vars !! "create_zip";
  Some [("anchor", anchor); ("opacity", opacity); ("margin", margin);
        ("scale", scale); ("max_size", max_size); ("format", format);
        ("extra_format", extra_format); ("auto_scale", auto_scale);
        ("dry_run", dry_run); ("create_zip", create_zip)].

(** The loop [for key, value in settings.items(): if key in self.vars:
    self.vars[key].set(value)] of [_apply_settings] and
    [clear_all_fields], on the variables; the refresh of the preview that
    follows it in [_apply_settings] is [show_selection]. *)
Definition _apply_settings (settings : list (string * Value)) (vars : Vars) : Vars :=
  fold_left (fun vars kv =>
               match vars !! kv.1 with
               | Some _ => <[kv.1 := kv.2]> vars
               | None => vars
               end) settings vars.

(** [clear_all_fields], on the variables. *)
Definition clear_all_fields (vars : Vars) : option Vars :=
  vars ← set_var "input_dir" (VStr "") vars;
  vars ← set_var "output_dir" (VStr "") vars;
  vars ← set_var "watermark_file" (VStr "") vars;
  Some (_apply_settings DEFAULT_SETTINGS vars).

(** [_setup_variables]: a variable for each control, then the defaults. *)
Definition _setup_variables : Vars :=
  let string_vars := ["input_dir"; "output_dir"; "watermark_file"; "anchor";
                      "format"; "extra_format"] in
  let int_vars := ["opacity"; "margin"; "scale"; "max_size"] in
  let bool_vars := ["auto_scale"; "dry_run"; "dark_theme"; "create_zip";
                    "include_subfolders"] in
  let vars : Vars := list_to_map (map (fun name => (name, VStr "")) string_vars) in
  let vars : Vars := list_to_map (map (fun name => (name, VInt 0)) int_vars) ∪ vars in
  let vars : Vars := list_to_map (map (fun name => (name, VBool false)) bool_vars) ∪ vars in
  let vars :=
    fold_left (fun vars key =>
                 match (list_to_map DEFAULT_SETTINGS : Vars) !! key with
                 | Some value => <[key := value]> vars
                 | None => vars
                 end)
              ["anchor"; "format"; "extra_format"; "opacity"; "margin"; "scale";
               "max_size"; "auto_scale"; "dry_run"; "create_zip"] vars in
  <["include_subfolders" := VBool true]> vars.

(* ===================================================================== *)
(** * A pixel backend to run the model *)
(* ===================================================================== *)

(** Nearest-neighbour resampling and integer alpha blending: enough to
    evaluate the model on small images.  Nothing below depends on it
    except the evaluations at concrete inputs. *)
Module Reference.

Definition sample (b : list Z) (w : Z) (x y : Z) : Z :=
  nth (Z.to_nat (y * w + x)) b 0.

Definition grid (sz : Z * Z) : list (Z * Z) :=
  let (w, h) := sz in
  flat_map (fun y => map (fun x => (Z.of_nat x, Z.of_nat y)) (seq 0 (Z.to_nat w)))
           (seq 0 (Z.to_nat h)).

Definition nearest (new_size : Z * Z) (im : Image) : list (list Z) :=
  let (w, h) := size im in
  let (nw, nh) := new_size in
  map (fun b => map (fun '(x, y) => sample b w (x * w / nw) (y * h / nh))
                    (grid new_size))
      (bands im).

(** Band [i], or the first band for a grey image. *)
Definition colour_band (im : Image) (i : nat) : list Z :=
  default (default [] (bands im !! 0%nat)) (bands im !! i).

Definition to_mode (m : string) (im : Image) : list (list Z) :=
  if String.eqb m "RGBA" then
    [colour_band im 0; colour_band im 1; colour_band im 2;
     default (map (fun _ => 255) (grid (size im))) (bands im !! 3%nat)]
  else if String.eqb m "RGB" then
    [colour_band im 0; colour_band im 1; colour_band im 2]
  else bands im.

Definition blend (target im : Image) (box : Z * Z) (mask : Image)
    : list (list Z) :=
  let (tw, _) := size target in
  let (iw, ih) := size im in
  let (bx, by_) := box in
  let alpha := default [] (bands mask !! 3%nat) in
  imap (fun c tb =>
          let sb := default [] (bands im !! c) in
          map (fun '(x, y) =>
                 let dst := sample tb tw x y in
                 let sx := x - bx in
                 let sy := y - by_ in
                 if (0 <=? sx) && (sx <? iw) && (0 <=? sy) && (sy <? ih) then
                   let a := sample alpha iw sx sy in
                   (sample sb iw sx sy * a + dst * (255 - a)) / 255
                 else dst)
              (grid (size target)))
       (bands target).

#[export, refine] Instance pixels : Pixels := {
  pil_convert := to_mode;
  pil_lanczos := nearest;
  pil_paste := blend
}.
Proof.
  - intros im. reflexivity.
  - intros [nw nh] im. unfold nearest. destruct (size im). apply length_map.
Defined.

(** A file written by the model decodes to the image saved in it; other
    bytes do not decode. *)
#[export] Instance codec : Codec := {
  pil_open data :=
    match data with
    | Saved _ im _ => Some im
    | Bytes _ => None
    end
}.

End Reference.

(* ===================================================================== *)
(** * Sample images *)
(* ===================================================================== *)

Module Samples.

(** A 3x2 RGB photograph. *)
Definition photo : Image :=
  mkImage "RGB" (3, 2)
    [[10; 20; 30; 40; 50; 60]; [11; 21; 31; 41; 51; 61]; [12; 22; 32; 42; 52; 62]]
    None.

(** A 2x1 RGBA logo: one opaque pixel, one half-transparent. *)
Definition logo : Image :=
  mkImage "RGBA" (2, 1) [[200; 100]; [0; 0]; [0; 0]; [255; 128]] None.

(** The same logo with its alpha halved, and halved again. *)
Definition logo_faded_once : Image :=
  mkImage "RGBA" (2, 1) [[200; 100]; [0; 0]; [0; 0]; [127; 64]] None.

Definition logo_faded_twice : Image :=
  mkImage "RGBA" (2, 1) [[200; 100]; [0; 0]; [0; 0]; [63; 32]] None.

(** A 40x2 RGBA logo, wider than the 30-pixel floor. *)
Definition banner : Image :=
  mkImage "RGBA" (40, 2)
    [repeat 200 80; repeat 0 80; repeat 0 80; repeat 255 80] None.

(** A 1000x500 image without pixel data. *)
Definition wide : Image := mkImage "RGB" (1000, 500) [[]; []; []] None.

(** A 1000x1 image without pixel data, and a 100x1 RGBA ribbon. *)
Definition thin : Image := mkImage "RGB" (1000, 1) [[]; []; []] None.

Definition ribbon : Image :=
  mkImage "RGBA" (100, 1)
    [repeat 200 100; repeat 0 100; repeat 0 100; repeat 255 100] None.

(** The photograph as a camera stores it, with EXIF data. *)
Definition snapshot : Image :=
  mkImage "RGB" (3, 2)
    [[10; 20; 30; 40; 50; 60]; [11; 21; 31; 41; 51; 61]; [12; 22; 32; 42; 52; 62]]
    (Some [69; 120; 105; 102; 0; 0]).

End Samples.

(* ===================================================================== *)
(** * Sample paths, directories and runs *)
(* ===================================================================== *)

Module SamplePaths.
Definition photos : Path := mkPath "" ["photos"].
Definition out : Path := mkPath "" ["out"].
Definition logo_png : Path := mkPath "" ["assets"; "logo.PNG"].
Definition logo_webp : Path := mkPath "" ["assets"; "logo.webp"].

(** A tree with the input directory and two watermark files. *)
Definition tree : gmap Path Node :=
  {[ photos := Directory;
     logo_png := RegularFile (Bytes [137; 80; 78; 71]);
     logo_webp := RegularFile (Bytes [82; 73; 70; 70]) ]}.

(** The same tree without the input directory. *)
Definition tree_without_input : gmap Path Node :=
  {[ logo_png := RegularFile (Bytes [137; 80; 78; 71]);
     logo_webp := RegularFile (Bytes [82; 73; 70; 70]) ]}.



End SamplePaths.

Module SampleDirectories.
(** [n] decodable PNG files, direct children of [photos]. *)
Definition numbered (n : nat) : list DirEntry :=
  map (fun i => mkEntry (mkPath "" ["photos"; ("img" ++ pretty i ++ ".png")%string])
                        true true)
      (seq 0 n).

Definition crowded : DirectoryView :=
  mkDirectory (mkPath "" ["photos"]) true (numbered 5001) (numbered 5001).

(** Two good files, a corrupt JPEG, an animated GIF, notes and a folder. *)
Definition mixed : DirectoryView :=
  let entries :=
    [ mkEntry (mkPath "" ["photos"; "a.jpg"]) true true;
      mkEntry (mkPath "" ["photos"; "broken.JPG"]) true false;
      mkEntry (mkPath "" ["photos"; "anim.gif"]) true false;
      mkEntry (mkPath "" ["photos"; "notes.txt"]) true false;
      mkEntry (mkPath "" ["photos"; "sub.png"]) false false;
      mkEntry (mkPath "" ["photos"; "b.webp"]) true true ] in
  mkDirectory (mkPath "" ["photos"]) true entries entries.
End SampleDirectories.

Module SampleRun.
Definition a_jpg : Path := mkPath "" ["photos"; "a.jpg"].
Definition b_jpg : Path := mkPath "" ["photos"; "b.jpg"].

(** A task that always succeeds. *)
Definition succeed (file : Path) : ProcessingResult :=
  mkResult "2025-07-15T10:00:00" (str file) (str file) "SUCCESS" "".

(** The flag is seen set from the second look on. *)
Definition cancelled_after_one (i : nat) : bool := (1 <=? i)%nat.
Definition never_cancelled (_ : nat) : bool := false.
End SampleRun.

Module SampleBatch.
Import Samples.
Definition photos : Path := mkPath "" ["photos"].
Definition out : Path := mkPath "" ["out"].
Definition a_png : Path := mkPath "" ["photos"; "a.png"].
Definition a_jpg : Path := mkPath "" ["photos"; "a.jpg"].
Definition out_a_jpg : Path := mkPath "" ["out"; "a.jpg"].
Definition out_a_png : Path := mkPath "" ["out"; "a.png"].

(** The same photograph twice, as a PNG file without EXIF data and as a
    JPEG file with it.  An earlier run left [out/a.jpg] and
    [out/a.png]. *)
Definition earlier_jpg : FileData := Bytes [255; 216; 255; 224].
Definition earlier_png : FileData := Bytes [137; 80; 78; 71].

Definition disk : gmap Path Node :=
  {[ photos := Directory;
     a_png := RegularFile (Saved "PNG" photo None);
     a_jpg := RegularFile (Saved "JPEG" snapshot (exif snapshot));
     out := Directory;
     out_a_jpg := RegularFile earlier_jpg;
     out_a_png := RegularFile earlier_png ]}.

(** One task state: the disk, and the shared watermark as object 0. *)
Definition before : PState := mkPState disk [logo].

Definition skip_to (fmt : string) : Settings :=
  mkSettings "BR" 100 0 30 1000 false false "skip" (Some fmt) None.
End SampleBatch.

Module SampleSession.
(** A rehearsal of the batch in the window, the same on the command line,
    and a command line that saves PNG files. *)
Definition rehearsal : Settings :=
  mkSettings "BR" 100 0 30 1000 false true "skip" (Some "PNG") None.
Definition rehearsal_args : Args :=
  mkArgs "BR" 100 0 30 1000 false true (Some "PNG") None.
Definition png_args : Args :=
  mkArgs "BR" 100 0 30 1000 false false (Some "PNG") None.

(** Every file opens as a 3x2 image. *)
Definition all_landscape (_ : Path) : option (Z * Z) := Some (3, 2).
End SampleSession.

(* ===================================================================== *)
(** * Facts on rounding and truncation *)
(* ===================================================================== *)

Module PyFloatFacts.
Import PyFloat.
#[local] Open Scope Q_scope.

Lemma Zle_Q (a b : Z) : (a <= b)%Z -> inject_Z a <= inject_Z b.
Proof. now rewrite Zle_Qle. Qed.

Lemma Zlt_Q (a b : Z) : (a < b)%Z -> inject_Z a < inject_Z b.
Proof. now rewrite Zlt_Qlt. Qed.

Lemma Qfloor_unique (q : Q) (k : Z) :
  inject_Z k <= q -> q < inject_Z (k + 1) -> Qfloor q = k.
Proof.
  intros Hlo Hhi.
  pose proof (Qfloor_le q) as H1. pose proof (Qlt_floor q) as H2.
  assert (inject_Z (Qfloor q) < inject_Z (k + 1)) as A by (eapply Qle_lt_trans; eauto).
  assert (inject_Z k < inject_Z (Qfloor q + 1)) as B by (eapply Qle_lt_trans; eauto).
  rewrite <- Zlt_Qlt in A, B. lia.
Qed.

Lemma py_int_nonneg (q : Q) : 0 <= q -> py_int q = Qfloor q.
Proof.
  intros H. unfold py_int. apply Qle_bool_iff in H. now rewrite H.
Qed.

Lemma py_int_unique (q : Q) (k : Z) :
  (0 <= k)%Z -> inject_Z k <= q -> q < inject_Z (k + 1) -> py_int q = k.
Proof.
  intros Hk Hlo Hhi. rewrite py_int_nonneg.
  - now apply Qfloor_unique.
  - eapply Qle_trans; [|exact Hlo]. now apply (Zle_Q 0 k).
Qed.

Lemma py_round_near (q : Q) :
  inject_Z (py_round q) - (1 # 2) <= q /\ q <= inject_Z (py_round q) + (1 # 2).
Proof.
  unfold py_round.
  pose proof (Qfloor_le q) as H1. pose proof (Qlt_floor q) as H2.
  rewrite inject_Z_plus in H2. change (inject_Z 1) with 1 in H2.
  destruct (Qcompare_spec (q - inject_Z (Qfloor q)) (1 # 2)) as [E|E|E].
  - destruct (Z.even (Qfloor q)); rewrite ?inject_Z_plus;
      change (inject_Z 1) with 1; lra.
  - lra.
  - rewrite inject_Z_plus. change (inject_Z 1) with 1. lra.
Qed.

Lemma py_round_Z (q : Q) (k : Z) : q == inject_Z k -> py_round q = k.
Proof.
  intros E. unfold py_round.
  assert (Qfloor q = k) as ->.
  { apply Qfloor_unique; rewrite E, ?inject_Z_plus; change (inject_Z 1) with 1; lra. }
  destruct (Qcompare_spec (q - inject_Z k) (1 # 2)) as [E'|E'|E']; try lra.
  reflexivity.
Qed.

Lemma pow2_pos (e : Z) : 0 < 2 ^ e.
Proof. apply Qpower_0_lt. reflexivity. Qed.

Lemma pow2_Z (n : Z) : (0 <= n)%Z -> inject_Z (2 ^ n) == 2 ^ n.
Proof. intros H. now rewrite Zpower_Qpower. Qed.

Lemma pow2_sub (a b : Z) : 2 ^ (a - b) == 2 ^ a / 2 ^ b.
Proof. apply Qpower_minus. discriminate. Qed.

Lemma pow2_le (a b : Z) : (a <= b)%Z -> 2 ^ a <= 2 ^ b.
Proof. intros H. apply Qpower_le_compat_l; [exact H | discriminate]. Qed.

(** The binade is a lower bound: [2 ^ binade x <= x]. *)
Lemma binade_le (x : Q) : 0 < x -> 2 ^ binade x <= x.
Proof.
  intros Hx. unfold binade.
  destruct (Qle_bool _ x) eqn:E.
  - now apply Qle_bool_iff.
  - destruct x as [n d]. cbn [Qnum Qden] in *.
    assert (0 < n)%Z as Hn by (unfold Qlt in Hx; cbn in Hx; lia).
    pose proof (Z.log2_spec n Hn) as [Ln _].
    pose proof (Z.log2_spec (Zpos d) (Pos2Z.is_pos d)) as [_ Ld].
    pose proof (Z.log2_nonneg n) as Nn.
    pose proof (Z.log2_nonneg (Zpos d)) as Nd.
    replace (Z.log2 n - Z.log2 (Z.pos d) - 1)%Z
      with (Z.log2 n - Z.succ (Z.log2 (Z.pos d)))%Z by lia.
    rewrite pow2_sub, <- !pow2_Z by lia.
    rewrite (Qmake_Qdiv n d).
    pose proof (Zle_Q _ _ Ln) as Qn.
    pose proof (Zlt_Q _ _ Ld) as Qd.
    pose proof (Zlt_Q 0 (Z.pos d) (Pos2Z.is_pos d)) as Pd.
    pose proof (Zlt_Q 0 (2 ^ Z.log2 n) ltac:(lia)) as Pn.
    set (N := inject_Z n) in *. set (D := inject_Z (Z.pos d)) in *.
    set (A := inject_Z (2 ^ Z.log2 n)) in *.
    set (B := inject_Z (2 ^ Z.succ (Z.log2 (Z.pos d)))) in *.
    change (inject_Z 0) with 0 in *.
    apply Qle_shift_div_l; [lra|].
    assert (A / B * D == A * D / B) as -> by (field; lra).
    apply Qle_shift_div_r; [lra|].
    nra.
Qed.
(** The binade is tight: [x < 2 ^ (binade x + 1)]. *)
Lemma binade_lt (x : Q) : 0 < x -> x < 2 ^ (binade x + 1).
Proof.
  intros Hx. unfold binade.
  destruct (Qle_bool _ x) eqn:E.
  - destruct x as [n d]. cbn [Qnum Qden] in *.
    assert (0 < n)%Z as Hn by (unfold Qlt in Hx; cbn in Hx; lia).
    pose proof (Z.log2_spec n Hn) as [_ Ln].
    pose proof (Z.log2_spec (Zpos d) (Pos2Z.is_pos d)) as [Ld _].
    pose proof (Z.log2_nonneg n) as Nn.
    pose proof (Z.log2_nonneg (Zpos d)) as Nd.
    replace (Z.log2 n - Z.log2 (Z.pos d) + 1)%Z
      with (Z.succ (Z.log2 n) - Z.log2 (Z.pos d))%Z by lia.
    rewrite pow2_sub, <- !pow2_Z by lia.
    rewrite (Qmake_Qdiv n d).
    pose proof (Zlt_Q _ _ Ln) as Qn.
    pose proof (Zle_Q _ _ Ld) as Qd.
    pose proof (Zlt_Q 0 (Z.pos d) (Pos2Z.is_pos d)) as Pd.
    pose proof (Zlt_Q 0 (2 ^ Z.log2 (Z.pos d)) ltac:(lia)) as Pb.
    pose proof (Zlt_Q 0 n Hn) as Pn.
    set (N := inject_Z n) in *. set (D := inject_Z (Z.pos d)) in *.
    set (A := inject_Z (2 ^ Z.succ (Z.log2 n))) in *.
    set (B := inject_Z (2 ^ Z.log2 (Z.pos d))) in *.
    change (inject_Z 0) with 0 in *.
    apply Qlt_shift_div_r; [lra|].
    assert (A / B * D == A * D / B) as -> by (field; lra).
    apply Qlt_shift_div_l; [lra|].
    nra.
  - replace (Z.log2 (Qnum x) - Z.log2 (Z.pos (Qden x)) - 1 + 1)%Z
      with (Z.log2 (Qnum x) - Z.log2 (Z.pos (Qden x)))%Z by lia.
    apply Qnot_le_lt. intros C. apply Qle_bool_iff in C. congruence.
Qed.

(** The significand chosen by [round_pos] has 53 bits. *)
Lemma round_pos_significand (x : Q) :
  0 < x ->
  (2 ^ 52 <= py_round (x / 2 ^ (binade x - 52)) <= 2 ^ 53)%Z.
Proof.
  intros Hx.
  pose proof (binade_le x Hx) as Hlo. pose proof (binade_lt x Hx) as Hhi.
  set (e := (binade x - 52)%Z).
  pose proof (pow2_pos e) as HP.
  assert (2 ^ binade x == 2 ^ e * inject_Z (2 ^ 52)) as E1.
  { unfold e. rewrite pow2_sub, pow2_Z by lia. now field. }
  assert (2 ^ (binade x + 1) == 2 ^ e * inject_Z (2 ^ 53)) as E2.
  { replace (binade x + 1)%Z with (e + 53)%Z by (unfold e; lia).
    rewrite Qpower_plus by discriminate. now rewrite pow2_Z by lia. }
  rewrite E1 in Hlo. rewrite E2 in Hhi.
  set (P := 2 ^ e) in *.
  assert (x / P * P == x) as Hy by (field; lra).
  set (y := x / P) in *.
  change (inject_Z (2 ^ 52)) with (4503599627370496 # 1) in *.
  change (inject_Z (2 ^ 53)) with (9007199254740992 # 1) in *.
  assert (4503599627370496 # 1 <= y) as Y1 by nra.
  assert (y < 9007199254740992 # 1) as Y2 by nra.
  pose proof (py_round_near y) as [R1 R2].
  assert (inject_Z (2 ^ 52 - 1) < inject_Z (py_round y)) as A.
  { change (inject_Z (2 ^ 52 - 1)) with (4503599627370495 # 1). lra. }
  assert (inject_Z (py_round y) < inject_Z (2 ^ 53 + 1)) as B.
  { change (inject_Z (2 ^ 53 + 1)) with (9007199254740993 # 1). lra. }
  rewrite <- Zlt_Qlt in A, B. lia.
Qed.

(** Standard model of rounding: the relative error is at most [u]. *)
Lemma round_pos_err (x : Q) :
  0 < x -> x * (1 - u) <= round_pos x /\ round_pos x <= x * (1 + u).
Proof.
  intros Hx. unfold round_pos.
  pose proof (binade_le x Hx) as Hb.
  set (e := (binade x - 52)%Z).
  pose proof (pow2_pos e) as HP.
  assert (2 ^ binade x == 2 ^ e * inject_Z (2 ^ 52)) as Hsplit.
  { unfold e. rewrite pow2_sub, pow2_Z by lia. now field. }
  rewrite Hsplit in Hb. clear Hsplit.
  pose proof (py_round_near (x / 2 ^ e)) as [R1 R2].
  set (m := inject_Z (py_round (x / 2 ^ e))) in *.
  set (P := 2 ^ e) in *.
  assert (x / P * P == x) as Hy by (field; lra).
  set (y := x / P) in *.
  assert (inject_Z (2 ^ 52) <= y) as Hy52.
  { unfold y. apply Qle_shift_div_l; [exact HP|]. lra. }
  change (inject_Z (2 ^ 52)) with (4503599627370496 # 1) in *.
  unfold u. change (1 # 2 ^ 53) with (1 # 9007199254740992).
  rewrite <- Hy. split; nra.
Qed.

Lemma fl_comp (x y : Q) : x == y -> fl x = fl y.
Proof. intros E. unfold fl. now rewrite (Qred_complete _ _ E). Qed.

Lemma fl_err (x : Q) : 0 < x -> x * (1 - u) <= fl x /\ fl x <= x * (1 + u).
Proof.
  intros Hx. unfold fl.
  pose proof (Qred_correct x) as E.
  assert (0 < Qred x) as Hr by now rewrite E.
  destruct (Qcompare_spec (Qred x) 0) as [C|C|C]; try lra.
  rewrite <- E at 1 4. now apply round_pos_err.
Qed.

Lemma fl_nonneg (x : Q) : 0 <= x -> 0 <= fl x.
Proof.
  intros Hx. destruct (Qlt_le_dec 0 x) as [H|H].
  - pose proof (fl_err x H) as [L _]. unfold u in L.
    change (1 # 2 ^ 53) with (1 # 9007199254740992) in L. nra.
  - assert (x == 0) as E by lra. rewrite (fl_comp _ _ E). discriminate.
Qed.

Lemma binade_Z (z : Z) : (0 < z)%Z -> binade (inject_Z z) = Z.log2 z.
Proof.
  intros Hz. unfold binade. cbn [Qnum Qden inject_Z].
  change (Z.log2 1) with 0%Z. rewrite Z.sub_0_r.
  pose proof (Z.log2_spec z Hz) as [L _].
  pose proof (Z.log2_nonneg z) as Nn.
  assert (Qle_bool (2 ^ Z.log2 z) (inject_Z z) = true) as ->; [|reflexivity].
  apply Qle_bool_iff. rewrite <- pow2_Z by lia. now apply Zle_Q.
Qed.

Lemma Qred_inject_Z (z : Z) : Qred (inject_Z z) = inject_Z z.
Proof.
  unfold Qred, inject_Z.
  pose proof (Z.ggcd_gcd z 1) as G. pose proof (Z.ggcd_correct_divisors z 1) as D.
  destruct (Z.ggcd z 1) as [g [n d]]. cbn [fst] in G.
  rewrite Z.gcd_1_r in G. subst g. destruct D as [-> D].
  assert (d = 1%Z) as -> by lia.
  now rewrite Z.mul_1_l.
Qed.

(** Integers below [2^53] are binary64 values. *)
Lemma fl_exact_Z (x : Q) (z : Z) :
  (0 <= z < 2 ^ 53)%Z -> x == inject_Z z -> fl x == inject_Z z.
Proof.
  intros [Hz0 Hz] E. rewrite (fl_comp _ _ E). clear E x.
  unfold fl. assert (Qred (inject_Z z) = inject_Z z) as ->.
  { apply Qred_inject_Z. }
  destruct (Z.eq_dec z 0%Z) as [->|Hnz]; [reflexivity|].
  assert (0 < z)%Z as Hpos by lia.
  pose proof (Zlt_Q _ _ Hpos) as HposQ. change (inject_Z 0) with 0 in HposQ.
  destruct (Qcompare_spec (inject_Z z) 0) as [C|C|C]; try lra.
  unfold round_pos. rewrite binade_Z by exact Hpos.
  assert (Z.log2 z < 53)%Z as HL by (apply Z.log2_lt_pow2; lia).
  set (e := (Z.log2 z - 52)%Z).
  assert (2 ^ e == / inject_Z (2 ^ (- e))) as HP.
  { rewrite pow2_Z by lia. rewrite Qpower_opp, Qinv_involutive. reflexivity. }
  assert (0 < inject_Z (2 ^ (- e))) as Hpe.
  { apply (Zlt_Q 0). apply Z.pow_pos_nonneg; lia. }
  rewrite (py_round_Z _ (z * 2 ^ (- e))).
  - rewrite inject_Z_mult, HP. field. lra.
  - rewrite inject_Z_mult, HP. field. lra.
Qed.

(** [int(a / b)] on non-negative ints whose dividend is a binary64 value is
    the floor division. *)
Lemma py_int_truediv (a b : Z) :
  (0 <= a < 2 ^ 53)%Z -> (0 < b)%Z -> py_int (truediv_int a b) = (a / b)%Z.
Proof.
  intros [Ha0 Ha] Hb. unfold truediv_int.
  pose proof (Z.div_mod a b ltac:(lia)) as Hdm.
  pose proof (Z.mod_pos_bound a b Hb) as Hr.
  pose proof (Z.div_pos a b Ha0 Hb) as Hk.
  set (k := (a / b)%Z) in *. set (r := (a mod b)%Z) in *.
  pose proof (Zlt_Q 0 b Hb) as HbQ. change (inject_Z 0) with 0 in HbQ.
  destruct (Z.eq_dec r 0%Z) as [Hr0|Hr0].
  - assert (inject_Z a / inject_Z b == inject_Z k) as E.
    { replace a with (k * b)%Z by lia. rewrite inject_Z_mult. field. lra. }
    assert (k < 2 ^ 53)%Z as Hk53 by nia.
    pose proof (fl_exact_Z _ k ltac:(lia) E) as Ex.
    apply py_int_unique; [lia| |]; rewrite Ex.
    + apply Qle_refl.
    + apply Zlt_Q. lia.
  - set (x := inject_Z a / inject_Z b).
    assert (x * inject_Z b == inject_Z a) as Hx by (unfold x; field; lra).
    assert (inject_Z a == inject_Z k * inject_Z b + inject_Z r) as HaQ.
    { rewrite <- inject_Z_mult, <- inject_Z_plus. f_equiv. lia. }
    assert (1 <= inject_Z r) as Hr1 by (apply (Zle_Q 1); lia).
    assert (inject_Z r + 1 <= inject_Z b) as Hr2.
    { change 1 with (inject_Z 1). rewrite <- inject_Z_plus. apply Zle_Q. lia. }
    assert (inject_Z a < 9007199254740992 # 1) as HaB by (apply (Zlt_Q a (2 ^ 53)); lia).
    assert (0 <= inject_Z k) as HkQ by now apply (Zle_Q 0).
    assert (0 < x) as Hxpos.
    { unfold x. apply Qlt_shift_div_l; [lra|]. nra. }
    pose proof (fl_err x Hxpos) as [L U]. unfold u in L, U.
    change (1 # 2 ^ 53) with (1 # 9007199254740992) in L, U.
    apply py_int_unique; [lia| |].
    + apply Qle_trans with (x * (1 - (1 # 9007199254740992))); [|exact L].
      apply Qmult_le_r with (inject_Z b); [exact HbQ|]. nra.
    + apply Qle_lt_trans with (x * (1 + (1 # 9007199254740992))); [exact U|].
      rewrite inject_Z_plus. change (inject_Z 1) with 1.
      apply Qmult_lt_r with (inject_Z b); [exact HbQ|]. nra.
Qed.
Lemma float_of_int_exact (n : Z) :
  (0 <= n < 2 ^ 53)%Z -> float_of_int n == inject_Z n.
Proof. intros H. unfold float_of_int. now apply fl_exact_Z. Qed.

(** Truncation of a rounded value that keeps a gap [g] from the integers on
    both sides. *)
Lemma py_int_fl_gap (x g : Q) (k : Z) :
  (0 <= k)%Z -> inject_Z k + g <= x -> x + g <= inject_Z (k + 1) ->
  x * u < g -> py_int (fl x) = k.
Proof.
  intros Hk Hlo Hhi Hg.
  pose proof (Zle_Q 0 k Hk) as HkQ. change (inject_Z 0) with 0 in HkQ.
  rewrite inject_Z_plus in Hhi. change (inject_Z 1) with 1 in Hhi.
  unfold u in Hg. change (1 # 2 ^ 53) with (1 # 9007199254740992) in Hg.
  assert (0 < x) as Hx.
  { destruct (Qlt_le_dec 0 x) as [H|H]; [exact H|]. nra. }
  pose proof (fl_err x Hx) as [L U]. unfold u in L, U.
  change (1 # 2 ^ 53) with (1 # 9007199254740992) in L, U.
  apply py_int_unique; [exact Hk| |].
  - lra.
  - rewrite inject_Z_plus. change (inject_Z 1) with 1. lra.
Qed.

(** [int(w * 0.5)]. *)
Lemma py_int_half (w : Z) :
  (0 <= w < 2 ^ 53)%Z -> py_int (fmul (float_of_int w) (1 # 2)) = (w / 2)%Z.
Proof.
  intros Hw. unfold fmul.
  assert (float_of_int w * (1 # 2) == inject_Z w * (1 # 2)) as E
    by now rewrite float_of_int_exact.
  rewrite (fl_comp _ _ E). clear E.
  pose proof (Z.div_mod w 2 ltac:(lia)) as Hdm.
  pose proof (Z.mod_pos_bound w 2 ltac:(lia)) as Hr.
  set (k := (w / 2)%Z) in *. set (r := (w mod 2)%Z) in *.
  assert (inject_Z w == 2 * inject_Z k + inject_Z r) as HwQ.
  { change 2 with (inject_Z 2). rewrite <- inject_Z_mult, <- inject_Z_plus.
    f_equiv. lia. }
  assert (inject_Z w < 9007199254740992 # 1) as HwB
    by (apply (Zlt_Q w (2 ^ 53)); lia).
  assert (0 <= inject_Z k) as HkQ by (apply (Zle_Q 0); lia).
  destruct (Z.eq_dec r 0%Z) as [Hr0|Hr0].
  - assert (inject_Z w * (1 # 2) == inject_Z k) as E.
    { rewrite HwQ, Hr0. change (inject_Z 0) with 0. lra. }
    apply py_int_unique; [lia| |]; rewrite (fl_exact_Z _ k ltac:(lia) E).
    + apply Qle_refl.
    + apply Zlt_Q. lia.
  - assert (r = 1%Z) as Hr1 by lia. rewrite Hr1 in HwQ.
    change (inject_Z 1) with 1 in HwQ.
    apply py_int_fl_gap with (g := 1 # 2); [lia| | |].
    + lra.
    + rewrite inject_Z_plus. change (inject_Z 1) with 1. lra.
    + unfold u. change (1 # 2 ^ 53) with (1 # 9007199254740992). lra.
Qed.

(** [int(n / 100 * 1.5)] for an int [n]. *)
Lemma py_int_scale_boost (n : Z) :
  (0 <= n < 2 ^ 40)%Z ->
  py_int (fmul (truediv_int n 100) (3 # 2)) = (3 * n / 200)%Z.
Proof.
  intros Hn. unfold fmul, truediv_int.
  pose proof (Z.div_mod (3 * n) 200 ltac:(lia)) as Hdm.
  pose proof (Z.mod_pos_bound (3 * n) 200 ltac:(lia)) as Hr.
  set (k := (3 * n / 200)%Z) in *. set (r := ((3 * n) mod 200)%Z) in *.
  assert (3 * inject_Z n == 200 * inject_Z k + inject_Z r) as HnQ.
  { change 3 with (inject_Z 3). change 200 with (inject_Z 200).
    rewrite <- !inject_Z_mult, <- inject_Z_plus. f_equiv. lia. }
  assert (inject_Z n < 1099511627776 # 1) as HnB
    by (apply (Zlt_Q n (2 ^ 40)); lia).
  assert (0 <= inject_Z k) as HkQ by (apply (Zle_Q 0); lia).
  assert (0 <= inject_Z n) as HnQ0 by (apply (Zle_Q 0); lia).
  change (inject_Z 100) with 100.
  destruct (Z.eq_dec r 0%Z) as [Hr0|Hr0].
  - (* 200 | 3 n, hence 100 | n: both operations are exact *)
    assert (n = 100 * (n / 100))%Z as Hn100.
    { apply Z.div_exact; [lia|]. apply Z.mod_divide; [lia|].
      apply Z.divide_trans with 200%Z; [now exists 2%Z|].
      apply (Z.gauss 200 3 n); [apply Z.mod_divide; lia | reflexivity]. }
    set (j := (n / 100)%Z) in *.
    assert (inject_Z n / 100 == inject_Z j) as E1.
    { rewrite Hn100 at 1. rewrite inject_Z_mult. change (inject_Z 100) with 100.
      field. }
    pose proof (fl_exact_Z _ j ltac:(lia) E1) as X1.
    assert (fl (inject_Z n / 100) * (3 # 2) == inject_Z k) as E2.
    { rewrite X1. rewrite Hr0 in HnQ. change (inject_Z 0) with 0 in HnQ.
      assert (inject_Z n == 100 * inject_Z j) as Hj.
      { rewrite Hn100 at 1. now rewrite inject_Z_mult. }
      lra. }
    apply py_int_unique; [lia| |]; rewrite (fl_exact_Z _ k ltac:(lia) E2).
    + apply Qle_refl.
    + apply Zlt_Q. lia.
  - assert (1 <= inject_Z r) as Hr1 by (apply (Zle_Q 1); lia).
    assert (inject_Z r <= 199) as Hr2 by (apply (Zle_Q r 199); lia).
    assert (0 < inject_Z n / 100) as Hx1.
    { apply Qlt_shift_div_l; [reflexivity|]. lra. }
    pose proof (fl_err _ Hx1) as [L U]. unfold u in L, U.
    change (1 # 2 ^ 53) with (1 # 9007199254740992) in L, U.
    assert (inject_Z n / 100 * 100 == inject_Z n) as Hdiv by field.
    set (x1 := inject_Z n / 100) in *.
    apply py_int_fl_gap with (g := 1 # 400); [lia| | |].
    + lra.
    + rewrite inject_Z_plus. change (inject_Z 1) with 1. lra.
    + unfold u. change (1 # 2 ^ 53) with (1 # 9007199254740992). lra.
Qed.

(** [int(w * (t / w))]: the product is [t] up to two roundings, so the
    truncation is [t] or [t - 1]. *)
Lemma py_int_rescale (w t : Z) :
  (0 < t)%Z -> (t < w)%Z -> (w < 2 ^ 40)%Z ->
  let r := py_int (fmul (float_of_int w) (truediv_int t w)) in
  (t - 1 <= r <= t)%Z.
Proof.
  intros Ht Htw Hw. cbv zeta. unfold fmul, truediv_int.
  assert (float_of_int w * fl (inject_Z t / inject_Z w)
          == inject_Z w * fl (inject_Z t / inject_Z w)) as E
    by (rewrite float_of_int_exact; [reflexivity | lia]).
  rewrite (fl_comp _ _ E). clear E.
  pose proof (Zlt_Q 0 t Ht) as HtQ. change (inject_Z 0) with 0 in HtQ.
  pose proof (Zlt_Q t w Htw) as HtwQ.
  assert (inject_Z w < 1099511627776 # 1) as HwB
    by (apply (Zlt_Q w (2 ^ 40)); lia).
  assert (1 <= inject_Z t) as Ht1 by (apply (Zle_Q 1); lia).
  assert (0 < inject_Z t / inject_Z w) as Hq.
  { apply Qlt_shift_div_l; lra. }
  pose proof (fl_err _ Hq) as [L U]. unfold u in L, U.
  change (1 # 2 ^ 53) with (1 # 9007199254740992) in L, U.
  assert (inject_Z t / inject_Z w * inject_Z w == inject_Z t) as Hdiv
    by (field; lra).
  set (q := inject_Z t / inject_Z w) in *.
  set (s := fl q) in *.
  assert (inject_Z t * (1 - (1 # 9007199254740992)) <= inject_Z w * s) as L'.
  { rewrite <- Hdiv. nra. }
  assert (inject_Z w * s <= inject_Z t * (1 + (1 # 9007199254740992))) as U'.
  { rewrite <- Hdiv at 1. nra. }
  set (x := inject_Z w * s) in *.
  assert (0 < x) as Hx by lra.
  pose proof (fl_err _ Hx) as [L2 U2]. unfold u in L2, U2.
  change (1 # 2 ^ 53) with (1 # 9007199254740992) in L2, U2.
  assert (inject_Z (t - 1) == inject_Z t - 1) as Em.
  { unfold Z.sub. rewrite inject_Z_plus, inject_Z_opp. reflexivity. }
  assert (inject_Z (t - 1) <= fl x) as A by (rewrite Em; lra).
  assert (fl x < inject_Z (t + 1)) as B.
  { rewrite inject_Z_plus. change (inject_Z 1) with 1. lra. }
  rewrite py_int_nonneg.
  2:{ eapply Qle_trans; [|exact A]. apply (Zle_Q 0). lia. }
  pose proof (Qfloor_le (fl x)) as F1. pose proof (Qlt_floor (fl x)) as F2.
  assert (inject_Z (Qfloor (fl x)) < inject_Z (t + 1)) as C1
    by (eapply Qle_lt_trans; eauto).
  assert (inject_Z (t - 1) < inject_Z (Qfloor (fl x) + 1)) as C2
    by (eapply Qle_lt_trans; eauto).
  rewrite <- Zlt_Qlt in C1, C2. lia.
Qed.
End PyFloatFacts.

Import PyFloatFacts.

(** On a grid of widths up to 1444 and percentages up to 75 the four
    expressions give the same integer on hardware binary64 and under
    [PyFloat.fl]. *)
Lemma binary64_agrees :
  forallb (fun w => forallb (Binary64.agree_on w) (Binary64.range 1 1 75))
          (Binary64.range 1 37 40) = true.
Proof. vm_compute. reflexivity. Qed.

(* ===================================================================== *)
(** * Target watermark width *)
(* ===================================================================== *)

Section TargetWidth.

Lemma min_size_min (w h : Z) : min_size (w, h) = Z.min w h.
Proof. unfold min_size. destruct (Z.ltb_spec h w); lia. Qed.

Lemma batch_target_width_truncated (w h s : Z) (a : bool) :
  1 <= w < 2 ^ 31 -> 1 <= h -> 1 <= s <= 100 ->
  batch_target_width (w, h) s a = truncated_target_width w h s a.
Proof.
  intros Hw Hh Hs. unfold batch_target_width, truncated_target_width.
  rewrite min_size_min.
  assert (0 <= w * s < 2 ^ 40) as Hws by nia.
  assert (0 <= Z.min w h * s < 2 ^ 53) as Hms by nia.
  destruct a, (h >? w).
  - rewrite py_int_half by lia. reflexivity.
  - rewrite py_int_truediv by lia. reflexivity.
  - rewrite py_int_scale_boost by lia. reflexivity.
  - rewrite py_int_truediv by lia. reflexivity.
Qed.

Lemma truncated_target_width_floor (w h s : Z) (a : bool) :
  40 <= truncated_target_width w h s a.
Proof.
  unfold truncated_target_width. destruct a, (h >? w); lia.
Qed.

(** C1 (as stated, refuted): on a landscape 199x100 image at 30 percent,
    width-relative mode, the batch worker computes 59, where the table with
    [round] gives 60 (199 * 30 / 100 = 59.7). *)
Lemma target_width_is_not_rounded :
  batch_target_width (199, 100) 30 false = 59
  /\ cli_target_width (199, 100) 30 false = 59
  /\ spec_target_width 199 100 30 false = 60.
Proof. vm_compute. repeat split; reflexivity. Qed.

(** C1 (amended): for a base image of width [w] and height [h], both at
    least 1 and [w] below 2^31, and a scale percentage in [1, 100], the
    batch worker and the command-line loop compute the four-branch table
    with truncation toward zero in place of rounding: [max(40, w div 2)],
    [max(40, min(w,h)*s div 100)], [max(40, 3*w*s div 200)] or
    [max(40, w*s div 100)].  The result is at least 40, and a portrait
    600x800 image at 30 percent without auto-scale gets 270. *)
Theorem target_width_truncates (w h s : Z) (auto_scale : bool) :
  1 <= w < 2 ^ 31 -> 1 <= h -> 1 <= s <= 100 ->
  batch_target_width (w, h) s auto_scale = truncated_target_width w h s auto_scale
  /\ cli_target_width (w, h) s auto_scale = truncated_target_width w h s auto_scale
  /\ 40 <= batch_target_width (w, h) s auto_scale
  /\ batch_target_width (600, 800) 30 false = 270.
Proof.
  intros Hw Hh Hs.
  pose proof (batch_target_width_truncated w h s auto_scale Hw Hh Hs) as E.
  split; [|split; [|split]].
  - exact E.
  - exact E.
  - rewrite E. apply truncated_target_width_floor.
  - rewrite (batch_target_width_truncated 600 800 30 false) by lia. reflexivity.
Qed.

Lemma target_width_truncates_witness :
  batch_target_width (1000, 500) 20 true = truncated_target_width 1000 500 20 true
  /\ cli_target_width (1000, 500) 20 true = truncated_target_width 1000 500 20 true
  /\ 40 <= batch_target_width (1000, 500) 20 true
  /\ batch_target_width (600, 800) 30 false = 270.
Proof. apply (target_width_truncates 1000 500 20 true); lia. Defined.

(** C2: for every base width, base height, scale and auto-scale flag, the
    sizing block of the single-image preview, that of the batch worker
    and that of the command-line loop return the same value. *)
Theorem target_width_call_sites_agree (w h s : Z) (auto_scale : bool) :
  preview_target_width w h s auto_scale = batch_target_width (w, h) s auto_scale
  /\ batch_target_width (w, h) s auto_scale = cli_target_width (w, h) s auto_scale.
Proof.
  split; [|reflexivity].
  unfold preview_target_width, batch_target_width.
  now rewrite min_size_min.
Qed.

End TargetWidth.

(* ===================================================================== *)
(** * Image operations on the store *)
(* ===================================================================== *)

Section StoreFacts.
Context `{Pixels}.

Lemma bind_Some {A B} (m : M A) (k : A -> M B) (st st1 : store) (a : A) :
  m st = Some (a, st1) -> bind m k st = k a st1.
Proof. intros E. unfold bind. now rewrite E. Qed.

Lemma deref_Some (st : store) (r : ref) (im : Image) :
  st !! r = Some im -> deref r st = Some (im, st).
Proof. intros E. unfold deref. now rewrite E. Qed.

Lemma copy_Some (st : store) (r : ref) (im : Image) :
  st !! r = Some im -> copy r st = Some (length st, st ++ [im]).
Proof. intros E. unfold copy. now rewrite (bind_Some _ _ _ _ _ (deref_Some _ _ _ E)). Qed.

Lemma resize_Some (st : store) (r : ref) (im : Image) (sz : Z * Z) :
  st !! r = Some im -> resizable sz = true ->
  resize r sz st
  = Some (length st, st ++ [mkImage (mode im) sz (pil_lanczos sz im) (exif im)]).
Proof.
  intros E R. unfold resize.
  now rewrite (bind_Some _ _ _ _ _ (deref_Some _ _ _ E)), R.
Qed.

Lemma resize_None (st : store) (r : ref) (sz : Z * Z) :
  resizable sz = false -> resize r sz st = None.
Proof.
  intros R. unfold resize, bind, deref.
  destruct (st !! r); [now rewrite R | reflexivity].
Qed.

Lemma convert_Some (st : store) (r : ref) (im : Image) (m : string) :
  st !! r = Some im ->
  convert r m st
  = Some (length st, st ++ [mkImage m (size im) (pil_convert m im) (exif im)]).
Proof. intros E. unfold convert. now rewrite (bind_Some _ _ _ _ _ (deref_Some _ _ _ E)). Qed.

Lemma lookup_new (st : store) (im : Image) : (st ++ [im]) !! length st = Some im.
Proof. rewrite lookup_app_r by lia. now rewrite Nat.sub_diag. Qed.

Lemma lookup_old (st : store) (r : ref) (im x : Image) :
  st !! r = Some im -> (st ++ [x]) !! r = Some im.
Proof. intros E. rewrite lookup_app_l; [exact E|]. now apply lookup_lt_Some in E. Qed.

(** The size asked of [resize] when the image does not fit. *)
Lemma fitted_size_spec (w h m : Z) :
  1 <= w < 2 ^ 26 -> 1 <= h < 2 ^ 26 -> 0 <= m < Z.max w h ->
  fitted_size w h m = (if w >=? h then (m, m * h / w) else (m * w / h, m)).
Proof.
  intros Hw Hh Hm. unfold fitted_size.
  destruct (Z.geb_spec w h).
  - rewrite py_int_truediv; [reflexivity| nia | lia].
  - rewrite py_int_truediv; [reflexivity| nia | lia].
Qed.

Lemma scaled_side (m a b : Z) :
  0 <= m -> 1 <= a <= b ->
  0 <= m * a / b <= m /\ (m * a / b) * b <= m * a < (m * a / b + 1) * b.
Proof.
  intros Hm Hab.
  pose proof (Z.div_mod (m * a) b ltac:(lia)) as D.
  pose proof (Z.mod_pos_bound (m * a) b ltac:(lia)) as R.
  assert (0 <= m * a / b) by (apply Z.div_pos; nia).
  assert (m * a / b <= m).
  { apply Z.div_le_upper_bound; nia. }
  nia.
Qed.

(** C3 (amended): for an image of size (w, h), sides between 1 and 2^26,
    and a [max_dimension] m.  If max(w, h) <= m, the result is a new image
    object that is a copy, and the source stays in place.  Otherwise, when
    the truncation of m * shorter / longer is at least 1, the result is a
    new image object whose longer side is m, on the axis of the original
    longer side, and whose shorter side is that truncation: the true value
    is missed by less than one pixel, and the longer side does not grow. *)
Theorem resize_maintain_aspect_fits (st : store) (image : ref) (im : Image)
    (max_dimension : Z) :
  st !! image = Some im ->
  1 <= width im < 2 ^ 26 -> 1 <= height im < 2 ^ 26 ->
  let w := width im in
  let h := height im in
  let long_side := Z.max w h in
  let short_side := Z.min w h in
  let short_scaled := max_dimension * short_side / long_side in
  (long_side <= max_dimension ->
     resize_maintain_aspect image max_dimension st = Some (length st, st ++ [im])
     /\ (st ++ [im]) !! image = Some im)
  /\ (max_dimension < long_side -> 1 <= short_scaled ->
      exists out,
        resize_maintain_aspect image max_dimension st
        = Some (length st, st ++ [out])
        /\ (st ++ [out]) !! image = Some im
        /\ size out = (if w >=? h then (max_dimension, max_dimension * h / w)
                       else (max_dimension * w / h, max_dimension))
        /\ Z.max (width out) (height out) = max_dimension
        /\ Z.min (width out) (height out) = short_scaled
        /\ Z.min (width out) (height out) * long_side
             <= max_dimension * short_side
             < (Z.min (width out) (height out) + 1) * long_side
        /\ Z.max (width out) (height out) <= long_side).
Proof.
  intros E Hw Hh w h long_side short_side short_scaled.
  unfold resize_maintain_aspect.
  rewrite (bind_Some _ _ _ _ _ (deref_Some _ _ _ E)).
  unfold width, height in *. destruct (size im) as [w0 h0] eqn:Esz.
  cbn [fst snd] in *. subst w h long_side short_side short_scaled.
  split.
  - intros Hfit. assert ((Z.max w0 h0 <=? max_dimension) = true) as -> by lia.
    rewrite (copy_Some _ _ _ E). split; [reflexivity | now apply lookup_old].
  - intros Hbig Hs. assert ((Z.max w0 h0 <=? max_dimension) = false) as -> by lia.
    assert (0 <= max_dimension) as Hm.
    { pose proof (Z.mul_div_le (max_dimension * Z.min w0 h0) (Z.max w0 h0)
                    ltac:(lia)).
      nia. }
    rewrite fitted_size_spec by lia.
    destruct (Z.geb_spec w0 h0) as [G|G].
    + rewrite (Z.max_l w0 h0), (Z.min_r w0 h0) in * by lia.
      pose proof (scaled_side max_dimension h0 w0 Hm ltac:(lia)) as [B1 B2].
      rewrite (resize_Some _ _ _ _ E) by (unfold resizable; cbn [fst snd]; lia).
      eexists. split; [reflexivity|]. split; [now apply lookup_old|].
      cbn [size fst snd].
      rewrite (Z.max_l max_dimension), (Z.min_r max_dimension) by lia.
      repeat split; lia.
    + rewrite (Z.max_r w0 h0), (Z.min_l w0 h0) in * by lia.
      pose proof (scaled_side max_dimension w0 h0 Hm ltac:(lia)) as [B1 B2].
      rewrite (resize_Some _ _ _ _ E) by (unfold resizable; cbn [fst snd]; lia).
      eexists. split; [reflexivity|]. split; [now apply lookup_old|].
      cbn [size fst snd].
      rewrite (Z.max_r _ max_dimension), (Z.min_l _ max_dimension) by lia.
      repeat split; lia.
Qed.

(** When the image does not fit and the truncation of
    m * shorter / longer is 0, [resize] is asked for a side of 0 and the
    call raises. *)
Lemma resize_maintain_aspect_raises (st : store) (image : ref) (im : Image)
    (max_dimension : Z) :
  st !! image = Some im ->
  1 <= width im < 2 ^ 26 -> 1 <= height im < 2 ^ 26 -> 0 <= max_dimension ->
  max_dimension < Z.max (width im) (height im) ->
  max_dimension * Z.min (width im) (height im) / Z.max (width im) (height im) < 1 ->
  resize_maintain_aspect image max_dimension st = None.
Proof.
  intros E Hw Hh Hm Hbig Hs.
  unfold resize_maintain_aspect.
  rewrite (bind_Some _ _ _ _ _ (deref_Some _ _ _ E)).
  unfold width, height in *. destruct (size im) as [w0 h0] eqn:Esz.
  cbn [fst snd] in *.
  assert ((Z.max w0 h0 <=? max_dimension) = false) as -> by lia.
  rewrite fitted_size_spec by lia. apply resize_None.
  unfold resizable.
  destruct (Z.geb_spec w0 h0) as [G|G]; cbn [fst snd].
  - rewrite (Z.max_l w0 h0), (Z.min_r w0 h0) in * by lia.
    apply andb_false_iff. right. lia.
  - rewrite (Z.max_r w0 h0), (Z.min_l w0 h0) in * by lia.
    apply andb_false_iff. left. lia.
Qed.

Lemma preserves_refl (t : option ref) (st : store) : preserves t st st.
Proof. intros q im E. destruct (decide _); eauto. Qed.

Lemma preserves_new (t : option ref) (st : store) (x : Image) :
  preserves t st (st ++ [x]).
Proof.
  intros q im E. rewrite (lookup_old _ _ _ _ E). destruct (decide _); eauto.
Qed.

Lemma preserves_trans (t : option ref) (st1 st2 st3 : store) :
  preserves t st1 st2 -> preserves t st2 st3 -> preserves t st1 st3.
Proof.
  intros P1 P2 q im E. specialize (P1 q im E).
  destruct (decide (t = Some q)) as [D|D].
  - destruct P1 as [im2 E2]. specialize (P2 q im2 E2).
    now destruct (decide (t = Some q)).
  - specialize (P2 q im P1). now destruct (decide (t = Some q)).
Qed.

Lemma preserves_weaken (t : option ref) (st st' : store) :
  preserves None st st' -> preserves t st st'.
Proof.
  intros P q im E. specialize (P q im E). cbn in P.
  destruct (decide (None = Some q)); [discriminate|].
  destruct (decide _); eauto.
Qed.

Lemma preserves_assign (st : store) (r : ref) (x : Image) :
  preserves (Some r) st (<[r := x]> st).
Proof.
  intros q im E. pose proof (lookup_lt_Some _ _ _ E) as L.
  destruct (decide (Some r = Some q)) as [D|D].
  - apply lookup_lt_is_Some_2. now rewrite length_insert.
  - rewrite list_lookup_insert_ne; [exact E|]. congruence.
Qed.

Lemma ensure_rgba_spec (st : store) (watermark : ref) (wm : Image) :
  st !! watermark = Some wm -> well_formed wm ->
  exists r st1 wm1,
    ensure_rgba watermark st = Some (r, st1)
    /\ st1 !! r = Some wm1
    /\ size wm1 = size wm
    /\ length (bands wm1) = 4%nat
    /\ preserves None st st1
    /\ (r = watermark \/ st !! r = None).
Proof.
  intros E WF. unfold ensure_rgba.
  rewrite (bind_Some _ _ _ _ _ (deref_Some _ _ _ E)).
  destruct (String.eqb_spec (mode wm) "RGBA") as [Em|Em].
  - exists watermark, st, wm. repeat split; auto using preserves_refl.
  - rewrite (convert_Some _ _ _ _ E).
    eexists _, _, _. split; [reflexivity|]. split; [apply lookup_new|].
    cbn [size bands]. repeat split; auto using preserves_new, pil_convert_rgba.
    right. apply lookup_ge_None. lia.
Qed.

Lemma scale_watermark_spec (st : store) (watermark : ref) (wm : Image) (t : Z) :
  st !! watermark = Some wm -> scale_accepts wm t = true ->
  exists r st1 wm1,
    scale_watermark watermark t st = Some (r, st1)
    /\ st1 !! r = Some wm1
    /\ size wm1 = (if width wm >? t
                   then scaled_size (width wm) (height wm) t else size wm)
    /\ length (bands wm1) = length (bands wm)
    /\ preserves None st st1
    /\ (r = watermark \/ st !! r = None).
Proof.
  intros E A. unfold scale_watermark.
  rewrite (bind_Some _ _ _ _ _ (deref_Some _ _ _ E)).
  destruct (Z.gtb_spec (width wm) t) as [G|G].
  - unfold scale_accepts in A.
    assert ((width wm <=? t) = false) as Hle by lia.
    rewrite Hle in A. cbn [orb] in A.
    rewrite (resize_Some _ _ _ _ E A).
    eexists _, _, _. split; [reflexivity|]. split; [apply lookup_new|].
    cbn [size bands]. repeat split; auto using preserves_new, pil_lanczos_bands.
    right. apply lookup_ge_None. lia.
  - exists watermark, st, wm. repeat split; auto using preserves_refl.
Qed.

Lemma scale_watermark_raises (st : store) (watermark : ref) (wm : Image) (t : Z) :
  st !! watermark = Some wm -> scale_accepts wm t = false ->
  scale_watermark watermark t st = None.
Proof.
  intros E A. unfold scale_watermark.
  rewrite (bind_Some _ _ _ _ _ (deref_Some _ _ _ E)).
  unfold scale_accepts in A. apply orb_false_iff in A as [Hle R].
  assert ((width wm >? t) = true) as -> by lia.
  now apply resize_None.
Qed.

Lemma split_band_Some (st : store) (r : ref) (im : Image) (i : nat) (b : list Z) :
  st !! r = Some im -> bands im !! i = Some b ->
  split_band r i st
  = Some (length st, st ++ [mkImage "L" (size im) [b] (exif im)]).
Proof.
  intros E Eb. unfold split_band.
  rewrite (bind_Some _ _ _ _ _ (deref_Some _ _ _ E)). now rewrite Eb.
Qed.

Lemma point_Some (st : store) (r : ref) (im : Image) (f : Z -> Z) :
  st !! r = Some im ->
  point r f st
  = Some (length st,
          st ++ [mkImage (mode im) (size im)
                   (map (map (apply_table (lookup_table f))) (bands im))
                   (exif im)]).
Proof.
  intros E. unfold point.
  now rewrite (bind_Some _ _ _ _ _ (deref_Some _ _ _ E)).
Qed.

Lemma putalpha_Some (st : store) (r alpha : ref) (im a : Image) (b : list Z) :
  st !! r = Some im -> st !! alpha = Some a -> bands a !! 0%nat = Some b ->
  putalpha r alpha st
  = Some (tt, <[r := mkImage (mode im) (size im) (<[3%nat := b]> (bands im))
                       (exif im)]> st).
Proof.
  intros E Ea Eb. unfold putalpha.
  rewrite (bind_Some _ _ _ _ _ (deref_Some _ _ _ E)).
  rewrite (bind_Some _ _ _ _ _ (deref_Some _ _ _ Ea)).
  rewrite Eb. unfold assign. now rewrite E.
Qed.

Lemma apply_opacity_spec (st : store) (watermark : ref) (wm : Image) (opacity : Z) :
  st !! watermark = Some wm -> length (bands wm) = 4%nat ->
  exists st1,
    apply_opacity watermark opacity st = Some (tt, st1)
    /\ st1 !! watermark = Some (if opacity <? 100 then faded opacity wm else wm)
    /\ preserves (Some watermark) st st1.
Proof.
  intros E L4. unfold apply_opacity.
  destruct (opacity <? 100).
  - destruct (lookup_lt_is_Some_2 (bands wm) 3%nat ltac:(lia)) as [b Eb].
    rewrite (bind_Some _ _ _ _ _ (split_band_Some _ _ _ _ _ E Eb)).
    set (a := mkImage "L" (size wm) [b] (exif wm)).
    rewrite (bind_Some _ _ _ _ _ (point_Some _ _ _ _ (lookup_new st a))).
    cbn [mode size bands exif a map].
    set (a' := mkImage "L" (size wm) _ (exif wm)).
    assert (((st ++ [a]) ++ [a']) !! watermark = Some wm) as E2
      by now apply lookup_old, lookup_old.
    rewrite (putalpha_Some _ _ _ _ _ _ E2 (lookup_new (st ++ [a]) a') eq_refl).
    eexists. split; [reflexivity|]. split.
    + rewrite list_lookup_insert_eq by (apply lookup_lt_Some in E2; exact E2).
      unfold faded. now rewrite Eb.
    + eapply preserves_trans; [|apply preserves_assign].
      apply preserves_weaken.
      eapply preserves_trans; apply preserves_new.
  - exists st. repeat split; auto using preserves_refl.
Qed.

Lemma preserves_lookup_None (t : option ref) (st st' : store) (r : ref) :
  preserves t st st' -> st' !! r = None -> st !! r = None.
Proof.
  intros P E. destruct (st !! r) as [im|] eqn:Er; [|reflexivity].
  specialize (P r im Er). destruct (decide _) as [D|D].
  - rewrite E in P. now destruct P.
  - congruence.
Qed.

Lemma preserves_is_Some (t : option ref) (st st' : store) (r : ref) (im : Image) :
  preserves t st st' -> st !! r = Some im -> is_Some (st' !! r).
Proof.
  intros P E. specialize (P r im E). destruct (decide _); eauto.
Qed.

Lemma preserves_other (t : option ref) (st st' : store) (r : ref) (im : Image) :
  preserves t st st' -> t <> Some r -> st !! r = Some im -> st' !! r = Some im.
Proof.
  intros P D E. specialize (P r im E). now destruct (decide _).
Qed.

(** Steps 1 to 3 of [apply_watermark] together. *)
Lemma prepare_watermark_spec (st : store) (watermark : ref) (wm : Image)
    (opacity target_width : Z) :
  st !! watermark = Some wm -> well_formed wm ->
  scale_accepts wm (effective_target_width target_width) = true ->
  let t := effective_target_width target_width in
  exists r st1 w1,
    prepare_watermark watermark opacity target_width st = Some (r, st1)
    /\ st1 !! r = Some w1
    /\ size w1 = (if width wm >? t
                  then scaled_size (width wm) (height wm) t else size wm)
    /\ preserves (Some r) st st1
    /\ (r = watermark \/ st !! r = None)
    /\ (mode wm = "RGBA" -> width wm <= t ->
        r = watermark /\ w1 = if opacity <? 100 then faded opacity wm else wm).
Proof.
  intros E WF A t. unfold prepare_watermark. fold t.
  destruct (ensure_rgba_spec st watermark wm E WF)
    as (r1 & st1 & wm1 & R1 & E1 & S1 & B1 & P1 & F1).
  rewrite (bind_Some _ _ _ _ _ R1).
  assert (scale_accepts wm1 t = true) as A1.
  { unfold scale_accepts, width, height in *. now rewrite S1. }
  destruct (scale_watermark_spec st1 r1 wm1 t E1 A1)
    as (r2 & st2 & wm2 & R2 & E2 & S2 & B2 & P2 & F2).
  rewrite (bind_Some _ _ _ _ _ R2).
  destruct (apply_opacity_spec st2 r2 wm2 opacity E2 ltac:(congruence))
    as (st3 & R3 & E3 & P3).
  rewrite (bind_Some _ _ _ _ _ R3).
  exists r2, st3, (if opacity <? 100 then faded opacity wm2 else wm2).
  assert (width wm1 = width wm /\ height wm1 = height wm) as [Ww Wh]
    by (unfold width, height; now rewrite S1).
  rewrite Ww, Wh, S1 in S2.
  split; [reflexivity|]. split; [exact E3|]. split.
  { destruct (opacity <? 100); exact S2. }
  split.
  { eapply preserves_trans; [|exact P3].
    apply preserves_weaken. eapply preserves_trans; eauto. }
  split.
  { destruct F2 as [->|N2]; [exact F1|].
    right. eapply preserves_lookup_None; eauto. }
  intros Em Hw.
  (* neither a conversion nor a resize: the object itself is the one pasted *)
  unfold ensure_rgba in R1.
  rewrite (bind_Some _ _ _ _ _ (deref_Some _ _ _ E)) in R1.
  rewrite Em in R1. cbn in R1. injection R1 as <- <-.
  rewrite E in E1. injection E1 as <-.
  unfold scale_watermark in R2.
  rewrite (bind_Some _ _ _ _ _ (deref_Some _ _ _ E)) in R2.
  assert ((width wm >? t) = false) as Hgt by lia.
  rewrite Hgt in R2. cbn in R2. injection R2 as <- <-.
  rewrite E in E2. injection E2 as <-.
  split; reflexivity.
Qed.

Lemma prepare_watermark_raises (st : store) (watermark : ref) (wm : Image)
    (opacity target_width : Z) :
  st !! watermark = Some wm -> well_formed wm ->
  scale_accepts wm (effective_target_width target_width) = false ->
  prepare_watermark watermark opacity target_width st = None.
Proof.
  intros E WF A. unfold prepare_watermark.
  destruct (ensure_rgba_spec st watermark wm E WF)
    as (r1 & st1 & wm1 & R1 & E1 & S1 & B1 & P1 & F1).
  rewrite (bind_Some _ _ _ _ _ R1).
  assert (scale_accepts wm1 (effective_target_width target_width) = false) as A1.
  { unfold scale_accepts, width, height in *. now rewrite S1. }
  unfold bind at 1. now rewrite (scale_watermark_raises _ _ _ _ E1 A1).
Qed.

Lemma paste_Some (st : store) (target im mask : ref) (t i m : Image) (box : Z * Z) :
  st !! target = Some t -> st !! im = Some i -> st !! mask = Some m ->
  paste target im box mask st
  = Some (tt, <[target := mkImage (mode t) (size t) (pil_paste t i box m) (exif t)]> st).
Proof.
  intros Et Ei Em. unfold paste.
  rewrite (bind_Some _ _ _ _ _ (deref_Some _ _ _ Et)).
  rewrite (bind_Some _ _ _ _ _ (deref_Some _ _ _ Ei)).
  rewrite (bind_Some _ _ _ _ _ (deref_Some _ _ _ Em)).
  unfold assign. now rewrite Et.
Qed.

(** The whole of [apply_watermark]: the watermark is prepared, the base is
    copied, and the prepared watermark is pasted on the copy. *)
Lemma apply_watermark_spec (st : store) (base_image watermark : ref)
    (base wm : Image) (position : string) (opacity margin target_width : Z) :
  st !! base_image = Some base -> st !! watermark = Some wm -> well_formed wm ->
  scale_accepts wm (effective_target_width target_width) = true ->
  exists prepared st1 pasted b result st2,
    prepare_watermark watermark opacity target_width st = Some (prepared, st1)
    /\ st1 !! prepared = Some pasted
    /\ st1 !! base_image = Some b
    /\ apply_watermark base_image watermark position opacity margin target_width st
       = Some (result, st2)
    /\ result = length st1
    /\ st2 = st1 ++ [mkImage (mode b) (size b)
                       (pil_paste b pasted
                          (anchor_offset position margin (size b) (size pasted))
                          pasted)
                       (exif b)].
Proof.
  intros Eb Ew WF Acc.
  destruct (prepare_watermark_spec st watermark wm opacity target_width Ew WF Acc)
    as (r & st1 & w1 & R & E1 & S & P & F & _).
  destruct (preserves_is_Some _ _ _ _ _ P Eb) as [b Eb1].
  exists r, st1, w1, b, (length st1). eexists.
  split; [exact R|]. split; [exact E1|]. split; [exact Eb1|].
  split; [|split; reflexivity].
  unfold apply_watermark.
  rewrite (bind_Some _ _ _ _ _ R).
  rewrite (bind_Some _ _ _ _ _ (deref_Some _ _ _ Eb1)).
  rewrite (bind_Some _ _ _ _ _ (deref_Some _ _ _ E1)).
  rewrite (bind_Some _ _ _ _ _ (copy_Some _ _ _ Eb1)).
  rewrite (bind_Some _ _ _ _ _
             (paste_Some _ _ _ _ _ _ _ _ (lookup_new st1 b)
                (lookup_old _ _ _ b E1) (lookup_old _ _ _ b E1))).
  unfold ret. f_equal. f_equal.
  rewrite insert_app_r_alt by lia. now rewrite Nat.sub_diag.
Qed.

Lemma apply_watermark_raises (st : store) (base_image watermark : ref)
    (wm : Image) (position : string) (opacity margin target_width : Z) :
  st !! watermark = Some wm -> well_formed wm ->
  scale_accepts wm (effective_target_width target_width) = false ->
  apply_watermark base_image watermark position opacity margin target_width st
  = None.
Proof.
  intros Ew WF A. unfold apply_watermark, bind at 1.
  now rewrite (prepare_watermark_raises _ _ _ _ _ Ew WF A).
Qed.

(** The scaled width is the effective width or one pixel less, so
    [resize] is refused only for a height that scales to 0. *)
Lemma scale_accepts_height (wm : Image) (t : Z) :
  30 <= t -> width wm < 2 ^ 40 ->
  scale_accepts wm t
  = (width wm <=? t) || (1 <=? snd (scaled_size (width wm) (height wm) t)).
Proof.
  intros Ht Hw. unfold scale_accepts, resizable.
  destruct (Z.leb_spec (width wm) t) as [L|L]; [reflexivity|]. cbn [orb].
  assert (t - 1 <= fst (scaled_size (width wm) (height wm) t) <= t) as B.
  { unfold scaled_size. cbn [fst]. apply py_int_rescale; lia. }
  assert ((1 <=? fst (scaled_size (width wm) (height wm) t)) = true) as -> by lia.
  reflexivity.
Qed.

(** C4: [apply_watermark] works with the effective target width
    max(target_width, 30).  The scale step leaves alone any watermark whose
    width is at most that; a watermark that is wider is resized to the
    effective width (or one pixel less, by the truncation of
    [width * (target / width)]), unless its height scales to 0, in which
    case [resize] raises and nothing is pasted.  So a watermark pasted on
    the copy of the base is never wider than the one passed in. *)
Theorem apply_watermark_never_upscales (st : store) (base_image watermark : ref)
    (base wm : Image) (position : string) (opacity margin target_width : Z) :
  st !! base_image = Some base -> st !! watermark = Some wm -> well_formed wm ->
  width wm < 2 ^ 40 ->
  let effective := effective_target_width target_width in
  let scaled_height := snd (scaled_size (width wm) (height wm) effective) in
  effective = Z.max target_width 30
  /\ (forall s r im, s !! r = Some im -> width im <= effective ->
        scale_watermark r effective s = Some (r, s))
  /\ (width wm <= effective \/ 1 <= scaled_height ->
      exists prepared st1 pasted b result,
        prepare_watermark watermark opacity target_width st = Some (prepared, st1)
        /\ st1 !! prepared = Some pasted
        /\ st1 !! base_image = Some b
        /\ apply_watermark base_image watermark position opacity margin
             target_width st
           = Some (result,
                   st1 ++ [mkImage (mode b) (size b)
                             (pil_paste b pasted
                                (anchor_offset position margin (size b)
                                   (size pasted))
                                pasted)
                             (exif b)])
        /\ (width wm <= effective -> size pasted = size wm)
        /\ (effective < width wm -> effective - 1 <= width pasted <= effective)
        /\ width pasted <= width wm)
  /\ (effective < width wm -> scaled_height < 1 ->
      prepare_watermark watermark opacity target_width st = None
      /\ apply_watermark base_image watermark position opacity margin
           target_width st = None).
Proof.
  intros Eb Ew WF Hw effective scaled_height.
  assert (30 <= effective) as H30 by (unfold effective, effective_target_width; lia).
  pose proof (scale_accepts_height wm effective H30 Hw) as Acc.
  fold scaled_height in Acc.
  split; [reflexivity|]. split; [|split].
  - intros s q im Eq Hq. unfold scale_watermark.
    rewrite (bind_Some _ _ _ _ _ (deref_Some _ _ _ Eq)).
    assert ((width im >? effective) = false) as -> by lia. reflexivity.
  - intros Hok.
    assert (scale_accepts wm effective = true) as A.
    { rewrite Acc. apply orb_true_iff. destruct Hok; [left | right]; lia. }
    destruct (apply_watermark_spec st base_image watermark base wm position
                opacity margin target_width Eb Ew WF A)
      as (r & st1 & w1 & b & result & st2 & R & E1 & Eb1 & Ap & -> & ->).
    destruct (prepare_watermark_spec st watermark wm opacity target_width Ew WF A)
      as (r' & st1' & w1' & R' & E1' & S & _).
    rewrite R in R'. injection R' as <- <-. rewrite E1 in E1'. injection E1' as <-.
    fold effective in S.
    exists r, st1, w1, b, (length st1).
    split; [exact R|]. split; [exact E1|]. split; [exact Eb1|]. split; [exact Ap|].
    destruct (Z.gtb_spec (width wm) effective) as [G|G].
    + assert (effective - 1 <= width w1 <= effective) as B.
      { unfold width at 1 2. rewrite S. unfold scaled_size. cbn [fst].
        apply py_int_rescale; lia. }
      repeat split; lia.
    + assert (width w1 = width wm) as B by (unfold width; now rewrite S).
      split; [intros _; exact S|]. split; lia.
  - intros Hwide Hflat.
    assert (scale_accepts wm effective = false) as A.
    { rewrite Acc. apply orb_false_iff. split; lia. }
    split.
    + now apply prepare_watermark_raises with (wm := wm).
    + now apply apply_watermark_raises with (wm := wm).
Qed.

(** The base image object is left as it was, unless it is the very object
    passed as watermark. *)
Lemma apply_watermark_keeps_base (st : store) (base_image watermark : ref)
    (base wm : Image) (position : string) (opacity margin target_width : Z) :
  st !! base_image = Some base -> st !! watermark = Some wm -> well_formed wm ->
  scale_accepts wm (effective_target_width target_width) = true ->
  base_image <> watermark ->
  exists result st2,
    apply_watermark base_image watermark position opacity margin target_width st
    = Some (result, st2)
    /\ st2 !! base_image = Some base
    /\ result <> base_image.
Proof.
  intros Eb Ew WF Acc D.
  destruct (apply_watermark_spec st base_image watermark base wm position
              opacity margin target_width Eb Ew WF Acc)
    as (r & st1 & w1 & b & result & st2 & R & E1 & Eb1 & A & -> & ->).
  destruct (prepare_watermark_spec st watermark wm opacity target_width Ew WF Acc)
    as (r' & st1' & w1' & R' & _ & _ & P & F & _).
  rewrite R in R'. injection R' as <- <-.
  assert (Some r <> Some base_image) as Dr.
  { intros [= ->]. destruct F as [->|N]; congruence. }
  pose proof (preserves_other _ _ _ _ _ P Dr Eb) as Eb2.
  eexists _, _. split; [exact A|]. split.
  - now apply lookup_old.
  - apply lookup_lt_Some in Eb2. lia.
Qed.

(** An RGBA watermark that needs no resizing is faded in place when the
    opacity is below 100: the object passed in is the one changed. *)
Lemma apply_watermark_fades_in_place (st : store) (base_image watermark : ref)
    (base wm : Image) (position : string) (opacity margin target_width : Z) :
  st !! base_image = Some base -> st !! watermark = Some wm ->
  mode wm = "RGBA" -> length (bands wm) = 4%nat ->
  width wm <= effective_target_width target_width -> opacity < 100 ->
  exists result st2,
    apply_watermark base_image watermark position opacity margin target_width st
    = Some (result, st2)
    /\ st2 !! watermark = Some (faded opacity wm).
Proof.
  intros Eb Ew Em L4 Hw Ho.
  assert (well_formed wm) as WF by (intros _; exact L4).
  assert (scale_accepts wm (effective_target_width target_width) = true) as Acc.
  { unfold scale_accepts. apply orb_true_iff. left. lia. }
  destruct (apply_watermark_spec st base_image watermark base wm position
              opacity margin target_width Eb Ew WF Acc)
    as (r & st1 & w1 & b & result & st2 & R & E1 & Eb1 & A & -> & ->).
  destruct (prepare_watermark_spec st watermark wm opacity target_width Ew WF Acc)
    as (r' & st1' & w1' & R' & E1' & _ & _ & _ & Same).
  rewrite R in R'. injection R' as <- <-. rewrite E1 in E1'. injection E1' as <-.
  destruct (Same Em Hw) as [-> ->].
  assert ((opacity <? 100) = true) as Ho' by lia. rewrite Ho' in E1.
  eexists _, _. split; [exact A|]. now apply lookup_old.
Qed.

End StoreFacts.

Section Evaluations.
Import Samples Reference.

Lemma resize_maintain_aspect_fits_witness :
  exists out,
    resize_maintain_aspect 0%nat 400 [wide] = Some (1%nat, [wide] ++ [out])
    /\ size out = (400, 200).
Proof.
  destruct (resize_maintain_aspect_fits [wide] 0%nat wide 400)
    as (_ & R); [reflexivity | cbn; lia | cbn; lia |].
  destruct R as (out & E & _ & S & _); [cbn; lia | vm_compute; discriminate |].
  exists out. split; [exact E | exact S].
Defined.

(** C3 (as stated, refuted): a 1000x1 image does not fit into 100 pixels,
    and the call returns no image: the shorter side would be the
    truncation of 100 * 1 / 1000, which is 0, and [resize] raises. *)
Lemma resize_maintain_aspect_thin_image_raises :
  Z.max (width thin) (height thin) > 100
  /\ fitted_size (width thin) (height thin) 100 = (100, 0)
  /\ resize_maintain_aspect 0%nat 100 [thin] = None.
Proof. split; [reflexivity|]. split; vm_compute; reflexivity. Qed.

Lemma apply_watermark_never_upscales_witness :
  exists prepared st1 pasted,
    prepare_watermark 1%nat 80 10 [photo; banner] = Some (prepared, st1)
    /\ st1 !! prepared = Some pasted
    /\ 29 <= width pasted <= 30.
Proof.
  destruct (apply_watermark_never_upscales
              [photo; banner] 0%nat 1%nat photo banner "BR" 80 25 10)
    as (_ & _ & R & _);
    [reflexivity | reflexivity | intros _; reflexivity | cbn; lia |].
  destruct R as (prepared & st1 & pasted & b & result & P & E & _ & _ & _ & S & _);
    [right; vm_compute; discriminate |].
  exists prepared, st1, pasted. split; [exact P|]. split; [exact E|].
  apply S. vm_compute. reflexivity.
Defined.

(** A flat watermark: 100 pixels wide and 1 high, it is to be scaled to
    30 pixels; its height would become 0 and the call raises. *)
Lemma apply_watermark_flat_watermark_raises :
  scaled_size (width ribbon) (height ribbon) 30 = (30, 0)
  /\ apply_watermark 0%nat 1%nat "TL" 100 0 30 [photo; ribbon] = None.
Proof. split; vm_compute; reflexivity. Qed.

(** C5 (the code at the failing input): the batch holds one RGBA logo,
    2 pixels wide, for all files.  Watermarking a photograph with it at
    opacity 50 and target width 200 leaves the photograph as it was, but
    the alpha band of the logo object itself goes from [255; 128] to
    [127; 64]; the next call with the same object takes it to [63; 32]. *)
Theorem apply_watermark_fades_shared_watermark :
  exists result st1 result2 st2,
    apply_watermark 0%nat 1%nat "BR" 50 0 200 [photo; logo] = Some (result, st1)
    /\ st1 !! 0%nat = Some photo
    /\ st1 !! 1%nat = Some logo_faded_once
    /\ logo_faded_once <> logo
    /\ apply_watermark 0%nat 1%nat "BR" 50 0 200 st1 = Some (result2, st2)
    /\ st2 !! 1%nat = Some logo_faded_twice.
Proof.
  eexists _, _, _, _. split; [vm_compute; reflexivity|].
  split; [reflexivity|]. split; [reflexivity|]. split; [discriminate|].
  split; [vm_compute; reflexivity|]. reflexivity.
Qed.

End Evaluations.

(* ===================================================================== *)
(** * Path validation and the entry points *)
(* ===================================================================== *)

Section Validation.

Lemma strip_prefix_app (pre rest : list string) :
  strip_prefix pre (pre ++ rest) = Some rest.
Proof.
  induction pre as [|p pre IH]; cbn; [reflexivity|].
  now rewrite String.eqb_refl.
Qed.

Lemma relative_to_inside (output_dir input_dir : Path) :
  inside output_dir input_dir -> is_Some (relative_to output_dir input_dir).
Proof.
  intros [Ea [rest En]]. unfold relative_to.
  rewrite Ea, String.eqb_refl, En, strip_prefix_app. eauto.
Qed.


(** C10 (amended): for an existing watermark file whose suffix does not
    lowercase to [.png], [validate_paths] answers invalid.  The message is
    "Watermark must be a PNG file" when the input directory exists; when
    it does not, the earlier check answers "Input directory does not
    exist".  Neither entry point starts the batch: the window shows the
    message and returns, the command line prints it and exits with
    status 1. *)
Theorem non_png_watermark_rejected (fs : gmap Path Node)
    (input_dir output_dir watermark_file : Path) :
  is_file fs watermark_file = true ->
  lower (suffix watermark_file) <> ".png" ->
  fst (validate_paths fs input_dir output_dir watermark_file) = false
  /\ (is_dir fs input_dir = true ->
      validate_paths fs input_dir output_dir watermark_file
      = (false, "Watermark must be a PNG file"))
  /\ (is_dir fs input_dir = false ->
      validate_paths fs input_dir output_dir watermark_file
      = (false, "Input directory does not exist"))
  /\ (forall (run_batch : Path -> Path -> Path -> World -> Outcome * World)
             (w : World),
        files w = fs ->
        let error_msg :=
          snd (validate_paths fs input_dir output_dir watermark_file) in
        start_processing run_batch input_dir output_dir watermark_file w
        = (Returned, mkWorld (files w) (opened w) (messages w ++ [error_msg]))
        /\ cli_run run_batch input_dir output_dir watermark_file w
           = (Exited 1, mkWorld (files w) (opened w)
                                (messages w ++ [("Error: " ++ error_msg)%string]))).
Proof.
  intros Hf Hs.
  assert (fst (validate_paths fs input_dir output_dir watermark_file) = false)
    as V.
  { unfold validate_paths. rewrite Hf. cbn [negb].
    destruct (String.eqb_spec (lower (suffix watermark_file)) ".png");
      [contradiction|]. cbn [negb].
    now destruct (is_dir fs input_dir). }
  split; [exact V|]. split; [|split].
  - intros Hd. unfold validate_paths. rewrite Hd, Hf. cbn [negb].
    now destruct (String.eqb_spec (lower (suffix watermark_file)) ".png").
  - intros Hd. unfold validate_paths. now rewrite Hd.
  - intros run_batch w <-. unfold start_processing, cli_run.
    destruct (validate_paths (files w) input_dir output_dir watermark_file)
      as [is_valid msg].
    cbn [fst snd] in *. subst is_valid. now split.
Qed.

(** A watermark is accepted only with a suffix that lowercases to
    [.png]. *)
Lemma validate_paths_accepts_png_only (fs : gmap Path Node)
    (input_dir output_dir watermark_file : Path) :
  fst (validate_paths fs input_dir output_dir watermark_file) = true ->
  lower (suffix watermark_file) = ".png".
Proof.
  unfold validate_paths.
  destruct (is_dir fs input_dir); cbn [negb]; [|discriminate].
  destruct (is_file fs watermark_file); cbn [negb]; [|discriminate].
  destruct (String.eqb_spec (lower (suffix watermark_file)) ".png");
    cbn [negb]; [auto|discriminate].
Qed.

End Validation.

Section ValidationEvaluations.
Import SamplePaths.



(** C10 (as stated, refuted): with an existing [.webp] watermark and no
    input directory, the answer is invalid but the message is the one of
    the input-directory check. *)
Lemma non_png_watermark_message_depends_on_input :
  is_file tree_without_input logo_webp = true
  /\ lower (suffix logo_webp) = ".webp"
  /\ validate_paths tree_without_input photos out logo_webp
     = (false, "Input directory does not exist")
  /\ snd (validate_paths tree_without_input photos out logo_webp)
     <> "Watermark must be a PNG file".
Proof. vm_compute. repeat split; try reflexivity. discriminate. Qed.

Lemma non_png_watermark_rejected_witness :
  validate_paths tree photos out logo_webp = (false, "Watermark must be a PNG file").
Proof.
  apply (non_png_watermark_rejected tree photos out logo_webp).
  - vm_compute. reflexivity.
  - vm_compute. discriminate.
  - vm_compute. reflexivity.
Defined.
End ValidationEvaluations.

(* ===================================================================== *)
(** * Discovery *)
(* ===================================================================== *)

Section Discovery.

Lemma supported_split (guard : DirEntry -> bool) (entries : list DirEntry) :
  length (List.filter (supported guard) entries)
  = (length (List.filter (decodable guard) entries)
     + length (List.filter (undecodable guard) entries))%nat.
Proof.
  induction entries as [|e entries IH]; [reflexivity|].
  unfold decodable, undecodable in *. cbn [List.filter].
  destruct (supported guard e), (entry_opens e); cbn; lia.
Qed.

(** A scan that stays below the cap visits every entry. *)
Lemma scan_below_cap (guard : DirEntry -> bool) (entries : list DirEntry)
    (images : list Path) (ignored : nat) :
  (length images + length (List.filter (decodable guard) entries)
   < MAX_BATCH_SIZE)%nat ->
  scan guard entries (images, ignored)
  = (images ++ map entry_path (List.filter (decodable guard) entries),
     (ignored + length (List.filter (undecodable guard) entries)
      + length (List.filter (known_unsupported guard) entries))%nat).
Proof.
  revert images ignored.
  induction entries as [|e entries IH]; intros images ignored Hcap.
  - cbn [scan List.filter map length]. rewrite app_nil_r. f_equal. lia.
  - cbn [scan List.filter].
    unfold decodable, undecodable, known_unsupported, supported, classify in *.
    cbn [List.filter] in Hcap.
    destruct (guard e); cbn [andb] in *.
    + destruct (mem (lower (suffix (entry_path e))) SUPPORTED_FORMATS);
        cbn [andb negb] in *.
      * destruct (entry_opens e); cbn [andb negb fst length map] in *.
        -- assert ((MAX_BATCH_SIZE <=? length (images ++ [entry_path e]))%nat = false)
             as -> by (apply Nat.leb_gt; rewrite length_app; cbn [length]; lia).
           rewrite IH by (rewrite length_app; cbn [length]; lia).
           rewrite <- app_assoc. reflexivity.
        -- assert ((MAX_BATCH_SIZE <=? length images)%nat = false)
             as -> by (apply Nat.leb_gt; lia).
           rewrite IH by lia. f_equal. cbn [length]. lia.
      * destruct (mem (lower (suffix (entry_path e))) KNOWN_UNSUPPORTED);
          cbn [andb negb fst length map] in *.
        -- assert ((MAX_BATCH_SIZE <=? length images)%nat = false)
             as -> by (apply Nat.leb_gt; lia).
           rewrite IH by lia. f_equal. cbn [length]. lia.
        -- assert ((MAX_BATCH_SIZE <=? length images)%nat = false)
             as -> by (apply Nat.leb_gt; lia).
           rewrite IH by lia. reflexivity.
    + cbn [fst]. assert ((MAX_BATCH_SIZE <=? length images)%nat = false)
        as -> by (apply Nat.leb_gt; lia).
      rewrite IH by lia. reflexivity.
Qed.

(** C9 (amended): take a directory, the entries the scan visits in the
    chosen mode, the [n] of them that are files with a supported
    extension and the [k] of those that fail to open.  If [n - k] is
    below [MAX_BATCH_SIZE] the scan returns exactly the [n - k] files that
    open, in traversal order, and an ignored count of [k] plus the number
    of files with a known unsupported extension, hence at least [k].  The
    scan is a total function: a file that fails to open only adds to the
    count. *)
Theorem find_supported_images_below_cap (d : DirectoryView) (max_depth : Z)
    (include_subfolders : bool) :
  let guard := visited (dir_path d) max_depth include_subfolders in
  let entries := if include_subfolders then dir_rglob d else dir_iterdir d in
  let n := length (List.filter (supported guard) entries) in
  let k := length (List.filter (undecodable guard) entries) in
  dir_is_dir d = true ->
  (n - k < MAX_BATCH_SIZE)%nat ->
  let result := find_supported_images d max_depth include_subfolders in
  fst result = map entry_path (List.filter (decodable guard) entries)
  /\ length (fst result) = (n - k)%nat
  /\ (k <= snd result)%nat
  /\ snd result = (k + length (List.filter (known_unsupported guard) entries))%nat.
Proof.
  intros guard entries n k Hd Hcap result.
  pose proof (supported_split guard entries) as Hs. fold n k in Hs.
  unfold result, find_supported_images. rewrite Hd. cbn [negb].
  fold guard entries.
  rewrite scan_below_cap by (cbn [length]; lia).
  cbn [fst snd app]. rewrite length_map. fold k.
  repeat split; lia.
Qed.

End Discovery.

Section DiscoveryEvaluations.
Import SampleDirectories.

(** C9 (as stated, refuted): a directory with 5001 decodable PNG files
    yields 5000 assets, not 5001. *)
Lemma find_supported_images_stops_at_cap :
  let guard := visited (dir_path crowded) MAX_DIRECTORY_DEPTH false in
  length (List.filter (supported guard) (dir_iterdir crowded)) = 5001%nat
  /\ length (List.filter (undecodable guard) (dir_iterdir crowded)) = 0%nat
  /\ length (fst (find_supported_images crowded MAX_DIRECTORY_DEPTH false)) = 5000%nat
  /\ Nat.eqb (length (fst (find_supported_images crowded MAX_DIRECTORY_DEPTH false)))
              (5001 - 0) = false.
Proof. vm_compute. repeat split; reflexivity. Qed.

Lemma find_supported_images_below_cap_witness :
  find_supported_images mixed MAX_DIRECTORY_DEPTH true
  = ([mkPath "" ["photos"; "a.jpg"]; mkPath "" ["photos"; "b.webp"]], 2%nat).
Proof.
  pose proof (find_supported_images_below_cap mixed MAX_DIRECTORY_DEPTH true
                eq_refl) as T.
  cbv zeta in T. destruct T as (I & _ & _ & G).
  { vm_compute. lia. }
  destruct (find_supported_images mixed MAX_DIRECTORY_DEPTH true) as [images ignored].
  cbn [fst snd] in *. subst. vm_compute. reflexivity.
Defined.
End DiscoveryEvaluations.

(* ===================================================================== *)
(** * Collection of results *)
(* ===================================================================== *)

Section SchedulerFacts.
Variable task : Path -> ProcessingResult.

Lemma lookup_all_from (pre l : list Path) :
  omap (fun i => (pre ++ l) !! i) (seq (length pre) (length l)) = l.
Proof.
  revert pre. induction l as [|x l IH]; intros pre; [reflexivity|].
  cbn [length seq omap list_omap].
  rewrite lookup_app_r by lia. rewrite Nat.sub_diag. cbn.
  f_equal. specialize (IH (pre ++ [x])).
  rewrite <- app_assoc, length_app in IH. cbn in IH.
  now rewrite Nat.add_1_r in IH.
Qed.

Lemma as_completed_lookup (files : list Path) (completion : list nat) :
  as_completed (submit_all files) completion
  = omap (fun i => files !! i) completion.
Proof.
  unfold as_completed, submit_all.
  induction completion as [|i completion IH]; [reflexivity|].
  cbn [omap list_omap]. rewrite list_lookup_imap.
  destruct (files !! i); cbn; now rewrite <- IH.
Qed.

(** Every submitted future is yielded once. *)
Lemma as_completed_all (files : list Path) (completion : list nat) :
  completion ≡ₚ seq 0 (length files) ->
  as_completed (submit_all files) completion ≡ₚ files.
Proof.
  intros P. rewrite as_completed_lookup, P.
  pose proof (lookup_all_from [] files) as E. cbn in E. now rewrite E.
Qed.

Lemma first_stop_le (stop_set : nat -> bool) (i n : nat) :
  (first_stop stop_set i n <= n)%nat.
Proof.
  revert i. induction n as [|n IH]; intros i; cbn; [lia|].
  destruct (stop_set i); [lia|]. specialize (IH (S i)). lia.
Qed.

Lemma first_stop_never (stop_set : nat -> bool) (i n : nat) :
  (forall j, stop_set j = false) -> first_stop stop_set i n = n.
Proof.
  intros Hn. revert i. induction n as [|n IH]; intros i; cbn; [reflexivity|].
  now rewrite Hn, IH.
Qed.

Lemma collect_spec (stop_set : nat -> bool) (i : nat) (finished : list Path)
    (results : list ProcessingResult) (count : nat) :
  let k := first_stop stop_set i (length finished) in
  collect task stop_set i finished results count
  = (results ++ map task (take k finished), (count + k)%nat).
Proof.
  revert i results count.
  induction finished as [|file rest IH]; intros i results count; cbn.
  - rewrite app_nil_r. f_equal. lia.
  - destruct (stop_set i).
    + cbn. rewrite app_nil_r. f_equal. lia.
    + rewrite IH. cbn. rewrite <- app_assoc. cbn. f_equal. lia.
Qed.

(** C6 (amended): all files are submitted before any result is looked
    at.  Whatever the completion order, the loop keeps the rows of the
    tasks it consumed before it first saw the stop flag set, and nothing
    else: at most one row per file.  If the flag is never set the rows
    are those of all the files, one each. *)
Theorem collected_results (files : list Path) (completion : list nat)
    (stop_set : nat -> bool) :
  completion ≡ₚ seq 0 (length files) ->
  let run := run_pool task files completion stop_set in
  let submitted := fst run in
  let results := fst (snd run) in
  let processed_count := snd (snd run) in
  let finished := as_completed (submit_all files) completion in
  let k := first_stop stop_set 0 (length finished) in
  submitted = files
  /\ finished ≡ₚ files
  /\ results = map task (take k finished)
  /\ processed_count = length results
  /\ (length results <= length files)%nat
  /\ ((forall i, stop_set i = false) ->
      results ≡ₚ map task files /\ length results = length files).
Proof.
  intros P run submitted results processed_count finished k.
  pose proof (as_completed_all files completion P) as Hall. fold finished in Hall.
  assert (length finished = length files) as Hlen by now rewrite Hall.
  pose proof (first_stop_le stop_set 0 (length finished)) as Hk. fold k in Hk.
  assert (results = map task (take k finished) /\ processed_count = k) as [Hr Hc].
  { unfold results, processed_count, run, run_pool. cbn [fst snd].
    fold finished. rewrite collect_spec. fold k. cbn. split; reflexivity. }
  assert (length results = k) as Hlr.
  { rewrite Hr, length_map, length_take. lia. }
  split.
  { unfold submitted, run, run_pool, submit_all. cbn [fst].
    change (snd <$> imap (fun i file => (i, file)) files = files).
    rewrite fmap_imap, (imap_ext _ (const id)) by reflexivity.
    now rewrite imap_const, list_fmap_id. }
  split; [exact Hall|]. split; [exact Hr|]. split; [lia|]. split; [lia|].
  intros Hn. unfold k in Hr, Hlr.
  rewrite first_stop_never in Hr, Hlr by exact Hn.
  rewrite firstn_all in Hr. split; [|lia].
  rewrite Hr. now rewrite Hall.
Qed.
End SchedulerFacts.

Section SchedulerEvaluations.
Import SampleRun.

(** C6 (as stated, refuted): two files are submitted; [b.jpg] finishes
    first and its row is collected; the flag is set before the loop looks
    again, and the row of [a.jpg], submitted before the flag was seen, is
    not collected. *)
Lemma cancelled_run_drops_finished_work :
  let run := run_pool succeed [a_jpg; b_jpg] [1%nat; 0%nat] cancelled_after_one in
  fst run = [a_jpg; b_jpg]
  /\ fst (snd run) = [succeed b_jpg]
  /\ ~ In (succeed a_jpg) (fst (snd run)).
Proof.
  vm_compute. split; [reflexivity|]. split; [reflexivity|].
  intros [C|[]]. discriminate C.
Qed.

Lemma collected_results_witness :
  fst (snd (run_pool succeed [a_jpg; b_jpg] [1%nat; 0%nat] never_cancelled))
  ≡ₚ map succeed [a_jpg; b_jpg].
Proof.
  pose proof (collected_results succeed [a_jpg; b_jpg] [1%nat; 0%nat]
                never_cancelled) as T.
  cbv zeta in T. destruct T as (_ & _ & _ & _ & _ & F).
  { cbn. apply Permutation_swap. }
  apply F. reflexivity.
Defined.
End SchedulerEvaluations.

(* ===================================================================== *)
(** * Conflict handling *)
(* ===================================================================== *)

Section ConflictFacts.
Context `{Pixels} `{Codec}.

Lemma mkdir_from_keeps (a : string) (done todo : list string)
    (files files' : gmap Path Node) (p : Path) (n : Node) :
  mkdir_from a done todo files = Some files' ->
  files !! p = Some n -> files' !! p = Some n.
Proof.
  revert done files. induction todo as [|c todo IH]; intros done files M E.
  - cbn in M. now injection M as <-.
  - cbn in M. destruct (files !! mkPath a (done ++ [c])) as [[|d]|] eqn:Ec;
      [eauto | discriminate |].
    apply (IH _ _ M). rewrite lookup_insert_ne; [exact E|].
    intros <-. congruence.
Qed.

(** In skip mode, when the existence check answers yes, nothing is saved:
    the only change to the file system is the directories that [mkdir]
    made, and the list of saved files is the placeholder. *)
Lemma save_outputs_skips (settings : Settings) (file_path output_path : Path)
    (watermarked : ref) (exif_data : option (list Z)) (s : PState)
    (files' : gmap Path Node) :
  mkdir_from (anchor (parent output_path)) [] (names (parent output_path)) (fs s)
  = Some files' ->
  _check_file_exists files' output_path (main_format settings)
    (extra_format settings) = true ->
  s_overwrite_mode settings = "skip" ->
  save_outputs settings file_path output_path watermarked exif_data s
  = (inr ["SKIPPED - File exists"], mkPState files' (objs s))
  /\ (forall p n, fs s !! p = Some n -> files' !! p = Some n).
Proof.
  intros M C S. split.
  - unfold save_outputs, ebind, mkdir_parents. rewrite M.
    cbn [fs objs]. rewrite C, S. reflexivity.
  - intros p n. now apply mkdir_from_keeps with (1 := M).
Qed.
End ConflictFacts.

Section ConflictEvaluations.
Import Samples SampleBatch Reference.

(** C8 (the code at the failing input): conflict mode is skip, the
    primary format is JPEG and [out/a.jpg] exists; the source is a JPEG
    file with EXIF data.  The existence check looks for [out/a.jpeg] and
    answers no; the task then saves over [out/a.jpg] and reports SUCCESS
    with output file [out/a.jpeg]. *)
Theorem skip_mode_overwrites_jpeg :
  let run := process_single_file (skip_to "JPEG") photos out 0%nat
               "2025-07-15T10:00:00" a_jpg before in
  fs before !! out_a_jpg = Some (RegularFile earlier_jpg)
  /\ s_overwrite_mode (skip_to "JPEG") = "skip"
  /\ _check_file_exists (fs before) (mkPath "" ["out"; "a"]) (Some "JPEG") None = false
  /\ status (fst run) = "SUCCESS"
  /\ output_file (fst run) = "out/a.jpeg"
  /\ (exists im, fs (snd run) !! out_a_jpg
                 = Some (RegularFile (Saved "JPEG" im (exif snapshot)))).
Proof.
  cbv zeta. split; [vm_compute; reflexivity|]. split; [reflexivity|].
  split; [vm_compute; reflexivity|]. split; [vm_compute; reflexivity|].
  split; [vm_compute; reflexivity|].
  eexists. vm_compute. reflexivity.
Qed.

(** The same task on the PNG source, which has no EXIF data: the check
    misses [out/a.jpg] in the same way, the JPEG writer is called with
    [exif=None] and raises, and the file that was to be kept is left
    empty; the row is an ERROR. *)
Lemma skip_mode_empties_jpeg :
  let run := process_single_file (skip_to "JPEG") photos out 0%nat
               "2025-07-15T10:00:00" a_png before in
  status (fst run) = "ERROR"
  /\ output_file (fst run) = ""
  /\ fs (snd run) !! out_a_jpg = Some (RegularFile (Bytes [])).
Proof.
  cbv zeta. split; [vm_compute; reflexivity|]. split; vm_compute; reflexivity.
Qed.

(** With PNG as primary format the same task skips: the check looks for
    [out/a.png], the row carries the placeholder and both files are as
    before. *)
Lemma skip_mode_keeps_png :
  let run := process_single_file (skip_to "PNG") photos out 0%nat
               "2025-07-15T10:00:00" a_png before in
  _check_file_exists (fs before) (mkPath "" ["out"; "a"]) (Some "PNG") None = true
  /\ status (fst run) = "SUCCESS"
  /\ output_file (fst run) = "SKIPPED - File exists"
  /\ fs (snd run) !! out_a_png = Some (RegularFile earlier_png)
  /\ fs (snd run) !! out_a_jpg = Some (RegularFile earlier_jpg).
Proof.
  cbv zeta. split; [vm_compute; reflexivity|]. split; [vm_compute; reflexivity|].
  split; [vm_compute; reflexivity|]. split; vm_compute; reflexivity.
Qed.
End ConflictEvaluations.

(* ===================================================================== *)
(** * Placement and fading *)
(* ===================================================================== *)

Section Placement.

(** X1: each cell (row, column) of the 3x3 position grid of the window
    carries a code that [apply_watermark] decodes to that cell: the column
    decides the horizontal offset and the row the vertical one, each being
    the margin, the centre, or the margin from the far edge. *)
Theorem anchor_grid_decodes (row col : nat) (code : string) (margin : Z)
    (base_size wm_size : Z * Z) :
  In ((row, col), code) ANCHOR_POSITIONS ->
  anchor_offset code margin base_size wm_size
  = (cell_offset col margin (fst base_size) (fst wm_size),
     cell_offset row margin (snd base_size) (snd wm_size)).
Proof.
  intros Hin. destruct base_size as [bw bh], wm_size as [ww wh].
  cbn in Hin.
  repeat (destruct Hin as [Hin|Hin]; [injection Hin as <- <- <-; reflexivity|]).
  destruct Hin.
Qed.

Lemma anchor_grid_decodes_witness :
  anchor_offset "BR" 25 (1000, 500) (300, 100) = (675, 375).
Proof. apply (anchor_grid_decodes 2 2 "BR" 25 (1000, 500) (300, 100)). cbn. tauto. Defined.

(** X2: with a non-negative margin, if the watermark and the margin fit
    into the base image on both axes, then for every position string the
    pasted rectangle lies inside the base image. *)
Theorem anchor_offset_inside (position : string) (margin : Z)
    (base_width base_height wm_width wm_height : Z) :
  0 <= margin -> 0 <= wm_width -> 0 <= wm_height ->
  wm_width + margin <= base_width -> wm_height + margin <= base_height ->
  let (x, y) := anchor_offset position margin (base_width, base_height)
                  (wm_width, wm_height) in
  0 <= x /\ x + wm_width <= base_width /\ 0 <= y /\ y + wm_height <= base_height.
Proof.
  intros Hm Hw Hh Hfw Hfh. unfold anchor_offset.
  pose proof (Z.div_pos (base_width - wm_width) 2 ltac:(lia) ltac:(lia)).
  pose proof (Z.div_pos (base_height - wm_height) 2 ltac:(lia) ltac:(lia)).
  pose proof (Z.div_le_upper_bound (base_width - wm_width) 2
                (base_width - wm_width) ltac:(lia) ltac:(lia)).
  pose proof (Z.div_le_upper_bound (base_height - wm_height) 2
                (base_height - wm_height) ltac:(lia) ltac:(lia)).
  destruct (contains "L" position), (contains "R" position),
    (contains "T" position), (contains "B" position); lia.
Qed.

Lemma anchor_offset_inside_witness :
  let (x, y) := anchor_offset "TC" 25 (1000, 500) (300, 100) in
  0 <= x /\ x + 300 <= 1000 /\ 0 <= y /\ y + 100 <= 500.
Proof. apply (anchor_offset_inside "TC" 25 1000 500 300 100); lia. Defined.

(** X3: on an axis where the position names no edge the watermark is
    centred: the offset does not depend on the margin, and the gap after
    the watermark exceeds the gap before it by at most one pixel. *)
Theorem anchor_offset_centres (position : string) (margin : Z)
    (base_width base_height wm_width wm_height : Z) :
  let at_margin m := anchor_offset position m (base_width, base_height)
                       (wm_width, wm_height) in
  (contains "L" position = false -> contains "R" position = false ->
   let x := fst (at_margin margin) in
   x = fst (at_margin 0)
   /\ 0 <= (base_width - (x + wm_width)) - x <= 1)
  /\ (contains "T" position = false -> contains "B" position = false ->
      let y := snd (at_margin margin) in
      y = snd (at_margin 0)
      /\ 0 <= (base_height - (y + wm_height)) - y <= 1).
Proof.
  cbv zeta. unfold anchor_offset. split.
  - intros -> ->. cbn [fst].
    pose proof (Z.div_mod (base_width - wm_width) 2 ltac:(lia)).
    pose proof (Z.mod_pos_bound (base_width - wm_width) 2 ltac:(lia)).
    split; [reflexivity | lia].
  - intros -> ->. cbn [snd].
    pose proof (Z.div_mod (base_height - wm_height) 2 ltac:(lia)).
    pose proof (Z.mod_pos_bound (base_height - wm_height) 2 ltac:(lia)).
    split; [reflexivity | lia].
Qed.

Lemma lookup_table_nth (f : Z -> Z) (v : Z) :
  0 <= v <= 255 -> apply_table (lookup_table f) v = clip8 (f v).
Proof.
  intros Hv. unfold apply_table, lookup_table.
  rewrite (nth_indep _ 0 (clip8 (f (Z.of_nat 0))))
    by (rewrite length_map, length_seq; lia).
  rewrite (map_nth (fun i => clip8 (f (Z.of_nat i)))).
  rewrite seq_nth by lia. do 2 f_equal. lia.
Qed.

(** X4: for an opacity between 0 and 100, the table that [point] builds
    from the fading function sends an alpha sample v of 0..255 to the
    floor of v * opacity / 100, which lies between 0 and v. *)
Theorem fade_scales_alpha (opacity v : Z) :
  0 <= opacity <= 100 -> 0 <= v <= 255 ->
  apply_table (lookup_table (fade opacity)) v = v * opacity / 100
  /\ 0 <= apply_table (lookup_table (fade opacity)) v <= v.
Proof.
  intros Ho Hv. rewrite lookup_table_nth by exact Hv. unfold fade.
  rewrite py_int_truediv by nia.
  assert (0 <= v * opacity / 100) by (apply Z.div_pos; nia).
  assert (v * opacity / 100 <= v) by (apply Z.div_le_upper_bound; nia).
  unfold clip8. split; lia.
Qed.

Lemma fade_scales_alpha_witness :
  apply_table (lookup_table (fade 80)) 255 = 255 * 80 / 100
  /\ 0 <= apply_table (lookup_table (fade 80)) 255 <= 255.
Proof. apply (fade_scales_alpha 80 255); lia. Defined.
End Placement.

(* ===================================================================== *)
(** * The objects that apply_watermark touches *)
(* ===================================================================== *)

Section WatermarkObjects.
Context `{Pixels}.

(** When the watermark is converted or resized, the object that is pasted
    is a new one. *)
Lemma prepare_watermark_fresh (st : store) (watermark : ref) (wm : Image)
    (opacity target_width : Z) :
  st !! watermark = Some wm -> well_formed wm ->
  scale_accepts wm (effective_target_width target_width) = true ->
  mode wm <> "RGBA" \/ effective_target_width target_width < width wm ->
  exists r st1,
    prepare_watermark watermark opacity target_width st = Some (r, st1)
    /\ st !! r = None
    /\ preserves (Some r) st st1.
Proof.
  intros E WF Acc Hc.
  destruct (prepare_watermark_spec st watermark wm opacity target_width E WF Acc)
    as (r & st1 & w1 & R & E1 & S & P & F & _).
  exists r, st1. split; [exact R|]. split; [|exact P].
  destruct F as [->|N]; [|exact N]. exfalso.
  (* the pasted object is the one passed in: no conversion, no resize *)
  unfold prepare_watermark in R.
  destruct (ensure_rgba_spec st watermark wm E WF)
    as (r1 & st1' & wm1 & R1 & E1' & S1 & B1 & P1 & F1).
  rewrite (bind_Some _ _ _ _ _ R1) in R.
  assert (scale_accepts wm1 (effective_target_width target_width) = true) as A1.
  { unfold scale_accepts, width, height in *. now rewrite S1. }
  destruct (scale_watermark_spec st1' r1 wm1
              (effective_target_width target_width) E1' A1)
    as (r2 & st2 & wm2 & R2 & E2 & S2 & B2 & P2 & F2).
  rewrite (bind_Some _ _ _ _ _ R2) in R.
  destruct (apply_opacity_spec st2 r2 wm2 opacity E2 ltac:(congruence))
    as (st3 & R3 & E3 & P3).
  rewrite (bind_Some _ _ _ _ _ R3) in R. injection R as -> ->.
  assert (r1 = watermark) as ->.
  { destruct F2 as [->|N2]; [reflexivity|].
    pose proof (preserves_other _ _ _ _ _ P1 ltac:(discriminate) E). congruence. }
  destruct Hc as [Hm|Hw].
  - unfold ensure_rgba in R1.
    rewrite (bind_Some _ _ _ _ _ (deref_Some _ _ _ E)) in R1.
    destruct (String.eqb_spec (mode wm) "RGBA"); [contradiction|].
    rewrite (convert_Some _ _ _ _ E) in R1. injection R1 as R1 _.
    apply lookup_lt_Some in E. lia.
  - assert (width wm1 = width wm) as Ww by (unfold width; now rewrite S1).
    unfold scale_watermark in R2.
    rewrite (bind_Some _ _ _ _ _ (deref_Some _ _ _ E1')) in R2.
    assert ((width wm1 >? effective_target_width target_width) = true) as G by lia.
    rewrite G in R2.
    unfold scale_accepts in A1.
    assert ((width wm1 <=? effective_target_width target_width) = false) as Hle
      by lia.
    rewrite Hle in A1. cbn [orb] in A1.
    rewrite (resize_Some _ _ _ _ E1' A1) in R2. injection R2 as R2 _.
    apply lookup_lt_Some in E1'. lia.
Qed.

(** X5: for a well-formed watermark that the scale step accepts (it is
    narrow enough to stay as it is, or its scaled size has no side below
    1), [apply_watermark] succeeds and leaves the watermark object it was
    given as it was whenever the opacity is at least 100, or the watermark
    is not RGBA (it is converted to a new object), or it is wider than the
    effective target width (it is resized to a new object). *)
Theorem apply_watermark_keeps_watermark (st : store) (base_image watermark : ref)
    (base wm : Image) (position : string) (opacity margin target_width : Z) :
  st !! base_image = Some base -> st !! watermark = Some wm -> well_formed wm ->
  scale_accepts wm (effective_target_width target_width) = true ->
  100 <= opacity \/ mode wm <> "RGBA"
    \/ effective_target_width target_width < width wm ->
  exists result st2,
    apply_watermark base_image watermark position opacity margin target_width st
    = Some (result, st2)
    /\ st2 !! watermark = Some wm.
Proof.
  intros Eb Ew WF Acc Hc.
  destruct (apply_watermark_spec st base_image watermark base wm position
              opacity margin target_width Eb Ew WF Acc)
    as (r & st1 & w1 & b & result & st2 & R & E1 & Eb1 & A & -> & ->).
  exists (length st1). eexists. split; [exact A|]. apply lookup_old.
  destruct (String.eqb_spec (mode wm) "RGBA") as [Em|Em];
    [destruct (Z_le_gt_dec (width wm) (effective_target_width target_width))
       as [Hw|Hw]|].
  - (* the object itself is pasted, and the opacity step is skipped *)
    assert (100 <= opacity) as Ho by (destruct Hc as [?|[?|?]]; [lia|tauto|lia]).
    destruct (prepare_watermark_spec st watermark wm opacity target_width Ew WF Acc)
      as (r' & st1' & w1' & R' & E1' & _ & _ & _ & Same).
    rewrite R in R'. injection R' as <- <-. rewrite E1 in E1'. injection E1' as <-.
    destruct (Same Em Hw) as [-> ->].
    assert ((opacity <? 100) = false) as Ho' by lia. now rewrite Ho' in E1.
  - destruct (prepare_watermark_fresh st watermark wm opacity target_width Ew WF
                Acc ltac:(right; lia)) as (r' & st1' & R' & N & P).
    rewrite R in R'. injection R' as <- <-.
    apply (preserves_other _ _ _ _ _ P); [congruence | exact Ew].
  - destruct (prepare_watermark_fresh st watermark wm opacity target_width Ew WF
                Acc ltac:(left; exact Em)) as (r' & st1' & R' & N & P).
    rewrite R in R'. injection R' as <- <-.
    apply (preserves_other _ _ _ _ _ P); [congruence | exact Ew].
Qed.

(** X6: when the base image and a well-formed watermark are different
    objects and the scale step accepts the watermark, [apply_watermark]
    returns an object that did not exist before, with the size, the mode
    and the EXIF entry of the base image; when the scale step does not
    accept it, the call raises. *)
Theorem apply_watermark_result_shape (st : store) (base_image watermark : ref)
    (base wm : Image) (position : string) (opacity margin target_width : Z) :
  st !! base_image = Some base -> st !! watermark = Some wm -> well_formed wm ->
  base_image <> watermark ->
  (scale_accepts wm (effective_target_width target_width) = true ->
   exists result st2 out,
     apply_watermark base_image watermark position opacity margin target_width st
     = Some (result, st2)
     /\ st !! result = None
     /\ st2 !! result = Some out
     /\ size out = size base /\ mode out = mode base /\ exif out = exif base)
  /\ (scale_accepts wm (effective_target_width target_width) = false ->
      apply_watermark base_image watermark position opacity margin target_width st
      = None).
Proof.
  intros Eb Ew WF D. split; [|now apply apply_watermark_raises]. intros Acc.
  destruct (apply_watermark_spec st base_image watermark base wm position
              opacity margin target_width Eb Ew WF Acc)
    as (r & st1 & w1 & b & result & st2 & R & E1 & Eb1 & A & -> & ->).
  destruct (prepare_watermark_spec st watermark wm opacity target_width Ew WF Acc)
    as (r' & st1' & w1' & R' & _ & _ & P & F & _).
  rewrite R in R'. injection R' as <- <-.
  assert (Some r <> Some base_image) as Dr.
  { intros [= ->]. destruct F as [->|N]; congruence. }
  pose proof (preserves_other _ _ _ _ _ P Dr Eb) as Eb2.
  rewrite Eb1 in Eb2. injection Eb2 as ->.
  eexists _, _, _. split; [exact A|]. split.
  { apply lookup_ge_None. destruct (st !! length st1) as [x|] eqn:Ex.
    - destruct (preserves_is_Some _ _ _ _ _ P Ex) as [y Ey].
      apply lookup_lt_Some in Ey. lia.
    - apply lookup_ge_None in Ex. exact Ex. }
  split; [apply lookup_new|]. cbn. repeat split.
Qed.

(** X7: for an image with sides between 1 and 2^26 that fits, or whose
    shorter side does not scale to 0, both sides of the result of
    [resize_maintain_aspect] are at most [max_dimension], and a second
    call with the same bound on the result is a plain copy. *)
Theorem resize_maintain_aspect_settles (st : store) (image : ref) (im : Image)
    (max_dimension : Z) :
  st !! image = Some im ->
  1 <= width im < 2 ^ 26 -> 1 <= height im < 2 ^ 26 -> 0 <= max_dimension ->
  Z.max (width im) (height im) <= max_dimension
    \/ 1 <= max_dimension * Z.min (width im) (height im)
              / Z.max (width im) (height im) ->
  exists out,
    resize_maintain_aspect image max_dimension st = Some (length st, st ++ [out])
    /\ width out <= max_dimension /\ height out <= max_dimension
    /\ resize_maintain_aspect (length st) max_dimension (st ++ [out])
       = Some (S (length st), (st ++ [out]) ++ [out]).
Proof.
  intros E Hw Hh Hm Hok.
  assert (forall s r x, s !! r = Some x ->
            Z.max (width x) (height x) <= max_dimension ->
            resize_maintain_aspect r max_dimension s = Some (length s, s ++ [x]))
    as Hcopy.
  { intros s r x Ex Hx. unfold resize_maintain_aspect.
    rewrite (bind_Some _ _ _ _ _ (deref_Some _ _ _ Ex)).
    unfold width, height in Hx. destruct (size x) as [a b]. cbn [fst snd] in Hx.
    assert ((Z.max a b <=? max_dimension) = true) as -> by lia.
    apply (copy_Some _ _ _ Ex). }
  destruct (Z_le_gt_dec (Z.max (width im) (height im)) max_dimension) as [Hfit|Hbig].
  - exists im. rewrite (Hcopy _ _ _ E Hfit).
    split; [reflexivity|]. split; [lia|]. split; [lia|].
    rewrite (Hcopy _ _ _ (lookup_new st im) Hfit).
    now rewrite length_app, Nat.add_1_r.
  - destruct Hok as [Hfit|Hs]; [lia|].
    unfold resize_maintain_aspect at 1.
    rewrite (bind_Some _ _ _ _ _ (deref_Some _ _ _ E)).
    unfold width, height in *. destruct (size im) as [w h] eqn:Es.
    cbn [fst snd] in *.
    assert ((Z.max w h <=? max_dimension) = false) as -> by lia.
    rewrite fitted_size_spec by lia.
    assert (resizable (if w >=? h then (max_dimension, max_dimension * h / w)
                       else (max_dimension * w / h, max_dimension)) = true) as R.
    { unfold resizable.
      destruct (Z.geb_spec w h) as [G|G]; cbn [fst snd].
      - rewrite (Z.max_l w h), (Z.min_r w h) in Hs by lia.
        pose proof (scaled_side max_dimension h w Hm ltac:(lia)). lia.
      - rewrite (Z.max_r w h), (Z.min_l w h) in Hs by lia.
        pose proof (scaled_side max_dimension w h Hm ltac:(lia)). lia. }
    rewrite (resize_Some _ _ _ _ E R).
    set (out := mkImage _ _ _ _).
    assert (fst (size out) <= max_dimension /\ snd (size out) <= max_dimension)
      as [B1 B2].
    { unfold out. cbn [size].
      destruct (Z.geb_spec w h) as [G|G]; cbn [fst snd].
      - pose proof (scaled_side max_dimension h w Hm ltac:(lia)). lia.
      - pose proof (scaled_side max_dimension w h Hm ltac:(lia)). lia. }
    exists out. split; [reflexivity|]. split; [exact B1|]. split; [exact B2|].
    rewrite (Hcopy _ _ _ (lookup_new st out)) by (unfold width, height; lia).
    now rewrite length_app, Nat.add_1_r.
Qed.
End WatermarkObjects.

Section WatermarkObjectEvaluations.
Import Samples Reference.

Lemma apply_watermark_keeps_watermark_witness :
  exists result st2,
    apply_watermark 0%nat 1%nat "BR" 100 0 200 [photo; logo] = Some (result, st2)
    /\ st2 !! 1%nat = Some logo.
Proof.
  apply (apply_watermark_keeps_watermark [photo; logo] 0%nat 1%nat photo logo
           "BR" 100 0 200);
    [reflexivity | reflexivity | intros _; reflexivity | reflexivity | left; lia].
Defined.

Lemma apply_watermark_result_shape_witness :
  exists result st2 out,
    apply_watermark 0%nat 1%nat "BR" 50 0 200 [photo; logo] = Some (result, st2)
    /\ [photo; logo] !! result = None
    /\ st2 !! result = Some out
    /\ size out = size photo /\ mode out = mode photo /\ exif out = exif photo.
Proof.
  destruct (apply_watermark_result_shape [photo; logo] 0%nat 1%nat photo logo
              "BR" 50 0 200) as [R _];
    [reflexivity | reflexivity | intros _; reflexivity | lia |].
  apply R. reflexivity.
Defined.

Lemma resize_maintain_aspect_settles_witness :
  exists out,
    resize_maintain_aspect 0%nat 400 [wide] = Some (1%nat, [wide] ++ [out])
    /\ width out <= 400 /\ height out <= 400
    /\ resize_maintain_aspect 1%nat 400 ([wide] ++ [out])
       = Some (2%nat, ([wide] ++ [out]) ++ [out]).
Proof.
  apply (resize_maintain_aspect_settles [wide] 0%nat wide 400);
    [reflexivity | cbn; lia | cbn; lia | lia | right; vm_compute; discriminate].
Defined.
End WatermarkObjectEvaluations.

(* ===================================================================== *)
(** * Bounds on the target width *)
(* ===================================================================== *)

Section SizingBounds.

(** X8: for a fixed image the target width of the batch never shrinks
    when the scale percentage grows (scale between 1 and 100). *)
Theorem target_width_monotone_in_scale (w h s s' : Z) (auto_scale : bool) :
  1 <= w < 2 ^ 31 -> 1 <= h -> 1 <= s -> s <= s' -> s' <= 100 ->
  batch_target_width (w, h) s auto_scale <= batch_target_width (w, h) s' auto_scale.
Proof.
  intros Hw Hh Hs Hss Hs'.
  rewrite !batch_target_width_truncated by lia.
  unfold truncated_target_width.
  destruct auto_scale, (h >? w).
  - lia.
  - apply Z.max_le_compat_l, Z.div_le_mono; nia.
  - apply Z.max_le_compat_l, Z.div_le_mono; nia.
  - apply Z.max_le_compat_l, Z.div_le_mono; nia.
Qed.

Lemma target_width_monotone_in_scale_witness :
  batch_target_width (800, 600) 20 false <= batch_target_width (800, 600) 30 false.
Proof. apply (target_width_monotone_in_scale 800 600 20 30 false); lia. Defined.

(** X9: for a scale between 1 and 100 the target width is at most the
    larger of 40 and one and a half times the image width; in auto-scale
    mode and for images that are not portrait it is at most the larger of
    40 and the image width; for a portrait image at least 20 pixels wide,
    without auto-scale and with a scale of 70 or more, it exceeds the image
    width. *)
Theorem target_width_upper_bounds (w h s : Z) (auto_scale : bool) :
  1 <= w < 2 ^ 31 -> 1 <= h -> 1 <= s <= 100 ->
  let t := batch_target_width (w, h) s auto_scale in
  t <= Z.max 40 (3 * w / 2)
  /\ (auto_scale = true \/ h <= w -> t <= Z.max 40 w)
  /\ (auto_scale = false -> w < h -> 20 <= w -> 70 <= s -> w < t).
Proof.
  intros Hw Hh Hs t. unfold t.
  rewrite batch_target_width_truncated by lia.
  unfold truncated_target_width.
  assert (w / 2 <= w) by (apply Z.div_le_upper_bound; lia).
  assert (w <= 3 * w / 2) by (apply Z.div_le_lower_bound; lia).
  assert (Z.min w h * s / 100 <= w) by (apply Z.div_le_upper_bound; nia).
  assert (w * s / 100 <= w) by (apply Z.div_le_upper_bound; nia).
  assert (3 * (w * s) / 200 <= 3 * w / 2).
  { apply Z.div_le_lower_bound; [lia|].
    pose proof (Z.mul_div_le (3 * (w * s)) 200 ltac:(lia)). nia. }
  split; [|split].
  - destruct auto_scale, (h >? w); lia.
  - intros Hc. destruct auto_scale, (Z.gtb_spec h w); try lia.
    all: try (destruct Hc; [discriminate | lia]).
  - intros -> Hp H40 H67.
    assert ((h >? w) = true) as -> by lia.
    assert (w + 1 <= 3 * (w * s) / 200); [|lia].
    apply Z.div_le_lower_bound; nia.
Qed.

Lemma target_width_upper_bounds_witness :
  let t := batch_target_width (600, 800) 100 false in
  t <= Z.max 40 (3 * 600 / 2)
  /\ (false = true \/ 800 <= 600 -> t <= Z.max 40 600)
  /\ (false = false -> 600 < 800 -> 20 <= 600 -> 70 <= 100 -> 600 < t).
Proof. apply (target_width_upper_bounds 600 800 100 false); lia. Defined.

(** X10: the width that the three call sites pass to [apply_watermark]
    is at least 40, so the floor of 30 inside [apply_watermark] never
    changes it. *)
Theorem sizing_floor_dominates (image_size : Z * Z) (w h scale : Z)
    (auto_scale : bool) :
  (40 <= batch_target_width image_size scale auto_scale
   /\ effective_target_width (batch_target_width image_size scale auto_scale)
      = batch_target_width image_size scale auto_scale)
  /\ (40 <= cli_target_width image_size scale auto_scale
      /\ effective_target_width (cli_target_width image_size scale auto_scale)
         = cli_target_width image_size scale auto_scale)
  /\ (40 <= preview_target_width w h scale auto_scale
      /\ effective_target_width (preview_target_width w h scale auto_scale)
         = preview_target_width w h scale auto_scale).
Proof.
  unfold effective_target_width, batch_target_width, cli_target_width,
    preview_target_width.
  destruct image_size as [iw ih].
  destruct auto_scale, (ih >? iw), (h >? w); lia.
Qed.
End SizingBounds.

(* ===================================================================== *)
(** * Paths: relative_to, validate_paths and suffixes *)
(* ===================================================================== *)

Section PathFacts.

Lemma strip_prefix_Some (pre l rest : list string) :
  strip_prefix pre l = Some rest -> l = pre ++ rest.
Proof.
  revert l. induction pre as [|p pre IH]; intros l E; cbn in E.
  - now injection E as ->.
  - destruct l as [|x l]; [discriminate|].
    destruct (String.eqb_spec p x) as [->|]; [|discriminate].
    cbn. f_equal. now apply IH.
Qed.

(** When [relative_to] succeeds, the components are those of the base
    followed by those of the result. *)
Lemma relative_to_names (p base r : Path) :
  relative_to p base = Some r ->
  anchor p = anchor base /\ anchor r = "" /\ names p = names base ++ names r.
Proof.
  unfold relative_to. intros E.
  destruct (String.eqb_spec (anchor p) (anchor base)) as [Ea|]; [|discriminate].
  destruct (strip_prefix (names base) (names p)) as [rest|] eqn:Es; [|discriminate].
  injection E as <-. apply strip_prefix_Some in Es. now cbn.
Qed.

Lemma parse_parts_app (l k : list string) :
  parse_parts (l ++ k) = parse_parts l ++ parse_parts k.
Proof. unfold parse_parts. apply List.filter_app. Qed.

Lemma parse_parts_one (x : string) :
  x <> "" -> x <> "." -> parse_parts [x] = [x].
Proof.
  intros H0 H1. unfold parse_parts. cbn.
  destruct (String.eqb_spec x "") as [|_]; [contradiction|].
  destruct (String.eqb_spec x ".") as [|_]; [contradiction|]. reflexivity.
Qed.

Lemma parse_parts_dot : parse_parts ["."] = [].
Proof. reflexivity. Qed.

(** Joining a relative path: the components of the left operand, then
    what parsing keeps of those of the right operand. *)
Lemma joinpath_relative (p other : Path) :
  anchor other = "" ->
  joinpath p other = mkPath (anchor p) (names p ++ parse_parts (names other)).
Proof. intros E. unfold joinpath. now rewrite E. Qed.

(** X11: when [relative_to] succeeds its result is a relative path whose
    components are those of the path below the base; joining it to the
    base gives the components of the base followed by those of the result
    that are neither empty nor [.], and so gives the path back when the
    result has no such component. *)
Theorem relative_to_joinpath (p base r : Path) :
  relative_to p base = Some r ->
  anchor r = ""
  /\ names p = names base ++ names r
  /\ joinpath base r = mkPath (anchor p) (names base ++ parse_parts (names r))
  /\ (parse_parts (names r) = names r -> joinpath base r = p).
Proof.
  intros E. destruct (relative_to_names _ _ _ E) as (Ea & Er & En).
  split; [exact Er|]. split; [exact En|].
  rewrite (joinpath_relative _ _ Er), <- Ea. split; [reflexivity|].
  intros ->. destruct p as [a n]. cbn in *. now subst.
Qed.

Lemma relative_to_joinpath_witness :
  anchor (mkPath "" ["sub"; "a.png"]) = ""
  /\ names (mkPath "/" ["photos"; "sub"; "a.png"])
     = names (mkPath "/" ["photos"]) ++ names (mkPath "" ["sub"; "a.png"])
  /\ joinpath (mkPath "/" ["photos"]) (mkPath "" ["sub"; "a.png"])
     = mkPath "/" ["photos"; "sub"; "a.png"]
  /\ (parse_parts ["sub"; "a.png"] = ["sub"; "a.png"] ->
      joinpath (mkPath "/" ["photos"]) (mkPath "" ["sub"; "a.png"])
      = mkPath "/" ["photos"; "sub"; "a.png"]).
Proof.
  apply (relative_to_joinpath (mkPath "/" ["photos"; "sub"; "a.png"])
           (mkPath "/" ["photos"]) (mkPath "" ["sub"; "a.png"])).
  reflexivity.
Defined.

Lemma relative_to_is_inside (output_dir input_dir : Path) :
  is_Some (relative_to output_dir input_dir) <-> inside output_dir input_dir.
Proof.
  split; [|apply relative_to_inside].
  intros [r E]. destruct (relative_to_names _ _ _ E) as (_ & _ & En).
  unfold relative_to in E.
  destruct (String.eqb_spec (anchor output_dir) (anchor input_dir)) as [Ea|];
    [|discriminate].
  split; [exact Ea|]. now exists (names r).
Qed.

(** X12: [validate_paths] answers valid exactly when the input
    directory is a directory, the watermark is a file whose suffix is
    [.png] up to case, and the output directory is neither the input
    directory nor below it. *)
Theorem validate_paths_accepts_iff (fs : gmap Path Node)
    (input_dir output_dir watermark_file : Path) :
  validate_paths fs input_dir output_dir watermark_file = (true, "Paths are valid")
  <-> (is_dir fs input_dir = true
       /\ is_file fs watermark_file = true
       /\ lower (suffix watermark_file) = ".png"
       /\ ~ inside output_dir input_dir).
Proof.
  unfold validate_paths.
  destruct (is_dir fs input_dir); cbn [negb]; [|intuition discriminate].
  destruct (is_file fs watermark_file); cbn [negb]; [|intuition discriminate].
  destruct (String.eqb_spec (lower (suffix watermark_file)) ".png") as [Ep|Ep];
    cbn [negb]; [|intuition discriminate].
  destruct (relative_to output_dir input_dir) as [r|] eqn:Er.
  - split; [discriminate|]. intros (_ & _ & _ & N). exfalso. apply N.
    apply relative_to_is_inside. rewrite Er. eauto.
  - split; [|reflexivity]. intros _. repeat split; auto.
    intros I. apply relative_to_is_inside in I. rewrite Er in I. now destruct I.
Qed.
End PathFacts.

Section SuffixFacts.
#[local] Open Scope string_scope.

Lemma append_cons (c : ascii) (s r : string) :
  String c s ++ r = String c (s ++ r).
Proof. reflexivity. Qed.

Lemma append_nil_l (r : string) : "" ++ r = r.
Proof. reflexivity. Qed.

Lemma append_nil_r (s : string) : s ++ "" = s.
Proof.
  induction s as [|c s IH]; [reflexivity|]. now rewrite append_cons, IH.
Qed.

Lemma append_assoc (s r t : string) : (s ++ r) ++ t = s ++ r ++ t.
Proof.
  induction s as [|c s IH]; [reflexivity|]. now rewrite !append_cons, IH.
Qed.

Lemma substring_0_all (s : string) : substring 0 (String.length s) s = s.
Proof. induction s as [|c s IH]; cbn; [reflexivity | now rewrite IH]. Qed.

Lemma substring_0_app (s r : string) : substring 0 (String.length s) (s ++ r) = s.
Proof.
  induction s as [|c s IH].
  - rewrite append_nil_l. now destruct r.
  - rewrite append_cons. cbn. now rewrite IH.
Qed.

Lemma substring_skip_app (s r : string) (m : nat) :
  substring (String.length s) m (s ++ r) = substring 0 m r.
Proof.
  induction s as [|c s IH]; [reflexivity|]. rewrite append_cons. exact IH.
Qed.

Lemma length_append (s r : string) :
  String.length (s ++ r) = (String.length s + String.length r)%nat.
Proof.
  induction s as [|c s IH]; [reflexivity|]. rewrite append_cons. cbn.
  now rewrite IH.
Qed.

Lemma rfind_absent (c : ascii) (t : string) :
  contains c t = false -> rfind c t = None.
Proof.
  induction t as [|a t IH]; cbn; [reflexivity|].
  destruct (Ascii.eqb a c); [discriminate|]. intros E. now rewrite IH.
Qed.

Lemma rfind_last_dot (s t : string) :
  contains "." t = false -> rfind "." (s ++ "." ++ t) = Some (String.length s).
Proof.
  intros Ht. induction s as [|a s IH].
  - change ("" ++ "." ++ t) with (String "." t). cbn [rfind String.length].
    now rewrite (rfind_absent _ _ Ht).
  - rewrite append_cons. cbn [rfind String.length]. now rewrite IH.
Qed.

(** A name [s.t] with a dot-free [t] has suffix [.t]. *)
Lemma suffix_of_dotted (s t : string) :
  s <> "" -> t <> "" -> contains "." t = false ->
  suffix_of (s ++ "." ++ t) = "." ++ t.
Proof.
  intros Hs Ht Hd. unfold suffix_of. rewrite (rfind_last_dot _ _ Hd).
  change ("." ++ t) with (String "." t).
  rewrite length_append. cbn [String.length].
  assert (0 < String.length s)%nat by (destruct s; [congruence | cbn; lia]).
  assert (0 < String.length t)%nat by (destruct t; [congruence | cbn; lia]).
  destruct (Nat.ltb_spec 0 (String.length s)); [|lia].
  destruct (Nat.ltb_spec (String.length s)
              (String.length s + S (String.length t) - 1)); [|lia].
  cbn [andb]. rewrite substring_skip_app.
  replace (String.length s + S (String.length t) - String.length s)%nat
    with (String.length (String "." t)) by (cbn [String.length]; lia).
  apply substring_0_all.
Qed.

Lemma with_suffix_dotted (a : string) (dir : list string) (s t sfx : string) :
  s <> "" -> t <> "" -> contains "." t = false ->
  with_suffix (mkPath a (dir ++ [(s ++ "." ++ t)%string])%list) sfx
  = Some (mkPath a (dir ++ [(s ++ sfx)%string])%list).
Proof.
  intros Hs Ht Hd. unfold with_suffix, name. cbn [anchor names].
  rewrite last_last, removelast_last.
  destruct (String.eqb_spec (s ++ "." ++ t) "") as [E|_].
  { destruct s; [congruence | discriminate]. }
  rewrite (suffix_of_dotted _ _ Hs Ht Hd).
  change ("." ++ t) with (String "." t).
  destruct (String.eqb_spec (String "." t) "") as [E|_]; [discriminate|].
  rewrite length_append. cbn [String.length].
  replace (String.length s + S (String.length t) - S (String.length t))%nat
    with (String.length s) by lia.
  now rewrite (substring_0_app s (String "." t)).
Qed.

Lemma dotted_not_dot (s r : string) : s <> "" -> s ++ "." ++ r <> ".".
Proof.
  intros Hs E. destruct s as [|c s]; [congruence|].
  rewrite append_cons in E. injection E as _ E.
  destruct s; discriminate.
Qed.

Lemma dotted_not_empty (s r : string) : s ++ "." ++ r <> "".
Proof. destruct s; discriminate. Qed.

Lemma dot_free_not_dot (s : string) : contains "." s = false -> s <> ".".
Proof. intros H ->. discriminate. Qed.

(** X13: a source named [s.inner.t] is saved under the name [s] plus
    the extension of the output format: [with_suffix] is applied twice, to
    the relative path and to the output path, and each time removes what
    follows the last dot.  The directories of the relative path are those
    that the join keeps.  Sources that differ only in [inner] get the same
    output name. *)
Theorem output_name_drops_inner_suffix (output_dir : Path) (dir : list string)
    (s inner t ext : string) :
  s <> "" -> inner <> "" -> t <> "" ->
  contains "." inner = false -> contains "." t = false ->
  let relative_path :=
    mkPath "" (dir ++ [(s ++ "." ++ inner ++ "." ++ t)%string])%list in
  let saved := match with_suffix relative_path "" with
               | Some stem => with_suffix (joinpath output_dir stem) ext
               | None => None
               end in
  saved = Some (mkPath (anchor output_dir)
                  (names output_dir ++ parse_parts dir ++ [(s ++ ext)%string])%list).
Proof.
  intros Hs Hi Ht Di Dt. cbv zeta.
  assert (s ++ "." ++ inner ++ "." ++ t = (s ++ "." ++ inner) ++ "." ++ t) as ->.
  { now rewrite !append_assoc. }
  rewrite with_suffix_dotted; [|apply dotted_not_empty|exact Ht|exact Dt].
  rewrite append_nil_r.
  rewrite joinpath_relative by reflexivity. cbn [anchor names].
  rewrite parse_parts_app,
    (parse_parts_one _ (dotted_not_empty s inner) (dotted_not_dot s inner Hs)).
  rewrite app_assoc. rewrite with_suffix_dotted by assumption.
  now rewrite <- app_assoc.
Qed.

Lemma output_name_drops_inner_suffix_witness :
  match with_suffix (mkPath "" ["trip"; "photo.v2.jpg"]) "" with
  | Some stem => with_suffix (joinpath (mkPath "" ["out"]) stem) ".png"
  | None => None
  end = Some (mkPath "" ["out"; "trip"; "photo.png"]).
Proof.
  apply (output_name_drops_inner_suffix (mkPath "" ["out"]) ["trip"]
           "photo" "v2" "jpg" ".png"); try discriminate; reflexivity.
Defined.

Lemma with_suffix_plain (a : string) (dir : list string) (s sfx : string) :
  s <> "" -> contains "." s = false ->
  with_suffix (mkPath a (dir ++ [s])%list) sfx
  = Some (mkPath a (dir ++ [(s ++ sfx)%string])%list).
Proof.
  intros Hs Hd. unfold with_suffix, name. cbn [anchor names].
  rewrite last_last, removelast_last.
  destruct (String.eqb_spec s "") as [|_]; [contradiction|].
  unfold suffix_of. rewrite (rfind_absent _ _ Hd). reflexivity.
Qed.

(** X14: in the mode that keeps the source format, for a source named
    [s.t] without further dots, the path that the row reports is the
    output directory joined with the relative path of the source, suffix
    included, whatever suffix [save_image] wrote. *)
Theorem reported_name_is_source_name (output_dir : Path) (dir : list string)
    (s t : string) :
  s <> "" -> t <> "" -> contains "." s = false -> contains "." t = false ->
  let relative_path := mkPath "" (dir ++ [(s ++ "." ++ t)%string])%list in
  let reported := match with_suffix relative_path "" with
                  | Some stem =>
                      with_suffix (joinpath output_dir stem) (suffix relative_path)
                  | None => None
                  end in
  reported = Some (joinpath output_dir relative_path).
Proof.
  intros Hs Ht Ds Dt. cbv zeta.
  rewrite with_suffix_dotted by assumption. rewrite append_nil_r.
  unfold suffix, name. cbn [names]. rewrite last_last.
  rewrite suffix_of_dotted by assumption.
  rewrite !joinpath_relative by reflexivity. cbn [anchor names].
  rewrite !parse_parts_app,
    (parse_parts_one _ Hs (dot_free_not_dot _ Ds)),
    (parse_parts_one _ (dotted_not_empty s t) (dotted_not_dot s t Hs)).
  rewrite app_assoc, with_suffix_plain by assumption.
  now rewrite <- app_assoc.
Qed.

Lemma reported_name_is_source_name_witness :
  match with_suffix (mkPath "" ["trip"; "photo.bmp"]) "" with
  | Some stem =>
      with_suffix (joinpath (mkPath "" ["out"]) stem)
        (suffix (mkPath "" ["trip"; "photo.bmp"]))
  | None => None
  end = Some (joinpath (mkPath "" ["out"]) (mkPath "" ["trip"; "photo.bmp"])).
Proof.
  apply (reported_name_is_source_name (mkPath "" ["out"]) ["trip"] "photo" "bmp");
    try discriminate; reflexivity.
Defined.

(** X29: a source whose name is two dots followed by a dot-free
    extension [t] has the stem [.]: [with_suffix] leaves that one dot as
    the last component, the join with the output directory drops it, and
    the second [with_suffix] then renames the directory that the file was
    meant for, so that the file is saved beside that directory and under
    its name, not in it. *)
Theorem dot_stem_saved_beside_directory (output_dir : Path) (dir : list string)
    (t ext : string) :
  t <> "" -> contains "." t = false ->
  let relative_path := mkPath "" (dir ++ [(".." ++ t)%string])%list in
  with_suffix relative_path "" = Some (mkPath "" (dir ++ ["."])%list)
  /\ joinpath output_dir (mkPath "" (dir ++ ["."])%list)
     = joinpath output_dir (mkPath "" dir)
  /\ match with_suffix relative_path "" with
     | Some stem => with_suffix (joinpath output_dir stem) ext
     | None => None
     end = with_suffix (joinpath output_dir (mkPath "" dir)) ext.
Proof.
  intros Ht Dt. cbv zeta.
  assert (with_suffix (mkPath "" (dir ++ [(".." ++ t)%string])%list) ""
          = Some (mkPath "" (dir ++ ["."])%list)) as E.
  { change (".." ++ t) with ("." ++ "." ++ t).
    rewrite with_suffix_dotted by (assumption || discriminate). reflexivity. }
  assert (joinpath output_dir (mkPath "" (dir ++ ["."])%list)
          = joinpath output_dir (mkPath "" dir)) as J.
  { rewrite !joinpath_relative by reflexivity. cbn [anchor names].
    now rewrite parse_parts_app, parse_parts_dot, app_nil_r. }
  rewrite E, J. auto.
Qed.

Lemma dot_stem_saved_beside_directory_witness :
  with_suffix (mkPath "" ["..jpg"]) "" = Some (mkPath "" ["."])
  /\ joinpath (mkPath "" ["out"]) (mkPath "" ["."]) = mkPath "" ["out"]
  /\ match with_suffix (mkPath "" ["..jpg"]) "" with
     | Some stem => with_suffix (joinpath (mkPath "" ["out"]) stem) ".jpg"
     | None => None
     end = Some (mkPath "" ["out.jpg"]).
Proof.
  apply (dot_stem_saved_beside_directory (mkPath "" ["out"]) [] "jpg" ".jpg");
    [discriminate | reflexivity].
Defined.

Lemma length_substring (a b : nat) (s : string) :
  String.length (substring a b s) = Nat.min b (String.length s - a).
Proof.
  revert a b. induction s as [|c s IH]; intros [|a] [|b];
    cbn [substring String.length]; rewrite ?IH; lia.
Qed.

Lemma length_zero (s : string) : String.length s = 0%nat -> s = "".
Proof. destruct s; [reflexivity | discriminate]. Qed.

(** What [with_suffix] leaves as the last component is not empty: a
    suffix never starts at the first character of the name. *)
Lemma with_suffix_name_nonempty (p q : Path) (sfx : string) :
  with_suffix p sfx = Some q -> name q <> "".
Proof.
  unfold with_suffix.
  destruct (String.eqb_spec (name p) "") as [|Hn]; [discriminate|].
  intros [= <-]. unfold name at 1. cbn [names]. rewrite last_last.
  intros E. apply (f_equal String.length) in E. cbn [String.length] in E.
  assert (0 < String.length (name p))%nat as Hl.
  { destruct (name p); [congruence | cbn; lia]. }
  destruct (String.eqb_spec (suffix_of (name p)) "") as [_|Ho];
    rewrite length_append in E; [lia|].
  rewrite length_substring in E.
  unfold suffix_of in Ho, E.
  destruct (rfind "." (name p)) as [i|]; [|congruence].
  destruct (Nat.ltb_spec 0 i); [|cbn in Ho; congruence].
  destruct (Nat.ltb_spec i (String.length (name p) - 1));
    [|cbn in Ho; congruence].
  cbn [andb] in E. rewrite length_substring in E. lia.
Qed.
End SuffixFacts.

(* ===================================================================== *)
(** * Discovery: order and soundness *)
(* ===================================================================== *)

Section DiscoveryOrder.

Lemma scan_takes (guard : DirEntry -> bool) (entries : list DirEntry)
    (images : list Path) (ignored : nat) :
  (length images < MAX_BATCH_SIZE)%nat ->
  fst (scan guard entries (images, ignored))
  = take MAX_BATCH_SIZE
      (images ++ map entry_path (List.filter (decodable guard) entries))
  /\ (ignored <= snd (scan guard entries (images, ignored))
      <= ignored + length (List.filter (undecodable guard) entries)
         + length (List.filter (known_unsupported guard) entries))%nat.
Proof.
  revert images ignored.
  induction entries as [|e entries IH]; intros images ignored Hlen.
  - cbn [scan List.filter map fst snd length]. rewrite app_nil_r.
    split; [|lia]. symmetry. apply firstn_all2. lia.
  - cbn [scan List.filter].
    unfold decodable, undecodable, known_unsupported, supported, classify in *.
    destruct (guard e); cbn [andb].
    + destruct (mem (lower (suffix (entry_path e))) SUPPORTED_FORMATS);
        cbn [andb negb].
      * destruct (entry_opens e); cbn [andb negb fst map length].
        -- destruct (Nat.leb_spec MAX_BATCH_SIZE (length (images ++ [entry_path e])))
             as [Hfull|Hroom].
           ++ cbn [fst snd]. split; [|lia].
              rewrite length_app in Hfull. cbn [length] in Hfull.
              assert (length (images ++ [entry_path e]) = MAX_BATCH_SIZE) as Hl
                by (rewrite length_app; cbn [length]; lia).
              match goal with
              | |- _ = take _ (images ++ _ :: ?r) =>
                  replace (images ++ entry_path e :: r)
                    with ((images ++ [entry_path e]) ++ r)
                    by now rewrite <- app_assoc
              end.
              rewrite <- Hl at 1. symmetry. apply take_app_length.
           ++ destruct (IH (images ++ [entry_path e]) ignored Hroom) as [I1 I2].
              rewrite I1, <- app_assoc. split; [reflexivity | lia].
        -- destruct (Nat.leb_spec MAX_BATCH_SIZE (length images)); [lia|].
           destruct (IH images (S ignored) Hlen) as [I1 I2].
           rewrite I1. split; [reflexivity | lia].
      * destruct (mem (lower (suffix (entry_path e))) KNOWN_UNSUPPORTED);
          cbn [andb negb fst map length].
        -- destruct (Nat.leb_spec MAX_BATCH_SIZE (length images)); [lia|].
           destruct (IH images (S ignored) Hlen) as [I1 I2].
           rewrite I1. split; [reflexivity | lia].
        -- destruct (Nat.leb_spec MAX_BATCH_SIZE (length images)); [lia|].
           destruct (IH images ignored Hlen) as [I1 I2].
           rewrite I1. split; [reflexivity | lia].
    + cbn [fst]. destruct (Nat.leb_spec MAX_BATCH_SIZE (length images)); [lia|].
      destruct (IH images ignored Hlen) as [I1 I2].
      rewrite I1. split; [reflexivity | lia].
Qed.

Lemma MAX_BATCH_SIZE_pos : (0 < MAX_BATCH_SIZE)%nat.
Proof. apply Nat.ltb_lt. vm_compute. reflexivity. Qed.

(** The result on a directory: the first decodable files. *)
Lemma find_supported_images_take (d : DirectoryView) (max_depth : Z)
    (include_subfolders : bool) :
  dir_is_dir d = true ->
  let guard := visited (dir_path d) max_depth include_subfolders in
  let entries := if include_subfolders then dir_rglob d else dir_iterdir d in
  let result := find_supported_images d max_depth include_subfolders in
  fst result
  = take MAX_BATCH_SIZE (map entry_path (List.filter (decodable guard) entries))
  /\ (snd result <= length (List.filter (undecodable guard) entries)
                    + length (List.filter (known_unsupported guard) entries))%nat.
Proof.
  intros Ed guard entries result. unfold result, find_supported_images.
  rewrite Ed. cbn [negb]. fold guard entries.
  destruct (scan_takes guard entries [] 0 MAX_BATCH_SIZE_pos) as [I1 I2].
  cbn [app] in I1. split; [exact I1 | lia].
Qed.

(** X15: [find_supported_images] on something that is not a directory
    returns no file and counts nothing; on a directory it returns, in scan
    order, the first [MAX_BATCH_SIZE] visited files that have a supported
    suffix and can be opened, and counts at most the undecodable and the
    known-unsupported ones; the list never exceeds [MAX_BATCH_SIZE], so
    the size check of [start_processing] cannot fail. *)
Theorem find_supported_images_first_files (d : DirectoryView) (max_depth : Z)
    (include_subfolders : bool) :
  let guard := visited (dir_path d) max_depth include_subfolders in
  let entries := if include_subfolders then dir_rglob d else dir_iterdir d in
  let result := find_supported_images d max_depth include_subfolders in
  (dir_is_dir d = false -> result = ([], 0%nat))
  /\ (dir_is_dir d = true ->
      fst result
      = take MAX_BATCH_SIZE (map entry_path (List.filter (decodable guard) entries))
      /\ (snd result <= length (List.filter (undecodable guard) entries)
                        + length (List.filter (known_unsupported guard) entries))%nat)
  /\ (length (fst result) <= MAX_BATCH_SIZE)%nat.
Proof.
  intros guard entries result.
  destruct (dir_is_dir d) eqn:Ed.
  - destruct (find_supported_images_take d max_depth include_subfolders Ed)
      as [I1 I2].
    split; [discriminate|]. split; [intros _; now split|].
    unfold result. rewrite I1, length_take. lia.
  - assert (result = ([], 0%nat)) as ->.
    { unfold result, find_supported_images. now rewrite Ed. }
    split; [reflexivity|]. split; [discriminate|]. cbn. lia.
Qed.

(** X16: every path that [find_supported_images] returns comes from an
    entry of the scan that is a regular file, has a supported suffix and
    opens as an image; in recursive mode it lies within the depth
    limit. *)
Theorem find_supported_images_sound (d : DirectoryView) (max_depth : Z)
    (include_subfolders : bool) (p : Path) :
  In p (fst (find_supported_images d max_depth include_subfolders)) ->
  exists e,
    In e (if include_subfolders then dir_rglob d else dir_iterdir d)
    /\ entry_path e = p
    /\ entry_is_file e = true
    /\ entry_opens e = true
    /\ mem (lower (suffix p)) SUPPORTED_FORMATS = true
    /\ (include_subfolders = true ->
        parts_len p - parts_len (dir_path d) <= max_depth).
Proof.
  intros Hin.
  destruct (dir_is_dir d) eqn:Ed.
  2:{ unfold find_supported_images in Hin. rewrite Ed in Hin. destruct Hin. }
  destruct (find_supported_images_take d max_depth include_subfolders Ed)
    as [T _].
  rewrite T in Hin. clear T.
  apply list_elem_of_In, elem_of_take in Hin. destruct Hin as (i & Hi & _).
  apply list_elem_of_lookup_2, list_elem_of_In, in_map_iff in Hi.
  destruct Hi as (e & <- & He). apply filter_In in He. destruct He as [He Hd].
  exists e. unfold decodable, supported, visited in Hd.
  apply andb_true_iff in Hd. destruct Hd as [Hd Ho].
  apply andb_true_iff in Hd. destruct Hd as [Hg Hs].
  split; [exact He|]. split; [reflexivity|].
  destruct include_subfolders.
  - apply andb_true_iff in Hg. destruct Hg as [Hdep Hf].
    repeat split; auto. intros _. lia.
  - repeat split; auto. discriminate.
Qed.
End DiscoveryOrder.

Section DiscoveryOrderEvaluations.
Import SampleDirectories.

Lemma find_supported_images_sound_witness :
  exists e,
    In e (dir_rglob mixed)
    /\ entry_path e = mkPath "" ["photos"; "b.webp"]
    /\ entry_is_file e = true
    /\ entry_opens e = true
    /\ mem (lower (suffix (mkPath "" ["photos"; "b.webp"]))) SUPPORTED_FORMATS = true
    /\ (true = true ->
        parts_len (mkPath "" ["photos"; "b.webp"]) - parts_len (dir_path mixed)
        <= MAX_DIRECTORY_DEPTH).
Proof.
  apply (find_supported_images_sound mixed MAX_DIRECTORY_DEPTH true
           (mkPath "" ["photos"; "b.webp"])).
  vm_compute. tauto.
Defined.
End DiscoveryOrderEvaluations.

(* ===================================================================== *)
(** * The file task and the file system *)
(* ===================================================================== *)

Section DryRun.
Context `{Pixels} `{Codec}.

Lemma reads_only_bind {A B} (m : E A) (k : A -> E B) :
  reads_only m -> (forall a, reads_only (k a)) -> reads_only (ebind m k).
Proof.
  intros Hm Hk s. unfold ebind. specialize (Hm s).
  destruct (m s) as [[e|a] s1]; cbn in *; [exact Hm|].
  rewrite <- Hm. apply Hk.
Qed.

Lemma reads_only_lift {A} (m : M A) : reads_only (lift m).
Proof. intros s. unfold lift. now destruct (m (objs s)) as [[a st]|]. Qed.

Lemma reads_only_eret {A} (a : A) : reads_only (eret a).
Proof. now intros s. Qed.

Lemma reads_only_of_option {A} (o : option A) (msg : string) :
  reads_only (of_option o msg).
Proof. intros s. now destruct o. Qed.

Lemma reads_only_open_image (file_path : Path) : reads_only (open_image file_path).
Proof.
  intros s. unfold open_image.
  destruct (fs s !! file_path) as [[|data]|]; try reflexivity.
  destruct (pil_open data); [apply reads_only_lift | reflexivity].
Qed.

(** The part of the body before any save. *)
Lemma process_body_dry (settings : Settings) (input_dir output_dir : Path)
    (watermark : ref) (file_path : Path) :
  s_dry_run settings = true ->
  reads_only (process_body settings input_dir output_dir watermark file_path).
Proof.
  intros Hd. unfold process_body. rewrite Hd. cbn [negb].
  apply reads_only_bind; [apply reads_only_open_image|]. intros image.
  apply reads_only_bind; [apply reads_only_lift|]. intros im.
  apply reads_only_bind.
  { destruct (_ || _); [apply reads_only_lift | apply reads_only_eret]. }
  intros image'.
  apply reads_only_bind; [apply reads_only_lift|]. intros im'.
  apply reads_only_bind; [apply reads_only_lift|]. intros watermarked.
  apply reads_only_bind; [apply reads_only_of_option|]. intros rel.
  apply reads_only_bind; [apply reads_only_of_option|]. intros stem.
  apply reads_only_eret.
Qed.

(** X17: in a dry run the file task of the window leaves the file
    system exactly as it was, whatever happens to the task, and a
    successful row carries [DRY RUN] as output file. *)
Theorem dry_run_keeps_file_system (settings : Settings)
    (input_dir output_dir : Path) (watermark : ref) (now : string)
    (file_path : Path) (s : PState) :
  s_dry_run settings = true ->
  let run := process_single_file settings input_dir output_dir watermark now
               file_path s in
  fs (snd run) = fs s
  /\ (status (fst run) = "SUCCESS" -> output_file (fst run) = "DRY RUN").
Proof.
  intros Hd run. unfold run, process_single_file.
  pose proof (process_body_dry settings input_dir output_dir watermark file_path
                Hd s) as Hfs.
  assert (forall l s1,
            process_body settings input_dir output_dir watermark file_path s
            = (inr l, s1) -> l = []) as Hnil.
  { unfold process_body. rewrite Hd. cbn [negb]. unfold ebind, eret.
    intros l s1.
    repeat match goal with
           | |- context [match ?m ?x with _ => _ end] =>
               destruct (m x) as [[?|?] ?]; try discriminate
           | |- context [if ?b then _ else _] => destruct b
           end; intros [= <- _]; reflexivity. }
  destruct (process_body settings input_dir output_dir watermark file_path s)
    as [[e|l] s1] eqn:Eb; cbn in *.
  - split; [exact Hfs | discriminate].
  - split; [exact Hfs|]. intros _. now rewrite (Hnil l s1 eq_refl).
Qed.
End DryRun.

Section FrameFacts.
Context `{Pixels} `{Codec}.

Lemma confined_refl (zone : Path -> Prop) (files : gmap Path Node) :
  confined zone files files.
Proof. intros p _. split; auto. Qed.

Lemma confined_trans (zone : Path -> Prop) (f1 f2 f3 : gmap Path Node) :
  confined zone f1 f2 -> confined zone f2 f3 -> confined zone f1 f3.
Proof.
  intros H12 H23 p Z. destruct (H12 p Z) as [A1 B1], (H23 p Z) as [A2 B2].
  split; auto.
Qed.

Lemma frames_bind {A B} (zone : Path -> Prop) (m : E A) (k : A -> E B) :
  frames zone m ->
  (forall a s s', m s = (inr a, s') -> confined zone (fs s') (fs (snd (k a s')))) ->
  frames zone (ebind m k).
Proof.
  intros Hm Hk s. unfold ebind. specialize (Hm s).
  destruct (m s) as [[e|a] s1] eqn:Em; cbn in *; [exact Hm|].
  eapply confined_trans; [exact Hm|]. eapply Hk, Em.
Qed.

Lemma frames_lift {A} (zone : Path -> Prop) (m : M A) : frames zone (lift m).
Proof.
  intros s. unfold lift. destruct (m (objs s)) as [[a st]|]; apply confined_refl.
Qed.

Lemma frames_eret {A} (zone : Path -> Prop) (a : A) : frames zone (eret a).
Proof. intros s. apply confined_refl. Qed.

Lemma frames_of_option {A} (zone : Path -> Prop) (o : option A) (msg : string) :
  frames zone (of_option o msg).
Proof. intros s. destruct o; apply confined_refl. Qed.

Lemma of_option_inr {A} (o : option A) (msg : string) (a : A) (s s' : PState) :
  of_option o msg s = (inr a, s') -> o = Some a.
Proof. destruct o; cbn; unfold eret, throw; congruence. Qed.

Lemma frames_open_image (zone : Path -> Prop) (file_path : Path) :
  frames zone (open_image file_path).
Proof.
  intros s. unfold open_image.
  destruct (fs s !! file_path) as [[|data]|]; try apply confined_refl.
  destruct (pil_open data); [apply frames_lift | apply confined_refl].
Qed.

Lemma frames_write_file (zone : Path -> Prop) (p : Path) (data : FileData) :
  zone p -> frames zone (write_file p data).
Proof.
  intros Z s q NZ. cbn.
  assert (p <> q) by (intros ->; contradiction).
  rewrite lookup_insert_ne by assumption. split; auto.
Qed.

Lemma frames_save_without_exif (zone : Path -> Prop) (p : Path) :
  zone p -> frames zone (save_without_exif p).
Proof.
  intros Z s q NZ. cbn.
  assert (p <> q) by (intros ->; contradiction).
  destruct (fs s !! p) as [[|d]|]; [split; auto| |split; auto].
  rewrite lookup_insert_ne by assumption. split; auto.
Qed.

Lemma mkdir_from_new (a : string) (done todo : list string)
    (files files' : gmap Path Node) (p : Path) (d : FileData) :
  mkdir_from a done todo files = Some files' ->
  files' !! p = Some (RegularFile d) -> files !! p = Some (RegularFile d).
Proof.
  revert done files. induction todo as [|c todo IH]; intros done files M E.
  - cbn in M. now injection M as <-.
  - cbn in M. destruct (files !! mkPath a (done ++ [c])) as [[|d']|] eqn:Ec;
      [eauto | discriminate |].
    specialize (IH _ _ M E).
    destruct (decide (mkPath a (done ++ [c]) = p)) as [<-|Hne].
    + rewrite lookup_insert_eq in IH. discriminate.
    + now rewrite lookup_insert_ne in IH.
Qed.

Lemma frames_mkdir_parents (zone : Path -> Prop) (p : Path) :
  frames zone (mkdir_parents p).
Proof.
  intros s q _. unfold mkdir_parents.
  destruct (mkdir_from (anchor p) [] (names p) (fs s)) as [files'|] eqn:M; cbn.
  - split.
    + intros n. now apply mkdir_from_keeps with (1 := M).
    + intros d. now apply mkdir_from_new with (1 := M).
  - split; auto.
Qed.

Lemma frames_save_image (zone : Path -> Prop) (image : ref) (output_path : Path)
    (format_type : string) (exif_data : option (list Z)) :
  (forall sfx q, with_suffix output_path sfx = Some q -> zone q) ->
  frames zone (save_image image output_path format_type exif_data).
Proof.
  intros Z. unfold save_image.
  destruct (String.eqb format_type "JPEG");
    [|destruct (String.eqb format_type "WEBP")].
  - apply frames_bind; [apply frames_lift|]. intros rgb_image s0 s1 _.
    apply frames_bind; [apply frames_of_option|]. intros q s2 s3 Eq.
    apply of_option_inr in Eq.
    apply frames_bind; [apply frames_lift|]. intros rgb s4 s5 _.
    destruct exif_data;
      [apply frames_write_file | apply frames_save_without_exif]; eauto.
  - apply frames_bind; [apply frames_of_option|]. intros q s2 s3 Eq.
    apply of_option_inr in Eq.
    apply frames_bind; [apply frames_lift|]. intros rgb s4 s5 _.
    apply frames_write_file. eauto.
  - apply frames_bind; [apply frames_of_option|]. intros q s2 s3 Eq.
    apply of_option_inr in Eq.
    apply frames_bind; [apply frames_lift|]. intros rgb s4 s5 _.
    apply frames_write_file. eauto.
Qed.

Lemma frames_save_outputs (zone : Path -> Prop) (settings : Settings)
    (file_path output_path : Path) (watermarked : ref)
    (exif_data : option (list Z)) :
  (forall sfx q, with_suffix output_path sfx = Some q -> zone q) ->
  frames zone (save_outputs settings file_path output_path watermarked exif_data).
Proof.
  intros Z. unfold save_outputs.
  apply frames_bind; [apply frames_mkdir_parents|]. intros _ s0 s1 _.
  apply frames_bind; [intros s; apply confined_refl|]. intros exists_ s2 s3 _.
  destruct (negb _); [|apply frames_eret].
  apply frames_bind.
  - destruct (truthy (main_format settings)).
    + apply frames_bind; [now apply frames_save_image|]. intros _ s4 s5 _.
      apply frames_eret.
    + apply frames_bind; [now apply frames_save_image|]. intros _ s4 s5 _.
      apply frames_bind; [apply frames_of_option|]. intros p s6 s7 _.
      apply frames_eret.
  - intros saved_files s4 s5 _.
    destruct (_ && _); [|apply frames_eret].
    apply frames_bind; [now apply frames_save_image|]. intros _ s6 s7 _.
    apply frames_eret.
Qed.

Lemma with_suffix_names (p q : Path) (sfx : string) :
  with_suffix p sfx = Some q ->
  anchor q = anchor p /\ exists n, names q = removelast (names p) ++ [n].
Proof.
  unfold with_suffix. destruct (String.eqb (name p) ""); [discriminate|].
  intros [= <-]. cbn. eauto.
Qed.

Lemma relative_to_anchor (self other rel : Path) :
  relative_to self other = Some rel -> anchor rel = "".
Proof.
  unfold relative_to. destruct (String.eqb _ _); [|discriminate].
  destruct (strip_prefix _ _); [|discriminate]. now intros [= <-].
Qed.

(** Every file saved for [output_dir / stem] lies below [output_dir],
    unless the stem is a single dot. *)
Lemma saved_below_output_dir (output_dir rel stem q : Path) (sfx : string) :
  anchor rel = "" ->
  with_suffix rel "" = Some stem ->
  name stem <> "." ->
  with_suffix (joinpath output_dir stem) sfx = Some q ->
  inside q output_dir.
Proof.
  intros Ha Es Nd Eq.
  pose proof (with_suffix_name_nonempty _ _ _ Es) as Ne.
  destruct (with_suffix_names _ _ _ Es) as [As [n Ns]].
  assert (name stem = n) as En by (unfold name; rewrite Ns; apply last_last).
  subst n.
  rewrite joinpath_relative in Eq by congruence.
  destruct (with_suffix_names _ _ _ Eq) as [Aq [n' Nq]].
  cbn [anchor names] in Aq, Nq.
  rewrite Ns, parse_parts_app, (parse_parts_one _ Ne Nd), app_assoc,
    removelast_last in Nq.
  split; [exact Aq|].
  exists (parse_parts (removelast (names rel)) ++ [n']).
  now rewrite Nq, app_assoc.
Qed.

Lemma relative_stem_Some (file_path input_dir rel stem : Path) :
  relative_to file_path input_dir = Some rel ->
  with_suffix rel "" = Some stem ->
  relative_stem file_path input_dir = Some stem.
Proof. intros Er Es. unfold relative_stem. now rewrite Er. Qed.

Lemma frames_process_body (settings : Settings) (input_dir output_dir : Path)
    (watermark : ref) (file_path : Path) :
  (forall stem, relative_stem file_path input_dir = Some stem ->
                name stem <> ".") ->
  frames (fun p => inside p output_dir)
    (process_body settings input_dir output_dir watermark file_path).
Proof.
  intros Hstem. unfold process_body.
  apply frames_bind; [apply frames_open_image|]. intros image s0 s1 _.
  apply frames_bind; [apply frames_lift|]. intros im s2 s3 _.
  apply frames_bind.
  { destruct (_ || _); [apply frames_lift | apply frames_eret]. }
  intros image' s4 s5 _.
  apply frames_bind; [apply frames_lift|]. intros im' s6 s7 _.
  apply frames_bind; [apply frames_lift|]. intros watermarked s8 s9 _.
  apply frames_bind; [apply frames_of_option|]. intros rel s10 s11 Er.
  apply of_option_inr in Er.
  apply frames_bind; [apply frames_of_option|]. intros stem s12 s13 Es.
  apply of_option_inr in Es.
  destruct (negb _); [|apply frames_eret].
  apply frames_save_outputs. intros sfx q.
  apply saved_below_output_dir with (rel := rel);
    [now apply relative_to_anchor in Er | exact Es |].
  apply Hstem. now apply relative_stem_Some with (rel := rel).
Qed.

(** X18: for a source whose relative path without its suffix does not
    end in a single dot, the file task of the window changes no existing
    node outside the output directory and writes no file there, in every
    mode and also when it fails: outside the output directory it may only
    create missing directories. *)
Theorem task_writes_below_output_dir (settings : Settings)
    (input_dir output_dir : Path) (watermark : ref) (now : string)
    (file_path : Path) (s : PState) (p : Path) :
  (forall stem, relative_stem file_path input_dir = Some stem ->
                name stem <> ".") ->
  ~ inside p output_dir ->
  let after := fs (snd (process_single_file settings input_dir output_dir
                          watermark now file_path s)) in
  (forall n, fs s !! p = Some n -> after !! p = Some n)
  /\ (forall d, after !! p = Some (RegularFile d) ->
                fs s !! p = Some (RegularFile d)).
Proof.
  intros Hstem NZ after.
  pose proof (frames_process_body settings input_dir output_dir watermark
                file_path Hstem s p NZ) as F.
  unfold after, process_single_file.
  destruct (process_body settings input_dir output_dir watermark file_path s)
    as [[e|l] s1]; exact F.
Qed.
End FrameFacts.

Section SaveFacts.
Context `{Pixels} `{Codec}.




End SaveFacts.

(* ===================================================================== *)
(** * The command line *)
(* ===================================================================== *)

Section CommandLineFacts.
Context `{Pixels} `{Codec}.

Lemma ebind_inr {A B} (m : E A) (k : A -> E B) (s s' : PState) (b : B) :
  ebind m k s = (inr b, s') ->
  exists a s1, m s = (inr a, s1) /\ k a s1 = (inr b, s').
Proof.
  unfold ebind. destruct (m s) as [[e|a] s1]; [discriminate|]. eauto.
Qed.

Lemma mkdir_from_makes (a : string) (done todo : list string)
    (files files' : gmap Path Node) :
  mkdir_from a done todo files = Some files' -> todo <> [] ->
  files' !! mkPath a (done ++ todo) = Some Directory.
Proof.
  revert done files. induction todo as [|c todo IH]; intros done files M N;
    [congruence|].
  cbn in M.
  destruct (files !! mkPath a (done ++ [c])) as [[|d]|] eqn:Ec; [|discriminate|].
  - destruct todo as [|c' todo].
    + cbn in M. injection M as <-. exact Ec.
    + specialize (IH _ _ M ltac:(discriminate)).
      now rewrite <- app_assoc in IH.
  - destruct todo as [|c' todo].
    + cbn in M. injection M as <-. apply lookup_insert_eq.
    + specialize (IH _ _ M ltac:(discriminate)).
      now rewrite <- app_assoc in IH.
Qed.

Lemma mkdir_parents_inr (p : Path) (s s' : PState) :
  mkdir_parents p s = (inr tt, s') -> names p <> [] ->
  fs s' !! p = Some Directory.
Proof.
  unfold mkdir_parents.
  destruct (mkdir_from (anchor p) [] (names p) (fs s)) as [files'|] eqn:M;
    [|discriminate].
  intros [= <-] N. cbn [fs].
  pose proof (mkdir_from_makes _ _ _ _ _ M N) as D. now destruct p.
Qed.

Lemma frames_cli_save (zone : Path -> Prop) (args : Args)
    (file_path output_path : Path) (watermarked : ref)
    (exif_data : option (list Z)) :
  (forall sfx q, with_suffix output_path sfx = Some q -> zone q) ->
  frames zone (cli_save args file_path output_path watermarked exif_data).
Proof.
  intros Z. unfold cli_save.
  apply frames_bind.
  - destruct (truthy (a_main_format args)); now apply frames_save_image.
  - intros _ s0 s1 _.
    destruct (_ && _); [now apply frames_save_image | apply frames_eret].
Qed.

Lemma frames_cli_body (args : Args) (input_dir output_dir : Path)
    (watermark : ref) (file_path : Path) :
  (forall stem, relative_stem file_path input_dir = Some stem ->
                name stem <> ".") ->
  frames (fun p => inside p output_dir)
    (cli_body args input_dir output_dir watermark file_path).
Proof.
  intros Hstem. unfold cli_body.
  apply frames_bind; [apply frames_open_image|]. intros image s0 s1 _.
  apply frames_bind; [apply frames_lift|]. intros im s2 s3 _.
  apply frames_bind.
  { destruct (_ || _); [apply frames_lift | apply frames_eret]. }
  intros image' s4 s5 _.
  apply frames_bind; [apply frames_lift|]. intros im' s6 s7 _.
  apply frames_bind; [apply frames_lift|]. intros watermarked s8 s9 _.
  apply frames_bind; [apply frames_of_option|]. intros rel s10 s11 Er.
  apply of_option_inr in Er.
  apply frames_bind; [apply frames_of_option|]. intros stem s12 s13 Es.
  apply of_option_inr in Es.
  apply frames_bind; [apply frames_mkdir_parents|]. intros _ s14 s15 _.
  apply frames_bind; [|intros; apply frames_eret].
  destruct (negb _); [|apply frames_eret].
  apply frames_cli_save. intros sfx q.
  apply saved_below_output_dir with (rel := rel);
    [now apply relative_to_anchor in Er | exact Es |].
  apply Hstem. now apply relative_stem_Some with (rel := rel).
Qed.

Lemma frames_cli_body_dry (args : Args) (input_dir output_dir : Path)
    (watermark : ref) (file_path : Path) :
  a_dry args = true ->
  frames (fun _ => False)
    (cli_body args input_dir output_dir watermark file_path).
Proof.
  intros Hd. unfold cli_body. rewrite Hd. cbn [negb].
  apply frames_bind; [apply frames_open_image|]. intros image s0 s1 _.
  apply frames_bind; [apply frames_lift|]. intros im s2 s3 _.
  apply frames_bind.
  { destruct (_ || _); [apply frames_lift | apply frames_eret]. }
  intros image' s4 s5 _.
  apply frames_bind; [apply frames_lift|]. intros im' s6 s7 _.
  apply frames_bind; [apply frames_lift|]. intros watermarked s8 s9 _.
  apply frames_bind; [apply frames_of_option|]. intros rel s10 s11 _.
  apply frames_bind; [apply frames_of_option|]. intros stem s12 s13 _.
  apply frames_bind; [apply frames_mkdir_parents|]. intros _ s14 s15 _.
  apply frames_bind; [apply frames_eret|]. intros; apply frames_eret.
Qed.

(** X20: for a source whose relative path without its suffix does not
    end in a single dot, one turn of the command-line loop changes no
    existing node outside the output directory and writes no file there. *)
Theorem cli_writes_below_output_dir (args : Args)
    (input_dir output_dir : Path) (watermark : ref) (now : string)
    (file_path : Path) (s : PState) (p : Path) :
  (forall stem, relative_stem file_path input_dir = Some stem ->
                name stem <> ".") ->
  ~ inside p output_dir ->
  let after := fs (snd (cli_process_file args input_dir output_dir
                          watermark now file_path s)) in
  (forall n, fs s !! p = Some n -> after !! p = Some n)
  /\ (forall d, after !! p = Some (RegularFile d) ->
                fs s !! p = Some (RegularFile d)).
Proof.
  intros Hstem NZ after.
  pose proof (frames_cli_body args input_dir output_dir watermark
                file_path Hstem s p NZ) as F.
  unfold after, cli_process_file.
  destruct (cli_body args input_dir output_dir watermark file_path s)
    as [[e|l] s1]; exact F.
Qed.

(** X21: a dry run on the command line writes no file and changes no
    existing node, but, unlike the window, it still creates the parent
    directory of the output path when the rest of the turn succeeds. *)
Theorem cli_dry_run_makes_directories (args : Args)
    (input_dir output_dir : Path) (watermark : ref) (now : string)
    (file_path : Path) (s : PState) :
  a_dry args = true ->
  let run := cli_process_file args input_dir output_dir watermark now
               file_path s in
  (forall p n, fs s !! p = Some n -> fs (snd run) !! p = Some n)
  /\ (forall p d, fs (snd run) !! p = Some (RegularFile d) ->
                  fs s !! p = Some (RegularFile d))
  /\ (status (fst run) = "SUCCESS" ->
      output_file (fst run) = "DRY RUN"
      /\ exists relative_path stem,
           relative_to file_path input_dir = Some relative_path
           /\ with_suffix relative_path "" = Some stem
           /\ (names (parent (joinpath output_dir stem)) <> [] ->
               fs (snd run) !! parent (joinpath output_dir stem)
               = Some Directory)).
Proof.
  intros Hd run.
  pose proof (frames_cli_body_dry args input_dir output_dir watermark
                file_path Hd s) as F.
  unfold run, cli_process_file.
  destruct (cli_body args input_dir output_dir watermark file_path s)
    as [[e|out] s'] eqn:Eb; cbn [fst snd status output_file].
  - split; [intros p; now apply F|]. split; [intros p; now apply F|].
    discriminate.
  - split; [intros p; now apply F|]. split; [intros p; now apply F|].
    intros _. rewrite Hd. split; [reflexivity|].
    unfold cli_body in Eb. rewrite Hd in Eb. cbn [negb] in Eb.
    apply ebind_inr in Eb as (image & s1 & _ & Eb).
    apply ebind_inr in Eb as (im & s2 & _ & Eb).
    apply ebind_inr in Eb as (image' & s3 & _ & Eb).
    apply ebind_inr in Eb as (im' & s4 & _ & Eb).
    apply ebind_inr in Eb as (watermarked & s5 & _ & Eb).
    apply ebind_inr in Eb as (rel & s6 & Er & Eb).
    apply ebind_inr in Eb as (stem & s7 & Es & Eb).
    apply ebind_inr in Eb as ([] & s8 & Em & Eb).
    apply ebind_inr in Eb as ([] & s9 & Et & Eb).
    injection Et as <-. injection Eb as _ <-.
    exists rel, stem.
    split; [now apply of_option_inr in Er|].
    split; [now apply of_option_inr in Es|].
    now apply mkdir_parents_inr with (1 := Em).
Qed.

Lemma with_suffix_defined (p q : Path) (sfx sfx' : string) :
  with_suffix p sfx = Some q -> is_Some (with_suffix p sfx').
Proof.
  unfold with_suffix. destruct (String.eqb (name p) ""); [discriminate|]. eauto.
Qed.

(** A successful save means the output path has a name. *)
Lemma save_image_named (image : ref) (output_path : Path)
    (format_type sfx : string) (exif_data : option (list Z)) (s s' : PState) :
  save_image image output_path format_type exif_data s = (inr tt, s') ->
  is_Some (with_suffix output_path sfx).
Proof.
  unfold save_image. intros E.
  destruct (String.eqb format_type "JPEG");
    [|destruct (String.eqb format_type "WEBP")].
  - apply ebind_inr in E as (r & s1 & _ & E).
    apply ebind_inr in E as (q & s2 & Eq & _).
    apply of_option_inr in Eq. now apply with_suffix_defined with (1 := Eq).
  - apply ebind_inr in E as (q & s2 & Eq & _).
    apply of_option_inr in Eq. now apply with_suffix_defined with (1 := Eq).
  - apply ebind_inr in E as (q & s2 & Eq & _).
    apply of_option_inr in Eq. now apply with_suffix_defined with (1 := Eq).
Qed.

Lemma same_effect_bind {A B C} (m : E A) (k1 : A -> E B) (k2 : A -> E C) :
  (forall a, same_effect (k1 a) (k2 a)) ->
  same_effect (ebind m k1) (ebind m k2).
Proof.
  intros Hk s. unfold ebind. destruct (m s) as [[e|a] s1]; [now split|].
  apply Hk.
Qed.

(** With a conflict mode other than skip, the block that saves in the
    window and the block that saves on the command line do the same. *)
Lemma same_effect_saves (args : Args) (mode : string)
    (file_path output_path : Path) (watermarked : ref)
    (exif_data : option (list Z)) :
  mode <> "skip" ->
  same_effect
    (save_outputs (as_settings args mode) file_path output_path watermarked
       exif_data)
    (let! _ := mkdir_parents (parent output_path) in
     let! _ := cli_save args file_path output_path watermarked exif_data in
     eret output_path).
Proof.
  intros Hm s. unfold save_outputs, cli_save, ebind, eret.
  cbn [as_settings s_overwrite_mode main_format extra_format].
  destruct (mkdir_parents (parent output_path) s) as [[e|[]] s1]; [now split|].
  destruct (String.eqb_spec mode "skip") as [|_]; [contradiction|].
  rewrite andb_false_r. cbn [negb].
  destruct (truthy (a_main_format args)).
  - destruct (save_image watermarked output_path _ exif_data s1)
      as [[e|[]] s2]; [now split|].
    destruct (_ && _); [|reflexivity].
    destruct (save_image watermarked output_path _ exif_data s2)
      as [[e|[]] s3]; [now split | reflexivity].
  - destruct (save_image watermarked output_path _ exif_data s1)
      as [[e|[]] s2] eqn:Es; [now split|].
    destruct (save_image_named _ _ _ (suffix file_path) _ _ _ Es) as [q ->].
    cbn [of_option]. unfold eret.
    destruct (_ && _); [|reflexivity].
    destruct (save_image watermarked output_path _ exif_data s2)
      as [[e|[]] s3]; [now split | reflexivity].
Qed.

Lemma same_effect_bodies (args : Args) (mode : string)
    (input_dir output_dir : Path) (watermark : ref) (file_path : Path) :
  a_dry args = false -> mode <> "skip" ->
  same_effect
    (process_body (as_settings args mode) input_dir output_dir watermark
       file_path)
    (cli_body args input_dir output_dir watermark file_path).
Proof.
  intros Hd Hm. unfold process_body, cli_body.
  cbn [as_settings s_max_size s_scale s_auto_scale s_anchor s_opacity s_margin
       s_dry_run].
  rewrite Hd. cbn [negb].
  change cli_target_width with batch_target_width.
  apply same_effect_bind. intros image.
  apply same_effect_bind. intros im.
  apply same_effect_bind. intros image'.
  apply same_effect_bind. intros im'.
  apply same_effect_bind. intros watermarked.
  apply same_effect_bind. intros rel.
  apply same_effect_bind. intros stem.
  now apply same_effect_saves.
Qed.

(** X22: when files are saved and the conflict mode of the window is
    not skip, the file task of the window and one turn of the command-line
    loop leave the same file system and the same image objects, and their
    rows agree on status, error and source file. *)
Theorem cli_matches_window_overwrite (args : Args) (mode : string)
    (input_dir output_dir : Path) (watermark : ref) (now : string)
    (file_path : Path) (s : PState) :
  a_dry args = false -> mode <> "skip" ->
  let gui := process_single_file (as_settings args mode) input_dir output_dir
               watermark now file_path s in
  let cli := cli_process_file args input_dir output_dir watermark now
               file_path s in
  snd cli = snd gui
  /\ status (fst cli) = status (fst gui)
  /\ error (fst cli) = error (fst gui)
  /\ source_file (fst cli) = source_file (fst gui).
Proof.
  intros Hd Hm gui cli. unfold gui, cli, process_single_file, cli_process_file.
  pose proof (same_effect_bodies args mode input_dir output_dir watermark
                file_path Hd Hm s) as S.
  destruct (process_body _ _ _ _ _ s) as [[e1|l] s1],
           (cli_body _ _ _ _ _ s) as [[e2|out] s2]; cbn in *;
    try contradiction.
  - destruct S as [-> ->]. repeat split.
  - subst. repeat split.
Qed.
End CommandLineFacts.

Section TaskEvaluations.
Import Samples SampleBatch SampleSession Reference.

Lemma dry_run_keeps_file_system_witness :
  let run := process_single_file rehearsal photos out 0%nat
               "2025-07-15T10:00:00" a_png before in
  fs (snd run) = fs before
  /\ (status (fst run) = "SUCCESS" -> output_file (fst run) = "DRY RUN").
Proof.
  apply (dry_run_keeps_file_system rehearsal photos out 0%nat
           "2025-07-15T10:00:00" a_png before).
  reflexivity.
Defined.

Lemma task_writes_below_output_dir_witness :
  let after := fs (snd (process_single_file (skip_to "JPEG") photos out 0%nat
                          "2025-07-15T10:00:00" a_png before)) in
  (forall n, fs before !! a_png = Some n -> after !! a_png = Some n)
  /\ (forall d, after !! a_png = Some (RegularFile d) ->
                fs before !! a_png = Some (RegularFile d)).
Proof.
  apply (task_writes_below_output_dir (skip_to "JPEG") photos out 0%nat
           "2025-07-15T10:00:00" a_png before a_png).
  - intros stem E. cbv in E. injection E as <-. discriminate.
  - intros [_ [rest Hr]]. discriminate.
Defined.


Lemma cli_writes_below_output_dir_witness :
  let after := fs (snd (cli_process_file png_args photos out 0%nat
                          "2025-07-15T10:00:00" a_png before)) in
  (forall n, fs before !! a_png = Some n -> after !! a_png = Some n)
  /\ (forall d, after !! a_png = Some (RegularFile d) ->
                fs before !! a_png = Some (RegularFile d)).
Proof.
  apply (cli_writes_below_output_dir png_args photos out 0%nat
           "2025-07-15T10:00:00" a_png before a_png).
  - intros stem E. cbv in E. injection E as <-. discriminate.
  - intros [_ [rest Hr]]. discriminate.
Defined.

Lemma cli_dry_run_makes_directories_witness :
  let run := cli_process_file rehearsal_args photos out 0%nat
               "2025-07-15T10:00:00" a_png before in
  (forall p n, fs before !! p = Some n -> fs (snd run) !! p = Some n)
  /\ (forall p d, fs (snd run) !! p = Some (RegularFile d) ->
                  fs before !! p = Some (RegularFile d))
  /\ (status (fst run) = "SUCCESS" ->
      output_file (fst run) = "DRY RUN"
      /\ exists relative_path stem,
           relative_to a_png photos = Some relative_path
           /\ with_suffix relative_path "" = Some stem
           /\ (names (parent (joinpath out stem)) <> [] ->
               fs (snd run) !! parent (joinpath out stem) = Some Directory)).
Proof.
  apply (cli_dry_run_makes_directories rehearsal_args photos out 0%nat
           "2025-07-15T10:00:00" a_png before).
  reflexivity.
Defined.

Lemma cli_matches_window_overwrite_witness :
  let gui := process_single_file (as_settings png_args "overwrite") photos out
               0%nat "2025-07-15T10:00:00" a_png before in
  let cli := cli_process_file png_args photos out 0%nat
               "2025-07-15T10:00:00" a_png before in
  snd cli = snd gui
  /\ status (fst cli) = status (fst gui)
  /\ error (fst cli) = error (fst gui)
  /\ source_file (fst cli) = source_file (fst gui).
Proof.
  apply (cli_matches_window_overwrite png_args "overwrite" photos out 0%nat
           "2025-07-15T10:00:00" a_png before).
  - reflexivity.
  - discriminate.
Defined.
End TaskEvaluations.

(* ===================================================================== *)
(** * The preview *)
(* ===================================================================== *)

Section PreviewFacts.

Lemma categorize_from (sizes : Path -> option (Z * Z)) (l P L P' L' : list Path) :
  categorize sizes l P L = (P', L') ->
  NoDup (P ++ L ++ l) ->
  NoDup (P' ++ L') /\ (forall x, x ∈ P' ++ L' -> x ∈ P ++ L ++ l).
Proof.
  revert P L. induction l as [|x l IH]; intros P L E N.
  - cbn in E. injection E as <- <-. now rewrite app_nil_r in *.
  - cbn [categorize] in E.
    destruct (sizes x) as [[w h]|].
    + assert (forall Pn Ln, Pn ++ Ln ++ l ≡ₚ P ++ L ++ x :: l ->
                (Pn, Ln) = (P', L') \/ categorize sizes l Pn Ln = (P', L') ->
                NoDup (P' ++ L') /\ (forall y, y ∈ P' ++ L' -> y ∈ P ++ L ++ x :: l))
        as Step.
      { intros Pn Ln Hp [Eq|Eq].
        - injection Eq as <- <-. rewrite <- Hp in N. split.
          + rewrite app_assoc in N. apply NoDup_app in N. apply N.
          + intros y Hy. rewrite <- Hp. rewrite app_assoc.
            apply elem_of_app. now left.
        - destruct (IH Pn Ln Eq) as [N' S']; [now rewrite Hp|].
          split; [exact N'|]. intros y Hy. rewrite <- Hp. auto. }
      destruct (h >? w).
      * apply (Step (P ++ [x]) L).
        { rewrite <- app_assoc. cbn. apply Permutation_app_head.
          apply Permutation_middle. }
        destruct (_ && _); [left | right]; exact E.
      * apply (Step P (L ++ [x])).
        { now rewrite <- app_assoc. }
        destruct (_ && _); [left | right]; exact E.
    + destruct (IH P L E) as [N' S'].
      { rewrite !app_assoc in *. apply NoDup_app in N as (N1 & N2 & N3).
        apply NoDup_app. split; [exact N1|]. split.
        - intros y Hy Hl. apply (N2 y Hy). now right.
        - now apply NoDup_cons in N3. }
      split; [exact N'|]. intros y Hy. specialize (S' y Hy).
      rewrite !elem_of_app in *. rewrite elem_of_cons. tauto.
Qed.

Lemma categorize_subset (sizes : Path -> option (Z * Z)) (l P L P' L' : list Path) :
  categorize sizes l P L = (P', L') ->
  forall x, x ∈ P' ++ L' -> x ∈ P ++ L ++ l.
Proof.
  revert P L. induction l as [|x l IH]; intros P L E y Hy.
  - cbn in E. injection E as <- <-. now rewrite app_nil_r.
  - cbn [categorize] in E.
    assert (forall Pn Ln, (forall z, z ∈ Pn ++ Ln ++ l -> z ∈ P ++ L ++ x :: l) ->
              (Pn, Ln) = (P', L') \/ categorize sizes l Pn Ln = (P', L') ->
              y ∈ P ++ L ++ x :: l) as Step.
    { intros Pn Ln Hs [Eq|Eq].
      - injection Eq as <- <-. apply Hs. rewrite app_assoc.
        apply elem_of_app. now left.
      - apply Hs. now apply (IH Pn Ln Eq). }
    destruct (sizes x) as [[w h]|].
    + destruct (h >? w).
      * apply (Step (P ++ [x]) L).
        { intros z. rewrite !elem_of_app, !elem_of_cons, elem_of_nil. tauto. }
        destruct (_ && _); [left | right]; exact E.
      * apply (Step P (L ++ [x])).
        { intros z. rewrite !elem_of_app, !elem_of_cons, elem_of_nil. tauto. }
        destruct (_ && _); [left | right]; exact E.
    + apply (Step P L); [|now right].
      intros z. rewrite !elem_of_app, !elem_of_cons. tauto.
Qed.

Lemma length_without (l k : list Path) :
  NoDup l -> NoDup k -> (forall x, x ∈ k -> x ∈ l) ->
  (length (filter (fun x => x ∉ k) l) + length k = length l)%nat.
Proof.
  intros Nl Nk Sub.
  pose proof (filter_app_complement (fun x => x ∈ k) l) as Hp.
  apply Permutation_length in Hp. rewrite length_app in Hp.
  assert (filter (fun x => x ∈ k) l ≡ₚ k) as Hk.
  { apply NoDup_Permutation; [now apply NoDup_filter | exact Nk |].
    intros x. rewrite list_elem_of_filter. split; [tauto | auto]. }
  apply Permutation_length in Hk. lia.
Qed.

Lemma NoDup_take_of (n : nat) (l : list Path) : NoDup l -> NoDup (take n l).
Proof. intros N. exact (sublist_NoDup _ _ N (sublist_take l n)). Qed.

(** X23: the preview shows at most six images, all taken from the
    first twelve found; when at least one image was found the balanced
    selection is not empty, so the fallback to the first six images is
    never taken there. *)
Theorem select_preview_bounds (sizes : Path -> option (Z * Z))
    (images : list Path) :
  let selected := select_preview sizes images in
  (length selected <= 6)%nat
  /\ (forall p, p ∈ selected -> p ∈ take 12 images)
  /\ (images <> [] -> balanced_selection sizes images <> []).
Proof.
  cbv zeta. unfold select_preview, balanced_selection.
  destruct (categorize sizes (take 12 images) [] []) as [P L] eqn:Ec.
  pose proof (categorize_subset _ _ _ _ _ _ Ec) as Sub. cbn [app] in Sub.
  set (sel0 := take 3 L ++ take 3 P).
  assert (length sel0 <= 6)%nat as Hlen.
  { unfold sel0. rewrite length_app, !length_take. lia. }
  assert (forall p, p ∈ sel0 -> p ∈ take 12 images) as Hsub.
  { intros p Hp. apply Sub. unfold sel0 in Hp.
    apply elem_of_app in Hp as [Hp|Hp]; apply subseteq_take in Hp;
      apply elem_of_app; tauto. }
  set (rest := filter (fun img => img ∉ sel0) (take 12 images)).
  set (sel := if (length sel0 <? 6)%nat
              then sel0 ++ take (6 - length sel0) rest else sel0).
  assert (length sel <= 6)%nat as Hl.
  { unfold sel. destruct (Nat.ltb_spec (length sel0) 6); [|exact Hlen].
    rewrite length_app, length_take. lia. }
  assert (forall p, p ∈ sel -> p ∈ take 12 images) as Hs.
  { unfold sel. intros p Hp.
    destruct (length sel0 <? 6)%nat; [|now apply Hsub].
    apply elem_of_app in Hp as [Hp|Hp]; [now apply Hsub|].
    apply subseteq_take in Hp. unfold rest in Hp.
    now apply list_elem_of_filter in Hp. }
  assert (images <> [] -> sel <> []) as Hne.
  { intros Hi. unfold sel.
    destruct sel0 as [|a sel0'] eqn:E0; [|now destruct (_ <? _)%nat].
    cbn. unfold rest. destruct images as [|i images]; [congruence|].
    cbn [take]. rewrite filter_cons_True by apply not_elem_of_nil.
    discriminate. }
  split; [|split].
  - destruct sel as [|a sel'] eqn:Es; [|exact Hl]. rewrite length_take. lia.
  - destruct sel as [|a sel'] eqn:Es; [|exact Hs].
    intros p Hp. apply elem_of_take in Hp as (i & Hi & Hlt).
    apply elem_of_take. exists i. split; [exact Hi | lia].
  - exact Hne.
Qed.

(** X24: when the images found are pairwise different, the preview
    shows no image twice and shows min(6, number of images) of them. *)
Theorem select_preview_distinct (sizes : Path -> option (Z * Z))
    (images : list Path) :
  NoDup images ->
  NoDup (select_preview sizes images)
  /\ length (select_preview sizes images) = Nat.min 6 (length images).
Proof.
  intros Nd. unfold select_preview, balanced_selection.
  assert (NoDup (take 12 images)) as Nf.
  { now apply NoDup_take_of. }
  destruct (categorize sizes (take 12 images) [] []) as [P L] eqn:Ec.
  destruct (categorize_from _ _ _ _ _ _ Ec Nf) as [Npl Sub]. cbn [app] in Sub.
  set (sel0 := take 3 L ++ take 3 P).
  assert (NoDup sel0) as N0.
  { unfold sel0. apply NoDup_app in Npl as (NP & Dis & NL).
    apply NoDup_app. split; [|split].
    - now apply NoDup_take_of.
    - intros x Hl Hp. apply subseteq_take in Hl, Hp. now apply (Dis x).
    - now apply NoDup_take_of. }
  assert (forall p, p ∈ sel0 -> p ∈ take 12 images) as Hsub.
  { intros p Hp. apply Sub. unfold sel0 in Hp.
    apply elem_of_app in Hp as [Hp|Hp]; apply subseteq_take in Hp;
      apply elem_of_app; tauto. }
  pose proof (length_without _ _ Nf N0 Hsub) as Hc.
  set (rest := filter (fun img => img ∉ sel0) (take 12 images)) in *.
  assert (length sel0 <= 6)%nat as Hlen.
  { unfold sel0. rewrite length_app, !length_take. lia. }
  pose proof (length_take images 12) as Ht.
  set (sel := if (length sel0 <? 6)%nat
              then sel0 ++ take (6 - length sel0) rest else sel0).
  assert (NoDup sel /\ length sel = Nat.min 6 (length images)) as [Ns Ls].
  { unfold sel. destruct (Nat.ltb_spec (length sel0) 6).
    - split.
      + apply NoDup_app. split; [exact N0|]. split.
        * intros x Hx Hr. apply subseteq_take in Hr. unfold rest in Hr.
          apply list_elem_of_filter in Hr. tauto.
        * apply NoDup_take_of. now apply NoDup_filter.
      + rewrite length_app, length_take. lia.
    - split; [exact N0 | lia]. }
  destruct sel as [|a sel'] eqn:Es; [|now split].
  split.
  - now apply NoDup_take_of.
  - rewrite length_take. reflexivity.
Qed.

Lemma select_preview_nonempty (sizes : Path -> option (Z * Z))
    (images : list Path) :
  images <> [] -> select_preview sizes images <> [].
Proof.
  intros Hi. unfold select_preview.
  destruct (balanced_selection sizes images) eqn:E; [|discriminate].
  destruct images; [congruence | discriminate].
Qed.

Lemma handle_in_range (st : Preview) (ev : PreviewEvent) :
  in_range st -> in_range (handle st ev).
Proof.
  intros [H0 H1]. destruct ev as [sizes images| |]; cbn [handle].
  - unfold show_selection. destruct images as [|i images]; [now split|].
    split; cbn; [lia|]. intros Hn.
    destruct (select_preview sizes (i :: images)); [congruence | cbn; lia].
  - unfold _prev_preview. destruct (Z.gtb_spec (current_preview_index st) 0);
      [|now split].
    split; cbn; [lia|]. intros Hn. specialize (H1 Hn). lia.
  - unfold _next_preview.
    destruct (Z.ltb_spec (current_preview_index st)
                (Z.of_nat (length (preview_images st)) - 1)); [|now split].
    split; cbn; lia.
Qed.

(** X25: after any sequence of preview refreshes and clicks on the
    previous and next buttons, starting from the initial state, the
    current index is not negative and, when there are preview images,
    names one of them. *)
Theorem preview_index_in_range (events : list PreviewEvent) :
  let st := fold_left handle events initial_preview in
  0 <= current_preview_index st
  /\ (preview_images st <> [] ->
      exists p, preview_images st !! Z.to_nat (current_preview_index st) = Some p).
Proof.
  cbv zeta.
  assert (in_range (fold_left handle events initial_preview)) as [H0 H1].
  { assert (in_range initial_preview) as Hi by (split; cbn; [lia | congruence]).
    revert Hi. generalize initial_preview.
    induction events as [|ev events IH]; intros st Hi; [exact Hi|].
    cbn [fold_left]. apply IH. now apply handle_in_range. }
  split; [exact H0|]. intros Hn. specialize (H1 Hn).
  apply lookup_lt_is_Some. lia.
Qed.
End PreviewFacts.

Section PreviewEvaluations.
Import SampleRun SampleSession.

Lemma select_preview_distinct_witness :
  NoDup (select_preview all_landscape [a_jpg; b_jpg])
  /\ length (select_preview all_landscape [a_jpg; b_jpg])
     = Nat.min 6 (length [a_jpg; b_jpg]).
Proof.
  apply (select_preview_distinct all_landscape [a_jpg; b_jpg]).
  apply (bool_decide_unpack _). vm_compute. exact I.
Defined.
End PreviewEvaluations.

(* ===================================================================== *)
(** * Settings *)
(* ===================================================================== *)

Section SettingsFacts.

Lemma apply_settings_snoc (settings : list (string * Value)) (k : string)
    (v : Value) (vars : Vars) :
  _apply_settings (settings ++ [(k, v)]) vars
  = match _apply_settings settings vars !! k with
    | Some _ => <[k := v]> (_apply_settings settings vars)
    | None => _apply_settings settings vars
    end.
Proof. unfold _apply_settings. now rewrite fold_left_app. Qed.

(** A variable after the loop: the last value given for it, if any. *)
Lemma apply_settings_lookup (settings : list (string * Value)) (vars : Vars)
    (k : string) :
  _apply_settings settings vars !! k
  = match vars !! k with
    | Some old => Some (default old ((list_to_map (reverse settings) : Vars) !! k))
    | None => None
    end.
Proof.
  induction settings as [|[k' v] settings IH] using rev_ind.
  - cbn. now destruct (vars !! k).
  - rewrite apply_settings_snoc, reverse_snoc, list_to_map_cons.
    destruct (decide (k' = k)) as [->|Hne].
    + rewrite lookup_insert_eq.
      destruct (_apply_settings settings vars !! k) as [x|] eqn:Ex.
      * rewrite lookup_insert_eq. rewrite IH in Ex.
        now destruct (vars !! k).
      * rewrite Ex. rewrite IH in Ex. now destruct (vars !! k).
    + rewrite (lookup_insert_ne (list_to_map (reverse settings) : Vars)) by exact Hne.
      rewrite <- IH.
      destruct (_apply_settings settings vars !! k'); [|reflexivity].
      now rewrite lookup_insert_ne.
Qed.

(** X26: loading settings creates no variable and removes none; a
    variable that the settings do not name keeps its value; a variable
    named last in the settings takes that value. *)
Theorem apply_settings_keeps_variables (settings : list (string * Value))
    (vars : Vars) (k : string) :
  (is_Some (_apply_settings settings vars !! k) <-> is_Some (vars !! k))
  /\ ((forall v, (k, v) ∉ settings) ->
      _apply_settings settings vars !! k = vars !! k)
  /\ (forall v rest, settings = rest ++ [(k, v)] -> is_Some (vars !! k) ->
      _apply_settings settings vars !! k = Some v).
Proof.
  rewrite apply_settings_lookup. split; [|split].
  - destruct (vars !! k); [split; eauto|]. split; intros [x Hx]; discriminate.
  - intros Hk. destruct (vars !! k) as [old|]; [|reflexivity].
    destruct ((list_to_map (reverse settings) : Vars) !! k) as [v|] eqn:Ev;
      [|reflexivity].
    apply elem_of_list_to_map_2 in Ev. rewrite elem_of_reverse in Ev.
    now apply Hk in Ev.
  - intros v rest -> [old ->]. rewrite reverse_snoc, list_to_map_cons.
    now rewrite lookup_insert_eq.
Qed.

(** X27: applying the settings just read from the controls changes no
    variable. *)
Theorem apply_settings_round_trip (vars : Vars) (settings : list (string * Value)) :
  _get_current_settings vars = Some settings ->
  _apply_settings settings vars = vars.
Proof.
  unfold _get_current_settings. intros E.
  repeat match type of E with
         | (mbind _ ?o) = Some _ =>
             let x := fresh "x" in let Ex := fresh "Ex" in
             destruct o as [x|] eqn:Ex; [cbn [mbind option_bind] in E | discriminate]
         end.
  injection E as <-. unfold _apply_settings. cbn [fold_left fst snd].
  repeat match goal with
         | Ex : vars !! ?k = Some ?x |- context [vars !! ?k] =>
             rewrite Ex, (insert_id vars k x Ex)
         end.
  reflexivity.
Qed.

Lemma Some_eq {A} (x y : A) : Some x = Some y -> x = y.
Proof. now intros [= ->]. Qed.

Lemma default_binding (k : string) (v : Value) :
  In (k, v) DEFAULT_SETTINGS ->
  (list_to_map (reverse DEFAULT_SETTINGS) : Vars) !! k = Some v
  /\ k <> "input_dir" /\ k <> "output_dir" /\ k <> "watermark_file".
Proof.
  intros Hin. unfold DEFAULT_SETTINGS in Hin. cbn [In] in Hin.
  repeat (destruct Hin as [Hin|Hin];
          [injection Hin as <- <-;
           split; [vm_compute; reflexivity | repeat split; discriminate]|]).
  destruct Hin.
Qed.

(** The ten variables that [_get_current_settings] reads. *)
Lemma settings_present (vars : Vars) (k : string) (v : Value) :
  is_Some (_get_current_settings vars) ->
  In (k, v) DEFAULT_SETTINGS -> is_Some (vars !! k).
Proof.
  intros [settings G] Hin. unfold _get_current_settings in G.
  repeat match type of G with
         | (mbind _ ?o) = Some _ =>
             let x := fresh "x" in let Ex := fresh "Ex" in
             destruct o as [x|] eqn:Ex; [cbn [mbind option_bind] in G | discriminate]
         end.
  clear G. unfold DEFAULT_SETTINGS in Hin. cbn [In] in Hin.
  repeat (destruct Hin as [Hin|Hin]; [injection Hin as <- <-; eauto|]).
  destruct Hin.
Qed.

Lemma get_current_settings_defaults (vars : Vars) :
  (forall k v, In (k, v) DEFAULT_SETTINGS -> vars !! k = Some v) ->
  _get_current_settings vars = Some DEFAULT_SETTINGS.
Proof.
  intros Hd. unfold _get_current_settings.
  rewrite (Hd "anchor" (VStr "BR")), (Hd "opacity" (VInt 80)),
    (Hd "margin" (VInt 25)), (Hd "scale" (VInt 30)),
    (Hd "max_size" (VInt 1000)), (Hd "format" (VStr "Same as source")),
    (Hd "extra_format" (VStr "None")), (Hd "auto_scale" (VBool false)),
    (Hd "dry_run" (VBool false)), (Hd "create_zip" (VBool false))
    by (unfold DEFAULT_SETTINGS; cbn [In]; tauto).
  reflexivity.
Qed.

(** The variables after the three paths are emptied. *)
Lemma emptied_lookup (vars : Vars) (k1 k2 k3 k : string) (e : Value) :
  <[k3 := e]> (<[k2 := e]> (<[k1 := e]> vars)) !! k
  = if decide (k = k1 \/ k = k2 \/ k = k3) then Some e else vars !! k.
Proof.
  destruct (decide (k = k1 \/ k = k2 \/ k = k3)) as [Hk|Hk].
  - destruct (decide (k3 = k)) as [->|N3]; [apply lookup_insert_eq|].
    rewrite lookup_insert_ne by exact N3.
    destruct (decide (k2 = k)) as [->|N2]; [apply lookup_insert_eq|].
    rewrite lookup_insert_ne by exact N2.
    destruct (decide (k1 = k)) as [->|N1]; [apply lookup_insert_eq|].
    exfalso. destruct Hk as [->|[->| ->]]; congruence.
  - rewrite !lookup_insert_ne; [reflexivity | | |]; intros <-; tauto.
Qed.

Lemma clear_all_fields_unfold (vars vars' : Vars) :
  clear_all_fields vars = Some vars' ->
  vars' = _apply_settings DEFAULT_SETTINGS
            (<["watermark_file" := VStr ""]>
               (<["output_dir" := VStr ""]> (<["input_dir" := VStr ""]> vars))).
Proof.
  unfold clear_all_fields, set_var. intros C.
  repeat match type of C with
         | context [match ?o with Some _ => _ | None => _ end] =>
             destruct o; cbn [mbind option_bind] in C; [|discriminate C]
         end.
  symmetry. exact (Some_eq _ _ C).
Qed.

Lemma clear_all_fields_result (vars vars' : Vars) :
  is_Some (_get_current_settings vars) ->
  clear_all_fields vars = Some vars' ->
  _get_current_settings vars' = Some DEFAULT_SETTINGS
  /\ vars' !! "input_dir" = Some (VStr "")
  /\ vars' !! "output_dir" = Some (VStr "")
  /\ vars' !! "watermark_file" = Some (VStr "")
  /\ (forall k, k ∉ ["input_dir"; "output_dir"; "watermark_file"] ->
                k ∉ DEFAULT_SETTINGS.*1 -> vars' !! k = vars !! k).
Proof.
  intros G C. apply clear_all_fields_unfold in C.
  assert (forall k, vars' !! k
            = match (if decide (k = "input_dir" \/ k = "output_dir"
                                \/ k = "watermark_file")
                     then Some (VStr "") else vars !! k) with
              | Some old =>
                  Some (default old
                          ((list_to_map (reverse DEFAULT_SETTINGS) : Vars) !! k))
              | None => None
              end) as L.
  { intros k. rewrite C, apply_settings_lookup, emptied_lookup. reflexivity. }
  clear C.
  assert (forall k, k = "input_dir" \/ k = "output_dir" \/ k = "watermark_file" ->
            vars' !! k = Some (VStr "")) as Hp.
  { intros k Hk. rewrite L, decide_True by exact Hk.
    destruct ((list_to_map (reverse DEFAULT_SETTINGS) : Vars) !! k) as [w|] eqn:Ew;
      [|reflexivity].
    apply elem_of_list_to_map_2 in Ew. rewrite elem_of_reverse in Ew.
    apply list_elem_of_In in Ew.
    destruct (default_binding k w Ew) as (_ & N1 & N2 & N3). tauto. }
  split; [|split; [|split; [|split]]].
  - apply get_current_settings_defaults. intros k v Hin.
    destruct (default_binding k v Hin) as (Hb & N1 & N2 & N3).
    destruct (settings_present vars k v G Hin) as [old Ho].
    rewrite L, decide_False by tauto. now rewrite Ho, Hb.
  - apply Hp. tauto.
  - apply Hp. tauto.
  - apply Hp. tauto.
  - intros k Hk Hdk. rewrite L.
    rewrite !elem_of_cons, elem_of_nil in Hk.
    rewrite decide_False by tauto.
    destruct (vars !! k) as [old|]; [|reflexivity].
    destruct ((list_to_map (reverse DEFAULT_SETTINGS) : Vars) !! k) as [v|] eqn:Ev;
      [|reflexivity].
    apply elem_of_list_to_map_2 in Ev. rewrite elem_of_reverse in Ev.
    exfalso. apply Hdk. apply list_elem_of_fmap. now exists (k, v).
Qed.

(** X28: when the variables of the window exist, clearing the fields
    succeeds; afterwards the settings read from the controls are
    [DEFAULT_SETTINGS] and the three paths are empty, while every other
    variable, such as the theme and the sub-folder switch, keeps its
    value. *)
Theorem clear_all_fields_defaults (vars : Vars) :
  is_Some (_get_current_settings vars) ->
  is_Some (vars !! "input_dir") -> is_Some (vars !! "output_dir") ->
  is_Some (vars !! "watermark_file") ->
  exists vars',
    clear_all_fields vars = Some vars'
    /\ _get_current_settings vars' = Some DEFAULT_SETTINGS
    /\ vars' !! "input_dir" = Some (VStr "")
    /\ vars' !! "output_dir" = Some (VStr "")
    /\ vars' !! "watermark_file" = Some (VStr "")
    /\ (forall k, k ∉ ["input_dir"; "output_dir"; "watermark_file"] ->
                  k ∉ DEFAULT_SETTINGS.*1 -> vars' !! k = vars !! k).
Proof.
  intros G [a Ha] [b Hb] [c Hc].
  assert (exists vars', clear_all_fields vars = Some vars') as [vars' C].
  { unfold clear_all_fields, set_var. rewrite Ha. cbn [mbind option_bind].
    rewrite lookup_insert_ne, Hb by discriminate. cbn [mbind option_bind].
    rewrite !lookup_insert_ne, Hc by discriminate. cbn [mbind option_bind].
    eauto. }
  exists vars'. split; [exact C|]. now apply clear_all_fields_result.
Qed.
End SettingsFacts.

Section SettingsEvaluations.

Lemma apply_settings_round_trip_witness :
  _apply_settings DEFAULT_SETTINGS _setup_variables = _setup_variables.
Proof.
  apply (apply_settings_round_trip _setup_variables DEFAULT_SETTINGS).
  vm_compute. reflexivity.
Defined.

Lemma clear_all_fields_defaults_witness :
  exists vars',
    clear_all_fields _setup_variables = Some vars'
    /\ _get_current_settings vars' = Some DEFAULT_SETTINGS
    /\ vars' !! "input_dir" = Some (VStr "")
    /\ vars' !! "output_dir" = Some (VStr "")
    /\ vars' !! "watermark_file" = Some (VStr "")
    /\ (forall k, k ∉ ["input_dir"; "output_dir"; "watermark_file"] ->
                  k ∉ DEFAULT_SETTINGS.*1 ->
                  vars' !! k = _setup_variables !! k).
Proof.
  apply (clear_all_fields_defaults _setup_variables);
    vm_compute; eauto.
Defined.
End SettingsEvaluations.
